(** * miu editor core: piece table, line index, undo log and edit intents

    A shallow embedding of the editing core of the miu text editor and the
    properties its specification states about it.

    The repository carries the editor twice: the Win32 program
    ([Source.cpp], of which [part_002] is the later revision) and its macOS
    port ([part_001]).  Where the two agree a single definition is used;
    where they differ the definition takes the [Port] as an argument or
    lives in the module of its port ([Win], [Mac]).

    Conventions.
    - [size_t] offsets and lengths are [nat].  Every sum of piece lengths is
      bounded by the bytes actually held in memory, so the additions of the
      piece table cannot wrap; the subtractions it performs are guarded by
      the loop conditions just before them.  Cursor arithmetic, which is not
      guarded, goes through [wadd]/[wsub], the operations modulo 2^64.
    - [int] values ([savePoint], line numbers) are [Z]; the cast
      [(int)v.size()] is [to_int].
    - [std::string] is a list of bytes; [std::vector] is a list in storage
      order ([push_back] appends at the end).
    - [desiredX] and the other pixel coordinates of a cursor are produced by
      the text shaper and never feed back into byte offsets in the
      functions modelled here; cursors carry [head] and [anchor] only. *)

From stdpp Require Import base tactics option numbers list.
From Stdlib Require Import ZArith Lia.
From Stdlib.Strings Require Import Byte.

Open Scope nat_scope.

(** ** Bytes and vectors *)

Abbreviation bytes := (list byte).

Definition NL : byte := x0a.
Definition CR : byte := x0d.
Definition SPACE : byte := x20.

#[global] Instance byte_eq_decision : EqDecision byte := Byte.byte_eq_dec.

(** [ptr + start] read for [n] bytes. *)
Definition slice (b : bytes) (start n : nat) : bytes := take n (drop start b).

(** [v.insert(v.begin() + i, x)]. *)
Definition vec_insert {A} (i : nat) (x : A) (v : list A) : list A :=
  take i v ++ x :: drop i v.

(** The two builds of the editor. *)
Inductive Port := Win32 | MacOS.

(** ** Piece table *)

Record Piece := mkPiece { isOriginal : bool; start : nat; len : nat }.

Record PieceTable := mkPT {
  origPtr : bytes;        (* the mapped file, read-only *)
  origSize : nat;
  addBuf : bytes;
  pieces : list Piece
}.

Module PT.

Definition initFromFile (data : bytes) (size : nat) : PieceTable :=
  mkPT data size [] (if decide (0 < size) then [mkPiece true 0 size] else []).

Definition initEmpty : PieceTable := mkPT [] 0 [] [].

(** [size_t s = 0; for (auto& p : pieces) s += p.len; return s;] *)
Definition length (pt : PieceTable) : nat :=
  foldl (λ s p, s + len p) 0 (pieces pt).

(** The buffer a piece points into. *)
Definition buffer (pt : PieceTable) (p : Piece) : bytes :=
  if isOriginal p then origPtr pt else addBuf pt.

(** Loop of [getRange]: [cur] is the offset of the first byte of [ps]. *)
Fixpoint getRange_loop (pt : PieceTable) (ps : list Piece)
    (pos count cur : nat) (out : bytes) : bytes :=
  match ps with
  | [] => out
  | p :: ps' =>
      if decide (cur + len p <= pos)
      then getRange_loop pt ps' pos count (cur + len p) out
      else
        let localStart := if decide (cur < pos) then pos - cur else 0 in
        let take_ := min (len p - localStart) (count - List.length out) in
        if decide (take_ = 0) then out
        else
          let out' := out ++ slice (buffer pt p) (start p + localStart) take_ in
          if decide (count <= List.length out') then out'
          else getRange_loop pt ps' pos count (cur + len p) out'
  end.

Definition getRange (pt : PieceTable) (pos count : nat) : bytes :=
  getRange_loop pt (pieces pt) pos count 0 [].

(** [charAt]: [None] stands for a read outside the buffer the piece names
    (undefined behaviour in the source). *)
Fixpoint charAt_loop (pt : PieceTable) (ps : list Piece) (pos cur : nat)
    : option byte :=
  match ps with
  | [] => Some SPACE
  | p :: ps' =>
      if decide (cur + len p <= pos)
      then charAt_loop pt ps' pos (cur + len p)
      else buffer pt p !! (start p + (pos - cur))
  end.

Definition charAt (pt : PieceTable) (pos : nat) : option byte :=
  charAt_loop pt (pieces pt) pos 0.

(** [a.len += b.len; pieces.erase(begin + i + 1)] when [pieces[i]] and
    [pieces[i+1]] are adjacent runs of the add buffer. *)
Definition try_merge (i : nat) (ps : list Piece) : option (list Piece) :=
  match ps !! i, ps !! S i with
  | Some a, Some b =>
      if negb (isOriginal a) && negb (isOriginal b)
         && bool_decide (start a + len a = start b)
      then Some (delete (S i) (<[i := mkPiece (isOriginal a) (start a) (len a + len b)]> ps))
      else None
  | _, _ => None
  end.

Definition coalesceAround (idx : nat) (ps : list Piece) : list Piece :=
  match ps with
  | [] => ps
  | _ =>
      let idx := if decide (List.length ps <= idx) then List.length ps - 1 else idx in
      let '(ps, idx) :=
        if decide (0 < idx) then
          match try_merge (idx - 1) ps with
          | Some ps' => (ps', idx - 1)
          | None => (ps, idx)
          end
        else (ps, idx) in
      if decide (idx + 1 < List.length ps) then
        match try_merge idx ps with
        | Some ps' => ps'
        | None => ps
        end
      else ps
  end.

(** The Win32 build coalesces after every mutation; the macOS port has no
    [coalesceAround]. *)
Definition finish (port : Port) (idx : nat) (ps : list Piece) : list Piece :=
  match port with
  | Win32 => coalesceAround idx ps
  | MacOS => ps
  end.

(** [while (idx < pieces.size() && cur + pieces[idx].len < pos)]; [ps] is
    [pieces[idx..]].  Returns [(cur, idx)]. *)
Fixpoint seek_insert (ps : list Piece) (pos cur idx : nat) : nat * nat :=
  match ps with
  | [] => (cur, idx)
  | p :: ps' =>
      if decide (cur + len p < pos)
      then seek_insert ps' pos (cur + len p) (S idx)
      else (cur, idx)
  end.

(** [while (idx < pieces.size() && cur + pieces[idx].len <= pos)]. *)
Fixpoint seek_erase (ps : list Piece) (pos cur idx : nat) : nat * nat :=
  match ps with
  | [] => (cur, idx)
  | p :: ps' =>
      if decide (cur + len p <= pos)
      then seek_erase ps' pos (cur + len p) (S idx)
      else (cur, idx)
  end.

(** Split [pieces[idx]] (which is [p]) at [k] bytes. *)
Definition split_at (idx k : nat) (p : Piece) (ps : list Piece) : list Piece :=
  vec_insert (S idx) (mkPiece (isOriginal p) (start p + k) (len p - k))
    (<[idx := mkPiece (isOriginal p) (start p) k]> ps).

Definition insert (port : Port) (pos : nat) (s : bytes) (pt : PieceTable)
    : PieceTable :=
  if decide (s = []) then pt
  else
    let '(cur, idx) := seek_insert (pieces pt) pos 0 0 in
    let '(ps, idx) :=
      match pieces pt !! idx with
      | Some p =>
          let offsetInPiece := pos - cur in
          if decide (0 < offsetInPiece ∧ offsetInPiece < len p)
          then (split_at idx offsetInPiece p (pieces pt), S idx)
          else if decide (offsetInPiece = len p) then (pieces pt, S idx)
          else (pieces pt, idx)
      | None => (pieces pt, List.length (pieces pt))
      end in
    let addStart := List.length (addBuf pt) in
    mkPT (origPtr pt) (origSize pt) (addBuf pt ++ s)
      (finish port idx (vec_insert idx (mkPiece false addStart (List.length s)) ps)).

(** Second loop of [erase] over [pieces[idx..]]: drop whole pieces while
    they fit in [remaining], then trim the front of the next one. *)
Fixpoint erase_run (ps : list Piece) (remaining : nat) : list Piece :=
  match ps with
  | [] => []
  | p :: ps' =>
      if decide (0 < remaining) then
        if decide (len p <= remaining) then erase_run ps' (remaining - len p)
        else mkPiece (isOriginal p) (start p + remaining) (len p - remaining) :: ps'
      else ps
  end.

Definition erase (port : Port) (pos count : nat) (pt : PieceTable)
    : PieceTable :=
  if decide (count = 0) then pt
  else
    let '(cur, idx) := seek_erase (pieces pt) pos 0 0 in
    match pieces pt !! idx with
    | None => pt
    | Some p =>
        let '(ps, idx) :=
          if decide (cur < pos)
          then (split_at idx (pos - cur) p (pieces pt), S idx)
          else (pieces pt, idx) in
        let ps := take idx ps ++ erase_run (drop idx ps) count in
        mkPT (origPtr pt) (origSize pt) (addBuf pt)
          (finish port (if decide (0 < idx) then idx - 1 else 0) ps)
    end.

(** The whole text, as the source reads it ([getRange(0, length())]). *)
Definition document (pt : PieceTable) : bytes := getRange pt 0 (length pt).

End PT.

(** ** Reference semantics of a piece sequence *)

Definition sum_len (ps : list Piece) : nat := sum_list_with len ps.

(** Bytes a single piece denotes. *)
Definition piece_bytes (pt : PieceTable) (p : Piece) : bytes :=
  slice (PT.buffer pt p) (start p) (len p).

Fixpoint bytes_of (pt : PieceTable) (ps : list Piece) : bytes :=
  match ps with
  | [] => []
  | p :: ps' => piece_bytes pt p ++ bytes_of pt ps'
  end.

(** A piece is well formed when it is non-empty and lies inside the buffer
    it names. *)
Definition piece_ok (pt : PieceTable) (p : Piece) : Prop :=
  0 < len p ∧ start p + len p <= length (PT.buffer pt p).

Definition wf (pt : PieceTable) : Prop := Forall (piece_ok pt) (pieces pt).

(** States of the piece table the public operations can produce. *)
Inductive reachable (port : Port) : PieceTable -> Prop :=
  | reach_empty : reachable port PT.initEmpty
  | reach_file data size :
      size <= length data -> reachable port (PT.initFromFile data size)
  | reach_insert pt pos s :
      reachable port pt -> reachable port (PT.insert port pos s pt)
  | reach_erase pt pos count :
      reachable port pt -> reachable port (PT.erase port pos count pt).

(** Growing the add buffer leaves the existing pieces untouched. *)
Definition grow (pt : PieceTable) (s : bytes) (ps : list Piece) : PieceTable :=
  mkPT (origPtr pt) (origSize pt) (addBuf pt ++ s) ps.


(** ** Machine integers *)

(** [(int)x] for a [size_t] value (two's complement, 32 bits). *)
Definition to_int (n : nat) : Z :=
  let m := (Z.of_nat n mod 2 ^ 32)%Z in
  if (m <? 2 ^ 31)%Z then m else (m - 2 ^ 32)%Z.

(** [(size_t)z]. *)
Definition to_size_t (z : Z) : nat := Z.to_nat (z mod 2 ^ 64).

Definition wadd (a b : nat) : nat := to_size_t (Z.of_nat a + Z.of_nat b).
Definition wsub (a b : nat) : nat := to_size_t (Z.of_nat a - Z.of_nat b).

(** [v[i]] for an [int] index; the source only indexes inside the vector. *)
Definition at_int (v : list nat) (i : Z) : nat := default 0 (v !! Z.to_nat i).

(** ** Generic helpers for the standard algorithms *)

(** [std::sort] with comparator [cmp] (insertion sort; the order of
    elements the comparator does not separate is unspecified in the source). *)
Fixpoint insert_by {A} (cmp : A -> A -> bool) (x : A) (l : list A) : list A :=
  match l with
  | [] => [x]
  | y :: l' => if cmp y x then y :: insert_by cmp x l' else x :: l
  end.

Definition sort_by {A} (cmp : A -> A -> bool) (l : list A) : list A :=
  foldr (insert_by cmp) [] l.

(** [v.erase(std::unique(v.begin(), v.end()), v.end())]. *)
Fixpoint unique (l : list Z) : list Z :=
  match l with
  | [] => []
  | x :: l' =>
      match l' with
      | y :: _ => if decide (x = y) then unique l' else x :: unique l'
      | [] => [x]
      end
  end.

(** [std::upper_bound] on a sorted vector: index of the first element
    greater than [pos]. *)
Fixpoint upper_bound (v : list nat) (pos : nat) : nat :=
  match v with
  | [] => 0
  | x :: v' => if decide (pos < x) then 0 else S (upper_bound v' pos)
  end.

(** ** Line index *)

(** Inner loop of [rebuildLineStarts] over the bytes of one piece; [off] is
    [globalOffset + i]. *)
Fixpoint scan_newlines (b : bytes) (off : nat) : list nat :=
  match b with
  | [] => []
  | c :: b' =>
      if decide (c = NL) then (off + 1) :: scan_newlines b' (S off)
      else scan_newlines b' (S off)
  end.

Fixpoint lineStarts_loop (pt : PieceTable) (ps : list Piece) (globalOffset : nat)
    : list nat :=
  match ps with
  | [] => []
  | p :: ps' =>
      scan_newlines (slice (PT.buffer pt p) (start p) (len p)) globalOffset
        ++ lineStarts_loop pt ps' (globalOffset + len p)
  end.

(** The vector [rebuildLineStarts] leaves in [lineStarts]. *)
Definition lineStartsOf (pt : PieceTable) : list nat :=
  0 :: lineStarts_loop pt (pieces pt) 0.

(** Offsets of the ['\n'] bytes of a text, in increasing order. *)
Definition newline_offsets (d : bytes) : list nat :=
  filter (λ g, d !! g = Some NL) (seq 0 (length d)).

(** ** Cursors, edit operations and the undo log *)

Record Cursor := mkCursor { head : nat; anchor : nat }.

Module Cur.
Definition start (c : Cursor) : nat := min (head c) (anchor c).
Definition end_ (c : Cursor) : nat := max (head c) (anchor c).
Definition hasSelection (c : Cursor) : bool := bool_decide (head c ≠ anchor c).
End Cur.

Inductive OpType := Insert | Erase.

Record EditOp := mkOp { type : OpType; pos : nat; text : bytes }.

Record EditBatch := mkBatch {
  ops : list EditOp;
  beforeCursors : list Cursor;
  afterCursors : list Cursor
}.

Record UndoManager := mkUM {
  undoStack : list EditBatch;
  redoStack : list EditBatch;
  savePoint : Z
}.

Module UM.

Definition clear (u : UndoManager) : UndoManager := mkUM [] [] 0.

Definition markSaved (u : UndoManager) : UndoManager :=
  mkUM (undoStack u) (redoStack u) (to_int (length (undoStack u))).

Definition isModified (u : UndoManager) : bool :=
  bool_decide (to_int (length (undoStack u)) ≠ savePoint u).

(** The Win32 build marks the save point unreachable ([-1]) when an edit is
    pushed below it; the macOS port pushes without that test. *)
Definition push (port : Port) (batch : EditBatch) (u : UndoManager) : UndoManager :=
  let sp :=
    match port with
    | Win32 =>
        if decide (savePoint u > to_int (length (undoStack u)))%Z then (-1)%Z
        else savePoint u
    | MacOS => savePoint u
    end in
  mkUM (undoStack u ++ [batch]) [] sp.

Definition canUndo (u : UndoManager) : bool := bool_decide (undoStack u ≠ []).
Definition canRedo (u : UndoManager) : bool := bool_decide (redoStack u ≠ []).

(** [back()] of an empty vector is undefined: [None]. *)
Definition popUndo (u : UndoManager) : option (EditBatch * UndoManager) :=
  e ← last (undoStack u);
  Some (e, mkUM (removelast (undoStack u)) (redoStack u ++ [e]) (savePoint u)).

Definition popRedo (u : UndoManager) : option (EditBatch * UndoManager) :=
  e ← last (redoStack u);
  Some (e, mkUM (undoStack u ++ [e]) (removelast (redoStack u)) (savePoint u)).

End UM.

(** Steps of the undo log other than [markSaved] and [clear]; undo and redo
    are guarded by [canUndo]/[canRedo] as in [performUndo]/[performRedo]. *)
Inductive LogStep := StepPush (b : EditBatch) | StepUndo | StepRedo.

Definition log_step (port : Port) (u : UndoManager) (s : LogStep) : UndoManager :=
  match s with
  | StepPush b => UM.push port b u
  | StepUndo => if UM.canUndo u then from_option snd u (UM.popUndo u) else u
  | StepRedo => if UM.canRedo u then from_option snd u (UM.popRedo u) else u
  end.

Definition log_run (port : Port) (u : UndoManager) (l : list LogStep) : UndoManager :=
  foldl (log_step port) u l.

(** ** The editor *)

(** The fields of [Editor] the edit intents read or write.  [pendingPadding]
    and the search fields exist in the Win32 build only. *)
Record Editor := mkEditor {
  pt : PieceTable;
  undo : UndoManager;
  cursors : list Cursor;
  lineStarts : list nat;
  isDirty : bool;
  pendingPadding : EditBatch;
  searchQuery : bytes;
  replaceQuery : bytes;
  searchMatchCase : bool;
  searchWholeWord : bool;
  searchRegex : bool
}.

Definition with_pt (e : Editor) (x : PieceTable) : Editor :=
  mkEditor x (undo e) (cursors e) (lineStarts e) (isDirty e) (pendingPadding e)
    (searchQuery e) (replaceQuery e) (searchMatchCase e) (searchWholeWord e)
    (searchRegex e).
Definition with_undo (e : Editor) (x : UndoManager) : Editor :=
  mkEditor (pt e) x (cursors e) (lineStarts e) (isDirty e) (pendingPadding e)
    (searchQuery e) (replaceQuery e) (searchMatchCase e) (searchWholeWord e)
    (searchRegex e).
Definition with_cursors (e : Editor) (x : list Cursor) : Editor :=
  mkEditor (pt e) (undo e) x (lineStarts e) (isDirty e) (pendingPadding e)
    (searchQuery e) (replaceQuery e) (searchMatchCase e) (searchWholeWord e)
    (searchRegex e).
Definition with_lineStarts (e : Editor) (x : list nat) : Editor :=
  mkEditor (pt e) (undo e) (cursors e) x (isDirty e) (pendingPadding e)
    (searchQuery e) (replaceQuery e) (searchMatchCase e) (searchWholeWord e)
    (searchRegex e).
Definition with_isDirty (e : Editor) (x : bool) : Editor :=
  mkEditor (pt e) (undo e) (cursors e) (lineStarts e) x (pendingPadding e)
    (searchQuery e) (replaceQuery e) (searchMatchCase e) (searchWholeWord e)
    (searchRegex e).
Definition with_pendingPadding (e : Editor) (x : EditBatch) : Editor :=
  mkEditor (pt e) (undo e) (cursors e) (lineStarts e) (isDirty e) x
    (searchQuery e) (replaceQuery e) (searchMatchCase e) (searchWholeWord e)
    (searchRegex e).

(** Value of [charAt] where the read is inside the buffer. *)
Definition byteAt (t : PieceTable) (p : nat) : byte := default SPACE (PT.charAt t p).

(** Functions the two builds share. *)
Module Ed.

(** A fresh editor on a given table: one cursor at (0,0), empty undo log. *)
Definition init (t : PieceTable) : Editor :=
  mkEditor t (mkUM [] [] 0) [mkCursor 0 0] (lineStartsOf t) false
    (mkBatch [] [] []) [] [] false false false.

Definition rebuildLineStarts (e : Editor) : Editor :=
  with_lineStarts e (lineStartsOf (pt e)).

Definition updateDirtyFlag (e : Editor) : Editor :=
  with_isDirty e (UM.isModified (undo e)).

Definition getLineIdx (port : Port) (e : Editor) (p : nat) : Z :=
  match port with
  | Win32 =>
      match lineStarts e with
      | [] => 0%Z
      | _ =>
          let idx := (to_int (upper_bound (lineStarts e) p) - 1)%Z in
          let idx := if decide (idx < 0)%Z then 0%Z else idx in
          if decide (idx >= to_int (length (lineStarts e)))%Z
          then (to_int (length (lineStarts e)) - 1)%Z else idx
      end
  | MacOS => Z.max 0 (to_int (upper_bound (lineStarts e) p) - 1)
  end.

(** Count handed to [erase] when an [Insert] is undone: [op.text.size()] in
    the Win32 build, [(int)op.text.size()] converted back to [size_t] in
    the macOS port. *)
Definition erase_count (port : Port) (n : nat) : nat :=
  match port with
  | Win32 => n
  | MacOS => to_size_t (to_int n)
  end.

Definition undo_op (port : Port) (t : PieceTable) (o : EditOp) : PieceTable :=
  match type o with
  | Insert => PT.erase port (pos o) (erase_count port (length (text o))) t
  | Erase => PT.insert port (pos o) (text o) t
  end.


(** [for (i = ops.size() - 1; i >= 0; --i)]. *)
Definition undo_ops (port : Port) (l : list EditOp) (t : PieceTable) : PieceTable :=
  foldl (undo_op port) t (rev l).


Definition performUndo (port : Port) (e : Editor) : Editor :=
  if UM.canUndo (undo e) then
    match UM.popUndo (undo e) with
    | Some (b, u) =>
        let e := with_undo e u in
        let e := with_pt e (undo_ops port (ops b) (pt e)) in
        let e := with_cursors e (beforeCursors b) in
        updateDirtyFlag (rebuildLineStarts e)
    | None => e
    end
  else e.


End Ed.

(** How every intent fills a batch: each operation is pushed at the call of
    [pt.insert]/[pt.erase] it describes, an [Erase] with the bytes
    [getRange] returned for the erased range just before, an [Insert] at an
    offset inside the text.  [recorded port t l t'] says the operations [l]
    were recorded this way while the table went from [t] to [t']. *)
Inductive recorded (port : Port) : PieceTable -> list EditOp -> PieceTable -> Prop :=
  | rec_nil t : recorded port t [] t
  | rec_insert t p s l t' :
      p <= PT.length t ->
      recorded port (PT.insert port p s t) l t' ->
      recorded port t (mkOp Insert p s :: l) t'
  | rec_erase t p n l t' :
      recorded port (PT.erase port p n t) l t' ->
      recorded port t (mkOp Erase p (PT.getRange t p n) :: l) t'.

(** ** Predicates used in the statements *)

(** A strictly increasing vector. *)
Definition increasing (l : list nat) : Prop :=
  ∀ i j a b, i < j -> l !! i = Some a -> l !! j = Some b -> a < b.

(** Number of ['\n'] bytes in a text. *)
Definition count_newlines (d : bytes) : nat := length (filter (λ c, c = NL) d).

(** ** Edit operations read on the text *)

Definition ins_bytes (p : nat) (s d : bytes) : bytes := take p d ++ s ++ drop p d.
Definition del_bytes (p n : nat) (d : bytes) : bytes := take p d ++ drop (p + n) d.


Definition undo_bytes (d : bytes) (o : EditOp) : bytes :=
  match type o with
  | Insert => del_bytes (pos o) (length (text o)) d
  | Erase => ins_bytes (pos o) (text o) d
  end.

(** [recorded], read on the text. *)
Inductive recorded_text : bytes -> list EditOp -> bytes -> Prop :=
  | rect_nil d : recorded_text d [] d
  | rect_insert d p s l d' :
      p <= length d ->
      recorded_text (ins_bytes p s d) l d' ->
      recorded_text d (mkOp Insert p s :: l) d'
  | rect_erase d p n l d' :
      recorded_text (del_bytes p n d) l d' ->
      recorded_text d (mkOp Erase p (take n (drop p d)) :: l) d'.

(** The payload sizes survive the cast the macOS port applies to them
    (always true in the Win32 build, true below 2^31 bytes in the port). *)
Definition counts_fit (port : Port) (l : list EditOp) : Prop :=
  Forall (λ o, Ed.erase_count port (length (text o)) = length (text o)) l.

(** Every cursor is a caret (no selection) inside the document. *)
Definition carets_ok (e : Editor) : Prop :=
  wf (pt e)
  ∧ Forall (λ c, head c = anchor c ∧ head c <= PT.length (pt e)) (cursors e).

(** ** The regular-expression engine

    [findText] and [replaceAll] delegate to [std::regex].  The engine is
    not part of the repository; the editor uses it through this interface.
    [re_compile] is the constructor [std::regex re(query, flags)], with
    [None] for the [std::regex_error] it throws on a pattern that does not
    parse; the flag is [icase]. *)
Class RegexEngine := {
  Regex : Type;
  re_compile : bytes -> bool -> option Regex;
  (** [std::regex_search]: position and length of the first match. *)
  re_search : Regex -> bytes -> option (nat * nat);
  (** [std::sregex_iterator]: all matches, position and length. *)
  re_all : Regex -> bytes -> list (nat * nat);
  (** [match.format(fmt)] for the match at the given position and length. *)
  re_format : Regex -> bytes -> nat * nat -> bytes -> bytes
}.

(** ** Win32 build ([part_002], [Source.cpp]) *)

Fixpoint UnescapeString (s : bytes) : bytes :=
  match s with
  | [] => []
  | c :: rest =>
      match rest with
      | d :: rest' =>
          if decide (c = "\"%byte) then
            (if decide (d = "n"%byte) then [NL]
             else if decide (d = "r"%byte) then [CR]
             else if decide (d = "t"%byte) then [x09]
             else if decide (d = "\"%byte) then ["\"%byte]
             else [c; d]) ++ UnescapeString rest'
          else c :: UnescapeString rest
      | [] => [c]
      end
  end.

Module Win.

Definition commitPadding (e : Editor) : Editor :=
  match ops (pendingPadding e) with
  | [] => e
  | _ =>
      with_pendingPadding (with_undo e (UM.push Win32 (pendingPadding e) (undo e)))
        (mkBatch [] [] [])
  end.

(** Working state of an intent: the editor and the operations pushed to
    the batch so far. *)
Definition Work : Type := Editor * list EditOp.

(** First loop of [insertAtCursors]: remove the selection of [cursors[idx]]. *)
Definition erase_selection (w : Work) (idx : nat) : Work :=
  let '(e, batch) := w in
  match cursors e !! idx with
  | Some c =>
      if Cur.hasSelection c then
        let s := Cur.start c in
        let l := wsub (Cur.end_ c) s in
        let d := PT.getRange (pt e) s l in
        let e := with_pt e (PT.erase Win32 s l (pt e)) in
        let cs := (λ o, mkCursor
                     (if decide (s < head o) then wsub (head o) l else head o)
                     (if decide (s < anchor o) then wsub (anchor o) l else anchor o))
                  <$> cursors e in
        (with_cursors e (<[idx := mkCursor s s]> cs), batch ++ [mkOp Erase s d])
      else w
  | None => w
  end.

(** Second loop of [insertAtCursors]: insert [text] at [cursors[idx].head]. *)
Definition insert_at (txt : bytes) (w : Work) (idx : nat) : Work :=
  let '(e, batch) := w in
  match cursors e !! idx with
  | Some c =>
      let p := head c in
      let e := with_pt e (PT.insert Win32 p txt (pt e)) in
      let l := length txt in
      let cs := (λ o, mkCursor
                   (if decide (p <= head o) then wadd (head o) l else head o)
                   (if decide (p <= anchor o) then wadd (anchor o) l else anchor o))
                <$> cursors e in
      (with_cursors e cs, batch ++ [mkOp Insert p txt])
  | None => w
  end.

(** Cursor indices by descending selection start. *)
Definition sorted_indices (cs : list Cursor) : list nat :=
  sort_by (λ a b, bool_decide
             (Cur.start (default (mkCursor 0 0) (cs !! b))
              < Cur.start (default (mkCursor 0 0) (cs !! a))))
          (seq 0 (length cs)).

Definition insertAtCursors (txt : bytes) (e : Editor) : Editor :=
  let e := commitPadding e in
  match cursors e with
  | [] => e
  | _ =>
      let before := cursors e in
      let indices := sorted_indices (cursors e) in
      let w := foldl erase_selection (e, []) indices in
      let '(e, batch) := foldl (insert_at txt) w indices in
      let e := with_undo e (UM.push Win32 (mkBatch batch before (cursors e)) (undo e)) in
      Ed.updateDirtyFlag (Ed.rebuildLineStarts e)
  end.

Definition getSelectedLineIndices (e : Editor) : list Z :=
  let lines :=
    c ← cursors e;
    let startLine := Ed.getLineIdx Win32 e (Cur.start c) in
    let endLine := Ed.getLineIdx Win32 e (Cur.end_ c) in
    let endLine :=
      if Cur.hasSelection c && bool_decide (Cur.start c < Cur.end_ c) then
        if decide (0 < Cur.end_ c) then
          if decide (byteAt (pt e) (wsub (Cur.end_ c) 1) = NL) then
            if decide (startLine < endLine)%Z then (endLine - 1)%Z else endLine
          else endLine
        else endLine
      else endLine in
    seqZ startLine (endLine - startLine + 1) in
  unique (sort_by (λ a b, bool_decide (a < b)%Z) lines).

(** [s.empty() || s.back() != '\n']. *)
Definition lacks_newline (s : bytes) : bool :=
  match last s with
  | Some c => bool_decide (c ≠ NL)
  | None => true
  end.

(** [if (!s.empty() && s.back() == '\n') s.pop_back()]. *)
Definition chop_newline (s : bytes) : bytes :=
  match last s with
  | Some c => if decide (c = NL) then removelast s else s
  | None => s
  end.

Definition shift_all (diff : Z) (cs : list Cursor) : list Cursor :=
  (λ c, mkCursor (to_size_t (Z.of_nat (head c) + diff))
                 (to_size_t (Z.of_nat (anchor c) + diff))) <$> cs.

Definition moveLines (up : bool) (e : Editor) : Editor :=
  let e := commitPadding e in
  match cursors e with
  | [] => e
  | _ =>
  let lines := getSelectedLineIndices e in
  match lines with
  | [] => e
  | front :: _ =>
  let back := List.last lines front in
  let nlines := to_int (length (lineStarts e)) in
  if up && bool_decide (front = 0)%Z then e
  else if negb up && bool_decide (back >= nlines - 1)%Z then e
  else
    let startLine := front in
    let endLine := back in
    let rangeStart := at_int (lineStarts e) startLine in
    let rangeEnd :=
      if decide (endLine + 1 < nlines)%Z then at_int (lineStarts e) (endLine + 1)
      else PT.length (pt e) in
    let textToMove := PT.getRange (pt e) rangeStart (wsub rangeEnd rangeStart) in
    let isLastLineNoNewline :=
      bool_decide (rangeEnd = PT.length (pt e)) && lacks_newline textToMove in
    let before := cursors e in
    let '(e, batch) :=
      if up then
        let targetLineIdx := (startLine - 1)%Z in
        let targetStart := at_int (lineStarts e) targetLineIdx in
        let targetEnd := rangeStart in
        let lineAbove := PT.getRange (pt e) targetStart (wsub targetEnd targetStart) in
        let diff := (- Z.of_nat (wsub rangeStart targetStart))%Z in
        let '(textToMove, lineAbove) :=
          if isLastLineNoNewline then (textToMove ++ [NL], chop_newline lineAbove)
          else (textToMove, lineAbove) in
        let deleteLen := wsub rangeEnd targetStart in
        let deletedAll := PT.getRange (pt e) targetStart deleteLen in
        let t := PT.erase Win32 targetStart deleteLen (pt e) in
        let newText := textToMove ++ lineAbove in
        let t := PT.insert Win32 targetStart newText t in
        (with_cursors (with_pt e t) (shift_all diff (cursors e)),
         [mkOp Erase targetStart deletedAll; mkOp Insert targetStart newText])
      else
        let targetLineIdx := (endLine + 1)%Z in
        let targetStart := rangeEnd in
        let targetEnd :=
          if decide (targetLineIdx + 1 < nlines)%Z
          then at_int (lineStarts e) (targetLineIdx + 1)
          else PT.length (pt e) in
        let lineBelow := PT.getRange (pt e) targetStart (wsub targetEnd targetStart) in
        let '(lineBelow, textToMove) :=
          if bool_decide (targetEnd = PT.length (pt e)) && lacks_newline lineBelow
          then (lineBelow ++ [NL], chop_newline textToMove)
          else (lineBelow, textToMove) in
        let deleteLen := wsub targetEnd rangeStart in
        let deletedAll := PT.getRange (pt e) rangeStart deleteLen in
        let t := PT.erase Win32 rangeStart deleteLen (pt e) in
        let newText := lineBelow ++ textToMove in
        let t := PT.insert Win32 rangeStart newText t in
        let diff := Z.of_nat (length lineBelow) in
        (with_cursors (with_pt e t) (shift_all diff (cursors e)),
         [mkOp Erase rangeStart deletedAll; mkOp Insert rangeStart newText]) in
    let e := with_undo e (UM.push Win32 (mkBatch batch before (cursors e)) (undo e)) in
    Ed.updateDirtyFlag (Ed.rebuildLineStarts e)
  end
  end.

(** *** Find and replace *)

Definition byte_in (lo hi c : byte) : bool :=
  (Byte.to_N lo <=? Byte.to_N c)%N && (Byte.to_N c <=? Byte.to_N hi)%N.

Definition isWordChar (c : byte) : bool :=
  byte_in "a" "z" c || byte_in "A" "Z" c || byte_in "0" "9" c
  || bool_decide (c = "_"%byte) || (128 <=? Byte.to_N c)%N.

(** The lambda [toLower] of [findText]. *)
Definition toLower (c : byte) : byte :=
  if byte_in "A" "Z" c then default c (Byte.of_N (Byte.to_N c + 32)) else c.

(** Inner [for] of the plain search: does [query] match at [p]? *)
Fixpoint match_at (t : PieceTable) (len : nat) (matchCase : bool)
    (query : bytes) (p : nat) : bool :=
  match query with
  | [] => true
  | c2 :: query' =>
      if decide (len <= p) then false
      else
        let c1 := byteAt t p in
        let '(c1, c2) := if matchCase then (c1, c2) else (toLower c1, toLower c2) in
        if decide (c1 = c2) then match_at t len matchCase query' (S p) else false
  end.

(** The match is rejected when it is followed by a joiner, a variation
    selector or a skin-tone modifier. *)
Definition joiner_follows (t : PieceTable) (len nextPos : nat) : bool :=
  if decide (nextPos < len) then
    let b1 := byteAt t nextPos in
    if bool_decide (b1 = xe2) && bool_decide (nextPos + 2 < len) then
      bool_decide (byteAt t (nextPos + 1) = x80) && bool_decide (byteAt t (nextPos + 2) = x8d)
    else if bool_decide (b1 = xef) && bool_decide (nextPos + 2 < len) then
      bool_decide (byteAt t (nextPos + 1) = xb8) && bool_decide (byteAt t (nextPos + 2) = x8f)
    else if bool_decide (b1 = xf0) && bool_decide (nextPos + 3 < len) then
      bool_decide (byteAt t (nextPos + 1) = x9f) && bool_decide (byteAt t (nextPos + 2) = x8f)
      && byte_in xbb xbf (byteAt t (nextPos + 3))
    else false
  else false.

(** [while (count < len)]: [fuel] is [len - count]. *)
Fixpoint find_loop (fuel : nat) (t : PieceTable) (len : nat) (query : bytes)
    (forward matchCase wholeWord : bool) (cur : nat) : option nat :=
  match fuel with
  | 0 => None
  | S fuel' =>
      let qLen := length query in
      let m := match_at t len matchCase query cur in
      let m :=
        if m && wholeWord then
          if bool_decide (0 < cur) && isWordChar (byteAt t (cur - 1)) then false
          else negb (bool_decide (cur + qLen < len) && isWordChar (byteAt t (cur + qLen)))
        else m in
      let m := if m then negb (joiner_follows t len (cur + qLen)) else m in
      if m then Some cur
      else
        let cur :=
          if forward then (if decide (len <= cur + 1) then 0 else cur + 1)
          else (if decide (cur = 0) then len - 1 else cur - 1) in
        find_loop fuel' t len query forward matchCase wholeWord cur
  end.

Section Search.

Context `{RegexEngine}.

(** [findText]; [None] is [std::string::npos]. *)
Definition findText (e : Editor) (startPos : nat) (query : bytes)
    (forward matchCase wholeWord isRegex : bool) : option nat :=
  match query with
  | [] => None
  | _ =>
  let len := PT.length (pt e) in
  if isRegex then
    let fullText := PT.getRange (pt e) 0 len in
    match re_compile query (negb matchCase) with
    | None => None                      (* catch (...) *)
    | Some re =>
        if forward then
          let startPos := if decide (length fullText <= startPos) then 0 else startPos in
          match re_search re (drop startPos fullText) with
          | Some (p, _) => Some (startPos + p)
          | None =>
              match re_search re fullText with
              | Some (p, _) => Some p
              | None => None
              end
          end
        else
          let limit := if decide (startPos = 0) then len else startPos in
          let all := fst <$> re_all re fullText in
          match last (filter (λ p, p < limit) all) with
          | Some bestPos => Some bestPos
          | None => last all
          end
    end
  else
    let cur :=
      if forward then (if decide (len <= startPos) then 0 else startPos)
      else (if decide (startPos = 0) then len else startPos - 1) in
    find_loop len (pt e) len query forward matchCase wholeWord cur
  end.

(** A match to replace: start, length, replacement. *)
Definition Match : Type := nat * nat * bytes.

(** [while (true)] of the plain branch of [replaceAll].  Each round moves
    [currentPos] forward by the length of the non-empty query, so
    [docLen + 1] rounds are enough; [fuel] counts them. *)
Fixpoint collect_plain (fuel : nat) (e : Editor) (docLen currentPos : nat)
    : list Match :=
  match fuel with
  | 0 => []
  | S fuel' =>
      match findText e currentPos (searchQuery e) true
              (searchMatchCase e) (searchWholeWord e) false with
      | None => []
      | Some p =>
          if decide (p < currentPos) then []
          else
            let m := (p, length (searchQuery e), replaceQuery e) in
            let currentPos := p + length (searchQuery e) in
            if decide (docLen < currentPos) then [m]
            else m :: collect_plain fuel' e docLen currentPos
      end
  end.

(** One round of the replacement loop of [replaceAll]. *)
Definition replace_one (w : Work) (m : Match) : Work :=
  let '(e, batch) := w in
  let '(start_, len_, repl) := m in
  let deleted := PT.getRange (pt e) start_ len_ in
  let t := PT.erase Win32 start_ len_ (pt e) in
  let t := PT.insert Win32 start_ repl t in
  (with_pt e t, batch ++ [mkOp Erase start_ deleted; mkOp Insert start_ repl]).

Definition replaceAll (e : Editor) : Editor :=
  match searchQuery e with
  | [] => e
  | _ =>
  let docLen := PT.length (pt e) in
  let found : option (list Match) :=
    if searchRegex e then
      let fullText := PT.getRange (pt e) 0 docLen in
      let fmt := UnescapeString (replaceQuery e) in
      match re_compile (searchQuery e) (negb (searchMatchCase e)) with
      | None => None                    (* catch (...) { return; } *)
      | Some re =>
          Some ((λ m, (fst m, snd m, re_format re fullText m fmt)) <$> re_all re fullText)
      end
    else Some (collect_plain (S docLen) e docLen 0) in
  match found with
  | None => e
  | Some [] => e
  | Some matches =>
      let e := commitPadding e in
      let before := cursors e in
      let '(e, batch) := foldl replace_one (e, []) (rev matches) in
      let e := with_cursors e [mkCursor 0 0] in
      let e := with_undo e (UM.push Win32 (mkBatch batch before (cursors e)) (undo e)) in
      Ed.updateDirtyFlag (Ed.rebuildLineStarts e)
  end
  end.

End Search.

End Win.

(** ** macOS port ([part_001]) *)

Module Mac.

Definition Work : Type := Editor * list EditOp.

(** Body of the loop of [insertAtCursors] for one element [c] of the sorted
    copy of the cursors. *)
Definition insert_one (t : bytes) (w : Work) (c : Cursor) : Work :=
  let '(e, b) := w in
  let st := Cur.start c in
  let l := wsub (Cur.end_ c) st in
  let '(e, b) :=
    if decide (0 < l) then
      let b := b ++ [mkOp Erase st (PT.getRange (pt e) st l)] in
      let e := with_pt e (PT.erase MacOS st l (pt e)) in
      let cs := (λ o, mkCursor
                   (if decide (st < head o) then wsub (head o) l else head o)
                   (if decide (st < anchor o) then wsub (anchor o) l else anchor o))
                <$> cursors e in
      (with_cursors e cs, b)
    else (e, b) in
  let e := with_pt e (PT.insert MacOS st t (pt e)) in
  let b := b ++ [mkOp Insert st t] in
  let cs := (λ o, mkCursor
               (if decide (st <= head o) then wadd (head o) (length t) else head o)
               (if decide (st <= anchor o) then wadd (anchor o) (length t) else anchor o))
            <$> cursors e in
  (with_cursors e cs, b).

Definition insertAtCursors (t : bytes) (e : Editor) : Editor :=
  let before := cursors e in
  let sorted :=
    sort_by (λ a b, bool_decide (Cur.start b < Cur.start a)) (cursors e) in
  let '(e, b) := foldl (insert_one t) (e, []) sorted in
  let e := with_undo e (UM.push MacOS (mkBatch b before (cursors e)) (undo e)) in
  Ed.updateDirtyFlag (Ed.rebuildLineStarts e).

Definition getUniqueLineIndices (e : Editor) : list Z :=
  let lines :=
    c ← cursors e;
    if Cur.hasSelection c then
      let lStart := Ed.getLineIdx MacOS e (Cur.start c) in
      let lEnd := Ed.getLineIdx MacOS e (Cur.end_ c) in
      let lEnd :=
        if bool_decide (lStart < lEnd)%Z
           && bool_decide (Cur.end_ c = at_int (lineStarts e) lEnd)
        then (lEnd - 1)%Z else lEnd in
      seqZ lStart (lEnd - lStart + 1)
    else [Ed.getLineIdx MacOS e (head c)] in
  unique (sort_by (λ a b, bool_decide (a < b)%Z) lines).

(** Runs of consecutive line numbers, as [(first, last)]. *)
Fixpoint group_lines (start_ prev : Z) (l : list Z) : list (Z * Z) :=
  match l with
  | [] => [(start_, prev)]
  | x :: l' =>
      if decide (x ≠ prev + 1)%Z then (start_, prev) :: group_lines x x l'
      else group_lines start_ x l'
  end.

Definition last_is (c : byte) (s : bytes) : bool :=
  match last s with
  | Some d => bool_decide (d = c)
  | None => false
  end.

(** Does an end of a cursor belong to the moving block [posStart, posEnd)? *)
Definition in_block (c : Cursor) (x posStart posEnd : nat) (eof : bool) : bool :=
  (bool_decide (posStart <= x) && bool_decide (x < posEnd))
  || (bool_decide (x = posEnd) && Cur.hasSelection c && bool_decide (Cur.end_ c = x))
  || (eof && bool_decide (x = posEnd)).

Definition line_end (e : Editor) (nlines : Z) (line : Z) : nat :=
  if decide (line + 1 < nlines)%Z then at_int (lineStarts e) (line + 1)
  else PT.length (pt e).

Definition move_group_up (w : Work) (g : Z * Z) : Work :=
  let '(e, b) := w in
  let '(gStart, gEnd) := g in
  let nlines := to_int (length (lineStarts e)) in
  let targetLine := (gStart - 1)%Z in
  let posTarget := at_int (lineStarts e) targetLine in
  let posStart := at_int (lineStarts e) gStart in
  let posEnd := line_end e nlines gEnd in
  let movingText := PT.getRange (pt e) posStart (wsub posEnd posStart) in
  let moveLen := length movingText in
  let prevLineLen := wsub posStart posTarget in
  let isLastLine := bool_decide (posEnd = PT.length (pt e)) in
  let noNewline := bool_decide (0 < moveLen) && negb (last_is NL movingText) in
  let targetHasNewline :=
    if decide (0 < prevLineLen)
    then bool_decide (byteAt (pt e) (wsub posStart 1) = NL) else false in
  let t := PT.erase MacOS posStart moveLen (pt e) in
  let b := b ++ [mkOp Erase posStart movingText] in
  let '(t, b, movingText, moveLen) :=
    if isLastLine && noNewline && targetHasNewline then
      (PT.erase MacOS (wsub posStart 1) 1 t,
       b ++ [mkOp Erase (wsub posStart 1) [NL]],
       movingText ++ [NL], wadd moveLen 1)
    else (t, b, movingText, moveLen) in
  let t := PT.insert MacOS posTarget movingText t in
  let b := b ++ [mkOp Insert posTarget movingText] in
  let move (c : Cursor) (x : nat) : nat :=
    if in_block c x posStart posEnd isLastLine then
      (if decide (prevLineLen <= x) then wsub x prevLineLen else 0)
    else if bool_decide (posTarget <= x) && bool_decide (x < posStart)
    then wadd x moveLen else x in
  let cs := (λ c, mkCursor (move c (head c)) (move c (anchor c))) <$> cursors e in
  (Ed.rebuildLineStarts (with_cursors (with_pt e t) cs), b).

Definition move_group_down (w : Work) (g : Z * Z) : Work :=
  let '(e, b) := w in
  let '(gStart, gEnd) := g in
  let nlines := to_int (length (lineStarts e)) in
  let swapLine := (gEnd + 1)%Z in
  let posStart := at_int (lineStarts e) gStart in
  let posEnd := line_end e nlines gEnd in
  let posSwapEnd := line_end e nlines swapLine in
  let movingText := PT.getRange (pt e) posStart (wsub posEnd posStart) in
  let moveLen := length movingText in
  let swapLineLen := wsub posSwapEnd posEnd in
  let movingHasNewline := bool_decide (0 < moveLen) && last_is NL movingText in
  let targetIsEOF := bool_decide (posSwapEnd = PT.length (pt e)) in
  let targetNoNewline :=
    if decide (0 < swapLineLen)
    then bool_decide (byteAt (pt e) (wsub posSwapEnd 1) ≠ NL) else false in
  let t := PT.erase MacOS posStart moveLen (pt e) in
  let b := b ++ [mkOp Erase posStart movingText] in
  let insertPos := wadd posStart swapLineLen in
  let '(t, b, swapLineLen, insertPos, movingText, moveLen) :=
    if movingHasNewline && targetIsEOF
       && (targetNoNewline || bool_decide (swapLineLen = 0)) then
      (PT.insert MacOS insertPos [NL] t,
       b ++ [mkOp Insert insertPos [NL]],
       wadd swapLineLen 1, wadd insertPos 1, removelast movingText, wsub moveLen 1)
    else (t, b, swapLineLen, insertPos, movingText, moveLen) in
  let t := PT.insert MacOS insertPos movingText t in
  let b := b ++ [mkOp Insert insertPos movingText] in
  let move (c : Cursor) (x : nat) : nat :=
    if in_block c x posStart posEnd false then wadd x swapLineLen
    else if bool_decide (posEnd <= x) && bool_decide (x < posSwapEnd)
    then wsub x moveLen else x in
  let cs := (λ c, mkCursor (move c (head c)) (move c (anchor c))) <$> cursors e in
  (Ed.rebuildLineStarts (with_cursors (with_pt e t) cs), b).

Definition moveLines (up : bool) (e : Editor) : Editor :=
  (* 1. the document is made to end with a newline; this insert is not
        pushed to any batch *)
  let len := PT.length (pt e) in
  let e :=
    if decide (0 < len) then
      if decide (byteAt (pt e) (wsub len 1) ≠ NL)
      then Ed.rebuildLineStarts (with_pt e (PT.insert MacOS len [NL] (pt e)))
      else e
    else e in
  let lines := getUniqueLineIndices e in
  match lines with
  | [] => e
  | front :: rest =>
  let back := List.last lines front in
  if up && bool_decide (front = 0)%Z then e
  else if negb up
          && bool_decide (back >= to_int (length (lineStarts e)) - 1)%Z then e
  else
    let before := cursors e in
    let groups := group_lines front front rest in
    let '(e, b) :=
      if up then foldl move_group_up (e, []) groups
      else foldl move_group_down (e, []) (rev groups) in
    let e := with_undo e (UM.push MacOS (mkBatch b before (cursors e)) (undo e)) in
    Ed.updateDirtyFlag e
  end.

End Mac.

(** ** Scenarios of the specification *)

Definition doc_abc : bytes := ["a"; NL; "b"; NL; "c"; NL]%byte.
Definition doc_Xabc : bytes := ["X"; "a"; NL; "X"; "b"; NL; "X"; "c"; NL]%byte.

(** S2: "a\nb\nc\n" with collapsed cursors at 0, 2 and 4. *)
Definition s2_editor : Editor :=
  with_cursors (Ed.init (PT.initFromFile doc_abc (length doc_abc)))
    [mkCursor 0 0; mkCursor 2 2; mkCursor 4 4].

Definition doc_AB : bytes := ["A"; NL; "B"]%byte.

(** S5: "A\nB" with the cursor on line 0, at offset [p] (0 or 1). *)
Definition s5_editor (p : nat) : Editor :=
  with_cursors (Ed.init (PT.initFromFile doc_AB (length doc_AB))) [mkCursor p p].

(** A toy engine used to exercise the interface: it rejects every pattern
    that contains ["("] and finds nothing otherwise. *)
Definition paren_engine : RegexEngine :=
  {| Regex := bytes;
     re_compile := λ q _, if decide ("("%byte ∈ q) then None else Some q;
     re_search := λ _ _, None;
     re_all := λ _ _, [];
     re_format := λ _ _ _ fmt, fmt |}.

(** The log after one edit, a save and an undo: the save point (1) lies
    above the undo stack (empty). *)
Definition log_saved_then_undone (b : EditBatch) : UndoManager :=
  log_step MacOS (UM.markSaved (UM.push MacOS b (mkUM [] [] 0))) StepUndo.

(** The batch [insertAtCursors("X")] pushes in scenario S2. *)
Definition s2_batch : EditBatch :=
  mkBatch [mkOp Insert 4 ["X"%byte]; mkOp Insert 2 ["X"%byte]; mkOp Insert 0 ["X"%byte]]
    [mkCursor 0 0; mkCursor 2 2; mkCursor 4 4]
    [mkCursor 1 1; mkCursor 4 4; mkCursor 7 7].

Definition doc_BA : bytes := ["B"; NL; "A"]%byte.
Definition doc_BA_nl : bytes := ["B"; NL; "A"; NL]%byte.

(** An editor whose search fields hold the pattern ["("] in regex mode. *)
Definition s9_editor : Editor :=
  mkEditor (PT.initFromFile doc_abc (length doc_abc)) (mkUM [s2_batch] [] 0)
    [mkCursor 2 4] [0; 2; 4; 6] true (mkBatch [] [] [])
    ["("%byte] ["y"%byte] false false true.

(** What a successful [saveFile] does to the log and the dirty flag. *)
Definition mark_saved (e : Editor) : Editor :=
  with_isDirty (with_undo e (UM.markSaved (undo e))) false.

(** macOS port: type "a" into an empty document, save, undo, type "b". *)
Definition mac_saved_text : Editor :=
  mark_saved (Mac.insertAtCursors ["a"%byte] (Ed.init PT.initEmpty)).
Definition mac_retyped : Editor :=
  Mac.insertAtCursors ["b"%byte] (Ed.performUndo MacOS mac_saved_text).

(** ** Further functions of the Win32 build ([part_002], [Source.cpp]) *)

Module WinMore.

(** Body of the loop of [mergeCursors]: [curr] either widens the last
    merged cursor or is appended. *)
Definition merge_step (merged : list Cursor) (curr : Cursor) : list Cursor :=
  match last merged with
  | Some prev =>
      if decide (Cur.start curr <= Cur.end_ prev) then
        let newStart := min (Cur.start prev) (Cur.start curr) in
        let newEnd := max (Cur.end_ prev) (Cur.end_ curr) in
        let prevForward := bool_decide (anchor prev <= head prev) in
        removelast merged
          ++ [mkCursor (if prevForward then newEnd else newStart)
                       (if prevForward then newStart else newEnd)]
      else merged ++ [curr]
  | None => merged ++ [curr]
  end.

Definition mergeCursors (e : Editor) : Editor :=
  match sort_by (λ a b, bool_decide (head a < head b)) (cursors e) with
  | [] => e
  | c0 :: rest => with_cursors e (foldl merge_step [c0] rest)
  end.

(** Does byte [p] stop the scan of [selectWordAt]? *)
Definition word_break (targetType : bool) (p : byte) : bool :=
  negb (Bool.eqb (Win.isWordChar p) targetType) || bool_decide (p = NL).

(** [while (start > 0) { p = charAt(start - 1); if (...) break; start--; }] *)
Fixpoint word_start (t : PieceTable) (targetType : bool) (start_ : nat) : nat :=
  match start_ with
  | 0 => 0
  | S s' =>
      if word_break targetType (byteAt t s') then start_
      else word_start t targetType s'
  end.

(** [while (end < len) { p = charAt(end); if (...) break; end++; }];
    [fuel] is [len - end]. *)
Fixpoint word_end (fuel : nat) (t : PieceTable) (targetType : bool)
    (len end_ : nat) : nat :=
  match fuel with
  | 0 => end_
  | S fuel' =>
      if decide (end_ < len) then
        if word_break targetType (byteAt t end_) then end_
        else word_end fuel' t targetType len (S end_)
      else end_
  end.

Definition selectWordAt (p : nat) (e : Editor) : Editor :=
  if decide (PT.length (pt e) <= p) then with_cursors e [mkCursor p p]
  else
    let c := byteAt (pt e) p in
    let targetType := Win.isWordChar c in
    if decide (c = NL) then with_cursors e [mkCursor (p + 1) p]
    else
      let len := PT.length (pt e) in
      with_cursors e
        [mkCursor (word_end (len - p) (pt e) targetType len p)
                  (word_start (pt e) targetType p)].

(** [performDragMove]; the three drag fields of the editor are passed as
    arguments. *)
Definition performDragMove (dragMoveSourceStart dragMoveSourceEnd dragMoveDestPos : nat)
    (e : Editor) : Editor :=
  if decide (dragMoveSourceStart <= dragMoveDestPos
             ∧ dragMoveDestPos <= dragMoveSourceEnd) then e
  else
    let txt := PT.getRange (pt e) dragMoveSourceStart
                 (wsub dragMoveSourceEnd dragMoveSourceStart) in
    let before := cursors e in
    let t := PT.erase Win32 dragMoveSourceStart (length txt) (pt e) in
    let insertPos :=
      if decide (dragMoveSourceStart < dragMoveDestPos)
      then wsub dragMoveDestPos (length txt) else dragMoveDestPos in
    let t := PT.insert Win32 insertPos txt t in
    let after := [mkCursor (wadd insertPos (length txt)) insertPos] in
    let batch :=
      mkBatch [mkOp Erase dragMoveSourceStart txt; mkOp Insert insertPos txt]
        before after in
    let e := with_cursors (with_pt e t) after in
    let e := with_undo e (UM.push Win32 batch (undo e)) in
    Ed.updateDirtyFlag (Ed.rebuildLineStarts e).

(** One round of the loop of [rollbackPadding]. *)
Definition rollback_op (e : Editor) (op : EditOp) : Editor :=
  match type op with
  | Insert =>
      let len := length (text op) in
      let adj (x : nat) : nat :=
        if decide (pos op < x) then
          if decide (x < wadd (pos op) len) then pos op else wsub x len
        else x in
      with_cursors (with_pt e (PT.erase Win32 (pos op) len (pt e)))
        ((λ c, mkCursor (adj (head c)) (adj (anchor c))) <$> cursors e)
  | Erase => e
  end.

Definition rollbackPadding (e : Editor) : Editor :=
  match ops (pendingPadding e) with
  | [] => e
  | _ =>
      let e' := foldl rollback_op e (rev (ops (pendingPadding e))) in
      Ed.rebuildLineStarts (with_pendingPadding e' (mkBatch [] [] []))
  end.

(** [doInsert]: one caret at [p], then [insertAtCursors]. *)
Definition doInsert (p : nat) (s : bytes) (e : Editor) : Editor :=
  Win.insertAtCursors s (with_cursors e [mkCursor p p]).

End WinMore.

(** ** Further functions of the macOS port ([part_001]) *)

Inductive Encoding :=
  ENC_UTF8_NOBOM | ENC_UTF8_BOM | ENC_UTF16LE | ENC_UTF16BE | ENC_ANSI.

#[global] Instance Encoding_eq_dec : EqDecision Encoding.
Proof. solve_decision. Defined.


Module MacMore.


(** [c & m] on the byte value. *)
Definition band (c : byte) (m : N) : N := N.land (Byte.to_N c) m.

(** Length of the UTF-8 sequence a lead byte announces. *)
Definition seq_len (c : byte) : nat :=
  if (band c 128 =? 0)%N then 1
  else if (band c 224 =? 192)%N then 2
  else if (band c 240 =? 224)%N then 3
  else if (band c 248 =? 240)%N then 4
  else 1.

(** [while (p > 0 && (charAt(p) & 0xC0) == 0x80) p--;] *)
Fixpoint skip_continuation (t : PieceTable) (p : nat) : nat :=
  match p with
  | 0 => 0
  | S p' =>
      if (band (byteAt t p) 192 =? 128)%N then skip_continuation t p' else p
  end.

Definition moveCaretVisual (t : PieceTable) (p : nat) (f : bool) : nat :=
  let len := PT.length t in
  if f then
    if decide (len <= p) then len
    else
      let c := byteAt t p in
      let sl := seq_len c in
      let sl :=
        if decide (c = CR) then
          if decide (p + 1 < len) then
            if decide (byteAt t (p + 1) = NL) then 2 else sl
          else sl
        else sl in
      min len (p + sl)
  else
    match p with
    | 0 => 0
    | S p' =>
        let q := skip_continuation t p' in
        match q with
        | 0 => 0
        | S q' =>
            if decide (byteAt t q' = CR) then
              if decide (byteAt t q = NL) then q' else q
            else q
        end
    end.

(** Body of the loop of [deleteForwardAtCursors]; the flag is [changed]. *)
Definition delete_forward_one (w : Editor * list EditOp * bool) (idx : nat)
    : Editor * list EditOp * bool :=
  let '(e, b, changed) := w in
  match cursors e !! idx with
  | Some c =>
      let st := Cur.start c in
      let len :=
        if Cur.hasSelection c then wsub (Cur.end_ c) st
        else wsub (moveCaretVisual (pt e) st true) st in
      if decide (0 < len) then
        let b := b ++ [mkOp Erase st (PT.getRange (pt e) st len)] in
        let t := PT.erase MacOS st len (pt e) in
        let adj (x : nat) : nat :=
          if decide (wadd st len < x) then wsub x len
          else if decide (st < x) then st else x in
        let cs := (λ o, mkCursor (adj (head o)) (adj (anchor o))) <$> cursors e in
        (with_cursors (with_pt e t) (<[idx := mkCursor st st]> cs), b, true)
      else w
  | None => w
  end.

Definition deleteForwardAtCursors (e : Editor) : Editor :=
  match cursors e with
  | [] => e
  | _ =>
      let before := cursors e in
      let indices := Win.sorted_indices (cursors e) in
      let '(e', b, changed) := foldl delete_forward_one (e, [], false) indices in
      if changed then
        let e' := with_undo e' (UM.push MacOS (mkBatch b before (cursors e')) (undo e')) in
        Ed.updateDirtyFlag (Ed.rebuildLineStarts e')
      else e'
  end.

(** Inner [for] of [findText]: does [query] match at [cur]? *)
Fixpoint match_at (t : PieceTable) (len : nat) (query : bytes) (cur : nat) : bool :=
  match query with
  | [] => true
  | c :: query' =>
      if decide (len <= cur) then false
      else if decide (byteAt t cur = c) then match_at t len query' (S cur)
      else false
  end.

(** [for (count = 0; count < len; ++count)]: [fuel] is [len - count]. *)
Fixpoint find_loop (fuel : nat) (t : PieceTable) (len : nat) (query : bytes)
    (forward : bool) (cur : nat) : option nat :=
  match fuel with
  | 0 => None
  | S fuel' =>
      if match_at t len query cur then Some cur
      else
        let cur :=
          if forward then (if decide (len <= cur + 1) then 0 else cur + 1)
          else (if decide (cur = 0) then len - 1 else cur - 1) in
        find_loop fuel' t len query forward cur
  end.

(** [findText]; [None] is [std::string::npos]. *)
Definition findText (e : Editor) (startPos : nat) (query : bytes) (forward : bool)
    : option nat :=
  match query with
  | [] => None
  | _ => find_loop (PT.length (pt e)) (pt e) (PT.length (pt e)) query forward startPos
  end.

End MacMore.

(** ** Values used to exercise the additional functions *)

Definition abc_table : PieceTable := PT.initFromFile doc_abc (length doc_abc).

(** "ab cd": a word, a space, a word. *)
Definition doc_words : bytes := ["a"; "b"; " "; "c"; "d"]%byte.
Definition words_editor : Editor :=
  Ed.init (PT.initFromFile doc_words (length doc_words)).

(** The log after one edit. *)
Definition log_one_edit : UndoManager := UM.push Win32 s2_batch (mkUM [] [] 0).

(** An editor with two spaces of pending padding at offset 1 of "a\nb\nc\n". *)
Definition padded_editor : Editor :=
  with_pendingPadding
    (with_pt s2_editor (PT.insert Win32 1 [SPACE; SPACE] (pt s2_editor)))
    (mkBatch [mkOp Insert 1 [SPACE; SPACE]] (cursors s2_editor) []).

(** Every pending operation is an [Insert]. *)
Definition all_inserts (l : list EditOp) : Prop :=
  Forall (λ o, type o = Insert) l.

(** A cursor range [m] covers the range of [c]. *)
Definition covers (m c : Cursor) : Prop :=
  Cur.start m <= Cur.start c ∧ Cur.end_ c <= Cur.end_ m.

(** Some cursor of [l] covers [c]. *)
Definition covered (l : list Cursor) (c : Cursor) : Prop :=
  ∃ m, m ∈ l ∧ covers m c.

(** Non-decreasing heads. *)
Fixpoint heads_sorted (l : list Cursor) : Prop :=
  match l with
  | [] => True
  | a :: l' => Forall (λ b, head a <= head b) l' ∧ heads_sorted l'
  end.

(** Every cursor is a caret. *)
Definition all_carets (cs : list Cursor) : Prop :=
  Forall (λ c, head c = anchor c) cs.

(** The query occurs in the text at offset [p]. *)
Definition occurs_at (d query : bytes) (p : nat) : Prop :=
  take (length query) (drop p d) = query.

(** Equality of two texts as the plain search compares them: byte by byte,
    through [toLower] when the search ignores case. *)
Definition same_text (matchCase : bool) (a b : bytes) : Prop :=
  if matchCase then a = b else Win.toLower <$> a = Win.toLower <$> b.

(** A strictly ascending list of line numbers. *)
Fixpoint ascending (l : list Z) : Prop :=
  match l with
  | [] => True
  | a :: l' => Forall (λ b, (a < b)%Z) l' ∧ ascending l'
  end.

(** A non-decreasing list of line numbers. *)
Fixpoint sorted_le (l : list Z) : Prop :=
  match l with
  | [] => True
  | a :: l' => Forall (λ b, (a <= b)%Z) l' ∧ sorted_le l'
  end.

(** The line numbers a list of groups [(first, last)] stands for. *)
Definition expand_groups (gs : list (Z * Z)) : list Z :=
  g ← gs; seqZ g.1 (g.2 - g.1 + 1).

(** "a\r\nb": a line that ends with CR LF. *)
Definition doc_crlf : bytes := ["a"; CR; NL; "b"]%byte.
Definition crlf_table : PieceTable := PT.initFromFile doc_crlf (length doc_crlf).
(** * Properties *)

(** ** Piece table: text semantics of the operations *)

Section PieceLemmas.

Implicit Types (pt : PieceTable) (p : Piece) (ps : list Piece).

Lemma sum_len_app ps1 ps2 : sum_len (ps1 ++ ps2) = sum_len ps1 + sum_len ps2.
Proof. apply sum_list_with_app. Qed.

Lemma sum_len_cons p ps : sum_len (p :: ps) = len p + sum_len ps.
Proof. reflexivity. Qed.

Lemma bytes_of_app pt ps1 ps2 :
  bytes_of pt (ps1 ++ ps2) = bytes_of pt ps1 ++ bytes_of pt ps2.
Proof.
  induction ps1 as [|p ps1 IH]; simpl; [done|].
  by rewrite IH, (assoc_L (++)).
Qed.

Lemma length_slice b s n : s + n <= length b -> length (slice b s n) = n.
Proof. intros H. unfold slice. rewrite length_take, length_drop. lia. Qed.

Lemma slice_add b s n m :
  slice b s (n + m) = slice b s n ++ slice b (s + n) m.
Proof.
  unfold slice. rewrite <- take_take_drop. f_equal.
  by rewrite drop_drop.
Qed.

Lemma length_piece_bytes pt p : piece_ok pt p -> length (piece_bytes pt p) = len p.
Proof. intros [_ H]. by apply length_slice. Qed.

Lemma length_bytes_of pt ps :
  Forall (piece_ok pt) ps -> length (bytes_of pt ps) = sum_len ps.
Proof.
  induction 1 as [|p ps Hp _ IH]; simpl; [done|].
  rewrite length_app, IH, length_piece_bytes by done. reflexivity.
Qed.

(** Splitting a piece splits its bytes. *)
Lemma piece_bytes_split pt p k :
  k <= len p ->
  piece_bytes pt p =
    piece_bytes pt (mkPiece (isOriginal p) (start p) k) ++
    piece_bytes pt (mkPiece (isOriginal p) (start p + k) (len p - k)).
Proof.
  intros Hk. unfold piece_bytes, PT.buffer; simpl.
  rewrite <- slice_add. f_equal. lia.
Qed.

Lemma piece_ok_split_l pt p k :
  piece_ok pt p -> 0 < k -> k <= len p ->
  piece_ok pt (mkPiece (isOriginal p) (start p) k).
Proof. unfold piece_ok, PT.buffer; simpl. intros [? ?] ? ?. lia. Qed.

Lemma piece_ok_split_r pt p k :
  piece_ok pt p -> k < len p ->
  piece_ok pt (mkPiece (isOriginal p) (start p + k) (len p - k)).
Proof. unfold piece_ok, PT.buffer; simpl. intros [? ?] ?. lia. Qed.

(** Cutting the text at a piece boundary. *)
Lemma take_bytes_of pt ps i :
  Forall (piece_ok pt) ps ->
  take (sum_len (take i ps)) (bytes_of pt ps) = bytes_of pt (take i ps).
Proof.
  intros Hok. rewrite <- (take_drop i ps) at 2. rewrite bytes_of_app.
  apply take_app_length'. symmetry. apply length_bytes_of.
  by apply Forall_take.
Qed.

Lemma drop_bytes_of pt ps i :
  Forall (piece_ok pt) ps ->
  drop (sum_len (take i ps)) (bytes_of pt ps) = bytes_of pt (drop i ps).
Proof.
  intros Hok. rewrite <- (take_drop i ps) at 2. rewrite bytes_of_app.
  apply drop_app_length'. symmetry. apply length_bytes_of.
  by apply Forall_take.
Qed.

Lemma bytes_of_vec_insert pt ps i p :
  bytes_of pt (vec_insert i p ps) =
  bytes_of pt (take i ps) ++ piece_bytes pt p ++ bytes_of pt (drop i ps).
Proof. unfold vec_insert. by rewrite bytes_of_app. Qed.

Lemma Forall_vec_insert {A} (P : A -> Prop) i x (l : list A) :
  Forall P l -> P x -> Forall P (vec_insert i x l).
Proof.
  intros Hl Hx. unfold vec_insert. apply Forall_app. split.
  - by apply Forall_take.
  - constructor; [done|]. by apply Forall_drop.
Qed.

Lemma sum_len_vec_insert ps i p :
  sum_len (vec_insert i p ps) = len p + sum_len ps.
Proof.
  unfold vec_insert. rewrite sum_len_app, sum_len_cons.
  rewrite <- (take_drop i ps) at 3. rewrite sum_len_app. lia.
Qed.

(** [split_at] keeps text, total length and well-formedness. *)
Lemma split_at_eq ps idx k p :
  ps !! idx = Some p ->
  PT.split_at idx k p ps =
    take idx ps ++ mkPiece (isOriginal p) (start p) k
      :: mkPiece (isOriginal p) (start p + k) (len p - k) :: drop (S idx) ps.
Proof.
  intros Hp. unfold PT.split_at, vec_insert.
  pose proof (lookup_lt_Some _ _ _ Hp) as Hlt.
  rewrite insert_take_drop by done.
  assert (Hl : length (take idx ps) = idx) by (rewrite length_take; lia).
  rewrite take_app, drop_app, Hl.
  replace (S idx - idx) with 1 by lia.
  rewrite (take_ge (take idx ps)), (drop_ge (take idx ps)) by lia.
  simpl. rewrite take_0, drop_0. by rewrite <- (assoc_L (++)).
Qed.

End PieceLemmas.

Section Coalesce.

Implicit Types (pt : PieceTable) (p : Piece) (ps : list Piece).

Lemma lookup_pair_split {A} (l : list A) i a b :
  l !! i = Some a -> l !! S i = Some b ->
  ∃ l1 l2, l = l1 ++ a :: b :: l2 ∧ length l1 = i.
Proof.
  intros Ha Hb. exists (take i l), (drop (S (S i)) l). split.
  - rewrite <- (take_drop_middle l i a) at 1 by done. f_equal. f_equal.
    rewrite <- (take_drop_middle (drop (S i) l) 0 b).
    + simpl. by rewrite drop_drop, Nat.add_1_r.
    + by rewrite lookup_drop, Nat.add_0_r.
  - rewrite length_take. apply lookup_lt_Some in Ha. lia.
Qed.

Lemma try_merge_ok pt ps i ps' :
  Forall (piece_ok pt) ps -> PT.try_merge i ps = Some ps' ->
  bytes_of pt ps' = bytes_of pt ps ∧ Forall (piece_ok pt) ps'.
Proof.
  intros Hok. unfold PT.try_merge.
  destruct (ps !! i) as [a|] eqn:Ha; [|done].
  destruct (ps !! S i) as [b|] eqn:Hb; [|done].
  destruct (isOriginal a) eqn:Hoa; simpl; [done|].
  destruct (isOriginal b) eqn:Hob; simpl; [done|].
  case_bool_decide as Hadj; [|done].
  intros [= <-].
  destruct (lookup_pair_split ps i a b Ha Hb) as (l1 & l2 & -> & Hl1).
  rewrite insert_app_r_alt by lia.
  replace (i - length l1) with 0 by lia. simpl.
  set (m := mkPiece false (start a) (len a + len b)).
  replace (S i) with (length (l1 ++ [m])) by (rewrite length_app; simpl; lia).
  change (l1 ++ m :: b :: l2) with (l1 ++ [m] ++ b :: l2).
  rewrite (assoc_L (++) l1 [m]), delete_middle.
  apply Forall_app in Hok as [Hl1ok Hrest].
  apply Forall_cons in Hrest as [Haok Hrest].
  apply Forall_cons in Hrest as [Hbok Hl2ok].
  split.
  - rewrite <- (assoc_L (++) l1), !bytes_of_app. f_equal. simpl.
    rewrite (assoc_L (++) (piece_bytes pt a)). f_equal.
    unfold piece_bytes, PT.buffer; simpl.
    by rewrite Hoa, Hob, slice_add, Hadj, (right_id_L [] (++)).
  - rewrite !Forall_app. split_and!; [done| |done].
    constructor; [|done].
    destruct Haok as [? Ha2], Hbok as [? Hb2].
    unfold piece_ok, PT.buffer in *; simpl in *.
    rewrite Hoa in *. rewrite Hob in *. lia.
Qed.

Lemma coalesceAround_ok pt ps idx :
  Forall (piece_ok pt) ps ->
  bytes_of pt (PT.coalesceAround idx ps) = bytes_of pt ps ∧
  Forall (piece_ok pt) (PT.coalesceAround idx ps).
Proof.
  intros Hok. unfold PT.coalesceAround.
  destruct ps as [|p0 ps0]; [done|].
  set (ps := p0 :: ps0) in *.
  set (i := if decide (length ps <= idx) then length ps - 1 else idx).
  assert (Hstep1 : ∃ ps1 i1,
    (if decide (0 < i) then
       match PT.try_merge (i - 1) ps with
       | Some ps' => (ps', i - 1)
       | None => (ps, i)
       end
     else (ps, i)) = (ps1, i1) ∧
    bytes_of pt ps1 = bytes_of pt ps ∧ Forall (piece_ok pt) ps1).
  { destruct (decide (0 < i)); [|by eauto].
    destruct (PT.try_merge (i - 1) ps) as [ps'|] eqn:Hm; [|by eauto].
    destruct (try_merge_ok pt ps _ ps' Hok Hm). by eauto. }
  destruct Hstep1 as (ps1 & i1 & -> & Hb1 & Hok1).
  destruct (decide (i1 + 1 < length ps1)); [|done].
  destruct (PT.try_merge i1 ps1) as [ps'|] eqn:Hm; [|done].
  destruct (try_merge_ok pt ps1 _ ps' Hok1 Hm) as [Hb2 Hok2].
  split; [congruence|done].
Qed.

Lemma finish_ok port pt ps idx :
  Forall (piece_ok pt) ps ->
  bytes_of pt (PT.finish port idx ps) = bytes_of pt ps ∧
  Forall (piece_ok pt) (PT.finish port idx ps).
Proof.
  intros Hok. destruct port; simpl; [|done]. by apply coalesceAround_ok.
Qed.

End Coalesce.

Section GetRange.

Implicit Types (pt : PieceTable) (p : Piece) (ps : list Piece).

Lemma slice_piece pt p k n :
  k + n <= len p ->
  slice (PT.buffer pt p) (start p + k) n = take n (drop k (piece_bytes pt p)).
Proof.
  intros Hkn. unfold piece_bytes, slice.
  replace (len p) with (k + (len p - k)) by lia.
  rewrite <- take_drop_commute, take_take, drop_drop.
  f_equal. lia.
Qed.

Lemma getRange_loop_spec pt ps :
  Forall (piece_ok pt) ps ->
  ∀ pos count cur out,
    length out <= count -> (out = [] ∨ pos <= cur) ->
    PT.getRange_loop pt ps pos count cur out =
    out ++ take (count - length out) (drop (pos - cur) (bytes_of pt ps)).
Proof.
  induction 1 as [|p ps Hp Hps IH]; intros pos count cur out Hout Hst; simpl.
  { by rewrite drop_nil, take_nil, (right_id_L [] (++)). }
  pose proof (length_piece_bytes pt p Hp) as Hlen.
  destruct Hp as [Hpos Hin].
  destruct (decide (cur + len p <= pos)) as [Hskip|Hhit].
  - rewrite IH; [|done|]; last first.
    { destruct Hst as [->|?]; [by left|lia]. }
    rewrite drop_app_ge by lia. do 3 f_equal. lia.
  - replace (if decide (cur < pos) then pos - cur else 0) with (pos - cur)
      by (destruct (decide (cur < pos)); lia).
    set (ls := pos - cur).
    set (tk := min (len p - ls) (count - length out)).
    assert (Hsl : slice (PT.buffer pt p) (start p + ls) tk
                  = take tk (drop ls (piece_bytes pt p))).
    { apply slice_piece. unfold tk, ls. lia. }
    assert (Hsllen : length (slice (PT.buffer pt p) (start p + ls) tk) = tk).
    { apply length_slice. unfold tk, ls. lia. }
    rewrite drop_app_le by lia.
    destruct (decide (tk = 0)) as [Htk|Htk].
    { replace (count - length out) with 0 by (unfold tk, ls in *; lia).
      by rewrite take_0, (right_id_L [] (++)). }
    rewrite length_app, Hsllen.
    destruct (decide (count <= length out + tk)) as [Hfull|Hmore].
    + rewrite Hsl. f_equal.
      replace (count - length out) with tk by (unfold tk, ls in *; lia).
      rewrite take_app_le; [done|]. rewrite length_drop. unfold tk, ls. lia.
    + rewrite IH; [| rewrite length_app, Hsllen; lia | right; lia].
      rewrite length_app, Hsllen, Hsl.
      replace (pos - (cur + len p)) with 0 by lia. rewrite drop_0.
      rewrite take_app, length_drop, Hlen.
      assert (tk = len p - ls) as Htk' by (unfold tk, ls in *; lia).
      rewrite (take_ge (drop ls (piece_bytes pt p)) tk)
        by (rewrite length_drop; lia).
      rewrite (take_ge (drop ls (piece_bytes pt p)) (count - length out))
        by (rewrite length_drop; lia).
      rewrite <- (assoc_L (++)). do 3 f_equal. lia.
Qed.

Lemma getRange_spec pt pos count :
  wf pt -> PT.getRange pt pos count = take count (drop pos (bytes_of pt (pieces pt))).
Proof.
  intros Hwf. unfold PT.getRange.
  rewrite (getRange_loop_spec pt _ Hwf) by (simpl; first [lia | by left]).
  simpl. by rewrite !Nat.sub_0_r.
Qed.

Lemma foldl_len ps acc : foldl (λ s p, s + len p) acc ps = acc + sum_len ps.
Proof.
  revert acc. induction ps as [|p ps IH]; intros acc.
  - unfold sum_len. simpl. lia.
  - rewrite sum_len_cons. simpl. rewrite IH. lia.
Qed.

Lemma length_sum pt : PT.length pt = sum_len (pieces pt).
Proof. unfold PT.length. by rewrite foldl_len. Qed.

Lemma length_spec pt : wf pt -> PT.length pt = length (bytes_of pt (pieces pt)).
Proof. intros Hwf. rewrite length_sum. symmetry. by apply length_bytes_of. Qed.

Lemma document_spec pt : wf pt -> PT.document pt = bytes_of pt (pieces pt).
Proof.
  intros Hwf. unfold PT.document. rewrite getRange_spec by done.
  rewrite drop_0, take_ge; [done|]. by rewrite length_spec.
Qed.

End GetRange.

Section Mutation.

Implicit Types (pt : PieceTable) (p : Piece) (ps : list Piece).

Lemma seek_insert_spec ps pos :
  ∀ cur0 idx0 cur idx,
    PT.seek_insert ps pos cur0 idx0 = (cur, idx) ->
    ∃ k, idx = idx0 + k ∧ k <= length ps ∧ cur = cur0 + sum_len (take k ps) ∧
         (0 < k -> cur < pos) ∧ (∀ p, ps !! k = Some p -> pos <= cur + len p).
Proof.
  induction ps as [|p ps IH]; intros cur0 idx0 cur idx; simpl.
  - intros [= <- <-]. exists 0. simpl. split_and!; try done; try lia.
  - destruct (decide (cur0 + len p < pos)) as [Hlt|Hge].
    + intros Hs. destruct (IH _ _ _ _ Hs) as (k & -> & Hk & -> & Hcur & Hnext).
      exists (S k). change (take (S k) (p :: ps)) with (p :: take k ps).
      rewrite sum_len_cons. simpl length.
      split_and!; try lia; [|done].
      intros _. destruct k; [rewrite take_0 in *; unfold sum_len in *; simpl in *; lia|].
      specialize (Hcur ltac:(lia)). lia.
    + intros [= <- <-]. exists 0. simpl. split_and!; try lia.
      intros q [= <-]. lia.
Qed.

Lemma seek_erase_spec ps pos :
  ∀ cur0 idx0 cur idx,
    PT.seek_erase ps pos cur0 idx0 = (cur, idx) ->
    ∃ k, idx = idx0 + k ∧ k <= length ps ∧ cur = cur0 + sum_len (take k ps) ∧
         (0 < k -> cur <= pos) ∧ (∀ p, ps !! k = Some p -> pos < cur + len p).
Proof.
  induction ps as [|p ps IH]; intros cur0 idx0 cur idx; simpl.
  - intros [= <- <-]. exists 0. simpl. split_and!; try done; try lia.
  - destruct (decide (cur0 + len p <= pos)) as [Hle|Hgt].
    + intros Hs. destruct (IH _ _ _ _ Hs) as (k & -> & Hk & -> & Hcur & Hnext).
      exists (S k). change (take (S k) (p :: ps)) with (p :: take k ps).
      rewrite sum_len_cons. simpl length.
      split_and!; try lia; [|done].
      intros _. destruct k; [rewrite take_0 in *; unfold sum_len in *; simpl in *; lia|].
      specialize (Hcur ltac:(lia)). lia.
    + intros [= <- <-]. exists 0. simpl. split_and!; try lia.
      intros q [= <-]. lia.
Qed.

Lemma piece_ok_grow pt s ps0 p : piece_ok pt p -> piece_ok (grow pt s ps0) p.
Proof.
  unfold piece_ok, PT.buffer; simpl. destruct (isOriginal p); [done|].
  rewrite length_app. lia.
Qed.

Lemma piece_bytes_grow pt s ps0 p :
  piece_ok pt p -> piece_bytes (grow pt s ps0) p = piece_bytes pt p.
Proof.
  unfold piece_ok, piece_bytes, PT.buffer; simpl. destruct (isOriginal p); [done|].
  intros [_ Hin]. unfold slice.
  rewrite drop_app_le by lia. apply take_app_le. rewrite length_drop. lia.
Qed.

(** The text of a piece sequence depends on the two buffers only. *)
Lemma bytes_of_ext pt pt' ps :
  origPtr pt = origPtr pt' -> addBuf pt = addBuf pt' ->
  bytes_of pt ps = bytes_of pt' ps.
Proof.
  intros Ho Ha. induction ps as [|p ps IH]; simpl; [done|].
  rewrite IH. f_equal. unfold piece_bytes, PT.buffer. by rewrite Ho, Ha.
Qed.

Lemma bytes_of_grow pt s ps0 ps :
  Forall (piece_ok pt) ps -> bytes_of (grow pt s ps0) ps = bytes_of pt ps.
Proof.
  induction 1 as [|p ps Hp _ IH]; simpl; [done|].
  by rewrite IH, piece_bytes_grow.
Qed.

Lemma new_piece_ok pt s ps0 :
  s ≠ [] -> piece_ok (grow pt s ps0) (mkPiece false (length (addBuf pt)) (length s)).
Proof.
  intros Hs. unfold piece_ok, PT.buffer; simpl. rewrite length_app.
  destruct s; [done|]. simpl. lia.
Qed.

Lemma new_piece_bytes pt s ps0 :
  piece_bytes (grow pt s ps0) (mkPiece false (length (addBuf pt)) (length s)) = s.
Proof.
  unfold piece_bytes, PT.buffer, slice; simpl.
  rewrite drop_app_length. by apply take_ge.
Qed.

Lemma sum_len_take_S ps k p :
  ps !! k = Some p -> sum_len (take (S k) ps) = sum_len (take k ps) + len p.
Proof.
  intros Hp. rewrite (take_S_r _ _ _ Hp), sum_len_app. simpl. lia.
Qed.

(** Inserting a piece at a piece boundary inserts its bytes at that offset. *)
Lemma insert_at_boundary pt ps j np :
  Forall (piece_ok pt) ps ->
  bytes_of pt (vec_insert j np ps) =
    take (sum_len (take j ps)) (bytes_of pt ps) ++ piece_bytes pt np
      ++ drop (sum_len (take j ps)) (bytes_of pt ps).
Proof.
  intros Hok. by rewrite bytes_of_vec_insert, take_bytes_of, drop_bytes_of.
Qed.

Lemma split_at_ok pt ps k off p :
  Forall (piece_ok pt) ps -> ps !! k = Some p -> 0 < off -> off < len p ->
  Forall (piece_ok pt) (PT.split_at k off p ps) ∧
  bytes_of pt (PT.split_at k off p ps) = bytes_of pt ps ∧
  sum_len (take (S k) (PT.split_at k off p ps)) = sum_len (take k ps) + off.
Proof.
  intros Hok Hp Hoff1 Hoff2. rewrite (split_at_eq _ _ _ _ Hp).
  assert (Hpok : piece_ok pt p) by (eapply Forall_lookup_1; eauto).
  assert (Hl : length (take k ps) = k).
  { rewrite length_take. apply lookup_lt_Some in Hp. lia. }
  split_and!.
  - apply Forall_app. split; [by apply Forall_take|].
    constructor; [apply piece_ok_split_l; auto; lia|].
    constructor; [by apply piece_ok_split_r|]. by apply Forall_drop.
  - rewrite <- (take_drop_middle ps k p Hp) at 3.
    rewrite !bytes_of_app. simpl.
    rewrite (piece_bytes_split pt p off) by lia.
    by rewrite <- (assoc_L (++)).
  - rewrite (take_S_r _ _ (mkPiece (isOriginal p) (start p) off)).
    + rewrite take_app_length' by done. rewrite sum_len_app. simpl. lia.
    + rewrite lookup_app_r by lia. by rewrite Hl, Nat.sub_diag.
Qed.

Theorem insert_spec port pos s pt :
  wf pt ->
  wf (PT.insert port pos s pt) ∧
  bytes_of (PT.insert port pos s pt) (pieces (PT.insert port pos s pt)) =
    take pos (bytes_of pt (pieces pt)) ++ s ++ drop pos (bytes_of pt (pieces pt)).
Proof.
  intros Hwf. unfold PT.insert.
  destruct (decide (s = [])) as [->|Hs].
  { split; [done|]. simpl. by rewrite take_drop. }
  destruct (PT.seek_insert (pieces pt) pos 0 0) as [cur idx] eqn:Hseek.
  destruct (seek_insert_spec _ _ _ _ _ _ Hseek)
    as (k & -> & Hk & -> & Hcur & Hnext). simpl in *.
  set (T := bytes_of pt (pieces pt)).
  set (np := mkPiece false (length (addBuf pt)) (length s)).
  assert (Hwf1 : Forall (piece_ok (grow pt s [])) (pieces pt)).
  { eapply Forall_impl; [exact Hwf|]. intros ?. apply piece_ok_grow. }
  assert (HT1 : bytes_of (grow pt s []) (pieces pt) = T) by by apply bytes_of_grow.
  assert (Hlen : length T = sum_len (pieces pt)) by by apply length_bytes_of.
  assert (Hcore : ∃ ps idx,
    match pieces pt !! k with
    | Some p =>
        if decide (0 < pos - sum_len (take k (pieces pt))
                   ∧ pos - sum_len (take k (pieces pt)) < len p)
        then (PT.split_at k (pos - sum_len (take k (pieces pt))) p (pieces pt), S k)
        else if decide (pos - sum_len (take k (pieces pt)) = len p)
             then (pieces pt, S k) else (pieces pt, k)
    | None => (pieces pt, length (pieces pt))
    end = (ps, idx) ∧
    Forall (piece_ok (grow pt s [])) ps ∧
    bytes_of (grow pt s []) (vec_insert idx np ps) = take pos T ++ s ++ drop pos T).
  { destruct (pieces pt !! k) as [p|] eqn:Hp.
    - specialize (Hnext p eq_refl).
      assert (sum_len (take k (pieces pt)) <= pos).
      { destruct k; [simpl; lia|]. specialize (Hcur ltac:(lia)). lia. }
      assert (Hpok : piece_ok pt p) by (eapply Forall_lookup_1; eauto).
      destruct (decide (_ ∧ _)) as [[Ho1 Ho2]|Hno].
      + destruct (split_at_ok (grow pt s []) _ k _ p Hwf1 Hp Ho1 Ho2)
          as (Hok2 & Hb2 & Hsum2).
        eexists _, _. split; [done|]. split; [done|].
        rewrite insert_at_boundary by done.
        rewrite Hsum2, Hb2, HT1, new_piece_bytes.
        by replace (sum_len (take k (pieces pt)) +
                    (pos - sum_len (take k (pieces pt)))) with pos by lia.
      + destruct (decide (_ = len p)) as [Heq|Hne].
        * eexists _, _. split; [done|]. split; [done|].
          rewrite insert_at_boundary by done.
          rewrite (sum_len_take_S _ _ _ Hp), HT1, new_piece_bytes.
          by replace (sum_len (take k (pieces pt)) + len p) with pos by lia.
        * eexists _, _. split; [done|]. split; [done|].
          rewrite insert_at_boundary by done.
          rewrite HT1, new_piece_bytes.
          by replace (sum_len (take k (pieces pt))) with pos by lia.
    - apply lookup_ge_None in Hp.
      eexists _, _. split; [done|]. split; [done|].
      rewrite insert_at_boundary by done.
      rewrite HT1, new_piece_bytes, (take_ge (pieces pt)) by lia.
      assert (length T <= pos).
      { rewrite Hlen. rewrite take_ge in Hcur by lia.
        destruct k; [|specialize (Hcur ltac:(lia)); lia].
        destruct (pieces pt); simpl in *; [unfold sum_len; simpl|]; lia. }
      by rewrite !take_ge, !drop_ge by lia. }
  destruct Hcore as (ps & idx & -> & Hok & Hbytes).
  assert (Hall : Forall (piece_ok (grow pt s [])) (vec_insert idx np ps)).
  { apply Forall_vec_insert; [done|]. by apply new_piece_ok. }
  destruct (finish_ok port (grow pt s []) _ idx Hall) as [Hfb Hfok].
  split.
  - exact Hfok.
  - simpl. rewrite <- Hbytes, <- Hfb. by apply bytes_of_ext.
Qed.

End Mutation.

Section Erase.

Implicit Types (pt : PieceTable) (p : Piece) (ps : list Piece).

Lemma erase_run_spec pt ps :
  Forall (piece_ok pt) ps ->
  ∀ n, Forall (piece_ok pt) (PT.erase_run ps n) ∧
       bytes_of pt (PT.erase_run ps n) = drop n (bytes_of pt ps).
Proof.
  induction 1 as [|p ps Hp Hps IH]; intros n; simpl.
  { by rewrite drop_nil. }
  pose proof (length_piece_bytes pt p Hp) as Hlen.
  destruct (decide (0 < n)) as [Hn|Hn].
  - destruct (decide (len p <= n)) as [Hall|Hpart].
    + destruct (IH (n - len p)) as [Hok Hb]. split; [done|].
      rewrite Hb, drop_app_ge by lia. f_equal. lia.
    + split.
      * constructor; [|done]. apply piece_ok_split_r; [done|lia].
      * simpl. rewrite drop_app_le by lia. f_equal.
        unfold piece_bytes at 1. simpl.
        change (slice (PT.buffer pt p) (start p + n) (len p - n)
                = drop n (piece_bytes pt p)).
        rewrite slice_piece by lia. apply take_ge. rewrite length_drop. lia.
  - replace n with 0 by lia. split; [by constructor|done].
Qed.

Theorem erase_spec port pos count pt :
  wf pt ->
  wf (PT.erase port pos count pt) ∧
  bytes_of (PT.erase port pos count pt) (pieces (PT.erase port pos count pt)) =
    take pos (bytes_of pt (pieces pt)) ++ drop (pos + count) (bytes_of pt (pieces pt)).
Proof.
  intros Hwf. unfold PT.erase.
  set (T := bytes_of pt (pieces pt)).
  assert (Hlen : length T = sum_len (pieces pt)) by by apply length_bytes_of.
  destruct (decide (count = 0)) as [->|Hc].
  { split; [done|]. by rewrite Nat.add_0_r, take_drop. }
  destruct (PT.seek_erase (pieces pt) pos 0 0) as [cur idx] eqn:Hseek.
  destruct (seek_erase_spec _ _ _ _ _ _ Hseek)
    as (k & -> & Hk & -> & Hcur & Hnext). simpl in *.
  destruct (pieces pt !! k) as [p|] eqn:Hp.
  2:{ split; [done|]. apply lookup_ge_None in Hp.
      rewrite take_ge in Hcur by lia.
      assert (length T <= pos).
      { rewrite Hlen. destruct k; [|specialize (Hcur ltac:(lia)); lia].
        destruct (pieces pt); simpl in *; [unfold sum_len; simpl|]; lia. }
      fold T. by rewrite take_ge, drop_ge, (right_id_L [] (++)) by lia. }
  specialize (Hnext p eq_refl).
  assert (Hle : sum_len (take k (pieces pt)) <= pos).
  { destruct k; [rewrite take_0; unfold sum_len; simpl; lia|].
    specialize (Hcur ltac:(lia)). lia. }
  assert (Hcore : ∃ ps idx,
    (if decide (sum_len (take k (pieces pt)) < pos)
     then (PT.split_at k (pos - sum_len (take k (pieces pt))) p (pieces pt), S k)
     else (pieces pt, k)) = (ps, idx) ∧
    Forall (piece_ok pt) ps ∧ bytes_of pt ps = T ∧ sum_len (take idx ps) = pos).
  { destruct (decide (_ < pos)) as [Hlt|Hnlt].
    - destruct (split_at_ok pt _ k (pos - sum_len (take k (pieces pt))) p
                  Hwf Hp ltac:(lia) ltac:(lia)) as (Hok2 & Hb2 & Hsum2).
      eexists _, _. split; [done|]. split_and!; [done|done|]. rewrite Hsum2. lia.
    - eexists _, _. split; [done|]. split_and!; [done|done|lia]. }
  destruct Hcore as (ps & idx & -> & Hok & Hb & Hsum).
  destruct (erase_run_spec pt (drop idx ps) (Forall_drop _ idx _ Hok) count)
    as [Hrok Hrb].
  set (ps' := take idx ps ++ PT.erase_run (drop idx ps) count).
  assert (Hok' : Forall (piece_ok pt) ps').
  { apply Forall_app. split; [by apply Forall_take|done]. }
  assert (Hb' : bytes_of pt ps' = take pos T ++ drop (pos + count) T).
  { unfold ps'. rewrite bytes_of_app, Hrb.
    rewrite <- (take_bytes_of pt ps idx), <- (drop_bytes_of pt ps idx) by done.
    by rewrite Hsum, Hb, drop_drop. }
  destruct (finish_ok port pt ps' (if decide (0 < idx) then idx - 1 else 0) Hok')
    as [Hfb Hfok].
  split.
  - exact Hfok.
  - simpl. rewrite <- Hb', <- Hfb. by apply bytes_of_ext.
Qed.

End Erase.

(** *** Consequences for reachable tables *)

Lemma wf_initEmpty : wf PT.initEmpty.
Proof. constructor. Qed.

Lemma wf_initFromFile data size : size <= length data -> wf (PT.initFromFile data size).
Proof.
  intros Hs. unfold wf, PT.initFromFile; simpl.
  destruct (decide (0 < size)); constructor; [|constructor].
  unfold piece_ok, PT.buffer; simpl. lia.
Qed.

Lemma reachable_wf port pt : reachable port pt -> wf pt.
Proof.
  induction 1.
  - apply wf_initEmpty.
  - by apply wf_initFromFile.
  - by apply insert_spec.
  - by apply erase_spec.
Qed.

Lemma document_insert port pos s pt :
  wf pt ->
  PT.document (PT.insert port pos s pt) =
    take pos (PT.document pt) ++ s ++ drop pos (PT.document pt).
Proof.
  intros Hwf. destruct (insert_spec port pos s pt Hwf) as [Hwf' Hb].
  by rewrite !document_spec.
Qed.

Lemma document_erase port pos count pt :
  wf pt ->
  PT.document (PT.erase port pos count pt) =
    take pos (PT.document pt) ++ drop (pos + count) (PT.document pt).
Proof.
  intros Hwf. destruct (erase_spec port pos count pt Hwf) as [Hwf' Hb].
  by rewrite !document_spec.
Qed.

Lemma length_document pt : wf pt -> length (PT.document pt) = PT.length pt.
Proof. intros Hwf. by rewrite document_spec, length_spec. Qed.

(** ** Piece table: reading a byte *)

Section CharAt.

Implicit Types (pt : PieceTable) (p : Piece) (ps : list Piece).

Lemma lookup_piece_bytes pt p k :
  piece_ok pt p -> k < len p ->
  PT.buffer pt p !! (start p + k) = piece_bytes pt p !! k
  ∧ is_Some (piece_bytes pt p !! k).
Proof.
  intros Hok Hk. split.
  - unfold piece_bytes, slice. by rewrite lookup_take_lt, lookup_drop by done.
  - apply lookup_lt_is_Some. rewrite length_piece_bytes by done. lia.
Qed.

Lemma charAt_loop_spec pt ps :
  Forall (piece_ok pt) ps ->
  ∀ pos cur, cur <= pos ->
    PT.charAt_loop pt ps pos cur =
    Some (default SPACE (bytes_of pt ps !! (pos - cur))).
Proof.
  induction 1 as [|p ps Hp Hps IH]; intros pos cur Hle; simpl; [done|].
  pose proof (length_piece_bytes pt p Hp) as Hlen.
  destruct (decide (cur + len p <= pos)) as [Hskip|Hhit].
  - rewrite IH by lia. rewrite lookup_app_r by lia. do 3 f_equal. lia.
  - destruct (lookup_piece_bytes pt p (pos - cur) Hp ltac:(lia)) as [Heq [x Hx]].
    rewrite Heq, (lookup_app_l_Some _ _ _ _ Hx), Hx. done.
Qed.

Lemma charAt_spec pt pos :
  wf pt -> PT.charAt pt pos = Some (default SPACE (PT.document pt !! pos)).
Proof.
  intros Hwf. unfold PT.charAt.
  rewrite (charAt_loop_spec pt _ Hwf) by lia.
  by rewrite document_spec, Nat.sub_0_r.
Qed.

End CharAt.

(** ** Line index *)

Section LineIndex.

Lemma scan_newlines_app b1 b2 off :
  scan_newlines (b1 ++ b2) off =
  scan_newlines b1 off ++ scan_newlines b2 (off + length b1).
Proof.
  revert off. induction b1 as [|c b1 IH]; intros off; simpl.
  - by rewrite Nat.add_0_r.
  - rewrite IH. replace (S off + length b1) with (off + S (length b1)) by lia.
    by destruct (decide (c = NL)).
Qed.

Lemma lineStarts_loop_spec pt ps :
  Forall (piece_ok pt) ps ->
  ∀ off, lineStarts_loop pt ps off = scan_newlines (bytes_of pt ps) off.
Proof.
  induction 1 as [|p ps Hp Hps IH]; intros off; simpl; [done|].
  rewrite scan_newlines_app, IH. fold (piece_bytes pt p).
  by rewrite length_piece_bytes.
Qed.

Lemma lineStartsOf_spec pt :
  wf pt -> lineStartsOf pt = 0 :: scan_newlines (PT.document pt) 0.
Proof.
  intros Hwf. unfold lineStartsOf.
  by rewrite lineStarts_loop_spec, document_spec.
Qed.

Lemma filter_shift (c : byte) (d : bytes) (l : list nat) :
  filter (λ g, (c :: d) !! g = Some NL) (S <$> l) =
  S <$> filter (λ g, d !! g = Some NL) l.
Proof.
  induction l as [|g l IH]; [done|].
  rewrite fmap_cons, !filter_cons. simpl. rewrite IH.
  by destruct (decide (d !! g = Some NL)).
Qed.

Lemma newline_offsets_cons c d :
  newline_offsets (c :: d) =
  (if decide (c = NL) then [0] else []) ++ (S <$> newline_offsets d).
Proof.
  unfold newline_offsets. simpl length. rewrite <- cons_seq.
  rewrite filter_cons, <- fmap_S_seq, filter_shift. simpl.
  destruct (decide (c = NL)) as [->|Hne].
  - by rewrite decide_True.
  - rewrite decide_False; [done|]. by intros [= ?].
Qed.

Lemma scan_newlines_offsets d off :
  scan_newlines d off = (λ g, off + S g) <$> newline_offsets d.
Proof.
  revert off. induction d as [|c d IH]; intros off; [done|].
  rewrite newline_offsets_cons, fmap_app, <- list_fmap_compose. simpl.
  rewrite IH.
  rewrite (list_fmap_ext (λ g, S off + S g) ((λ g, off + S g) ∘ S))
    by (intros; simpl; lia).
  destruct (decide (c = NL)); simpl; try done.
  all: f_equal; lia.
Qed.

Lemma scan_newlines_bounds d off x :
  x ∈ scan_newlines d off -> off < x ∧ x <= off + length d.
Proof.
  revert off. induction d as [|c d IH]; intros off; simpl.
  - by intros ?%elem_of_nil.
  - destruct (decide (c = NL)).
    + intros [->|Hx%IH]%elem_of_cons; lia.
    + intros Hx%IH. lia.
Qed.

Lemma increasing_cons a l :
  (∀ b, b ∈ l -> a < b) -> increasing l -> increasing (a :: l).
Proof.
  intros Hlt Hinc i j x y Hij Hx Hy.
  destruct j as [|j]; [lia|]. simpl in Hy.
  destruct i as [|i]; simpl in Hx.
  - injection Hx as <-. apply Hlt. by eapply list_elem_of_lookup_2.
  - eapply (Hinc i j); [lia|done..].
Qed.

Lemma scan_newlines_increasing d off : increasing (scan_newlines d off).
Proof.
  revert off. induction d as [|c d IH]; intros off; simpl.
  - intros i j a b _ Hi. by rewrite lookup_nil in Hi.
  - destruct (decide (c = NL)); [|apply IH].
    apply increasing_cons; [|apply IH].
    intros b Hb%scan_newlines_bounds. lia.
Qed.

Lemma length_scan_newlines d off :
  length (scan_newlines d off) = count_newlines d.
Proof.
  unfold count_newlines.
  revert off. induction d as [|c d IH]; intros off; simpl; [done|].
  rewrite filter_cons. destruct (decide (c = NL)); simpl; by rewrite IH.
Qed.

End LineIndex.

(** * Properties stated by the specification *)

(** ** Piece table *)

Lemma roundtrip_bytes (d s : bytes) (p : nat) :
  p <= length d ->
  take p (take p d ++ s ++ drop p d)
    ++ drop (p + length s) (take p d ++ s ++ drop p d) = d.
Proof.
  intros Hp.
  assert (Hl : length (take p d) = p) by (rewrite length_take; lia).
  rewrite take_app_length' by done.
  rewrite (assoc_L (++)), drop_app_length'
    by (rewrite length_app, Hl; lia).
  apply take_drop.
Qed.

(** C1: for every byte sequence [s] and every position [p <= length()],
    [insert(p, s)] followed by [erase(p, s.size())] gives a document with
    the same bytes as before the insert, and hence the same rebuilt line
    index. *)
Theorem C1_insert_then_erase (port : Port) (t : PieceTable) (p : nat) (s : bytes) :
  reachable port t -> p <= PT.length t ->
  PT.document (PT.erase port p (length s) (PT.insert port p s t)) = PT.document t
  ∧ lineStartsOf (PT.erase port p (length s) (PT.insert port p s t))
    = lineStartsOf t.
Proof.
  intros Hr Hp. pose proof (reachable_wf _ _ Hr) as Hwf.
  destruct (insert_spec port p s t Hwf) as [Hwf1 _].
  destruct (erase_spec port p (length s) _ Hwf1) as [Hwf2 _].
  assert (Hdoc : PT.document (PT.erase port p (length s) (PT.insert port p s t))
                 = PT.document t).
  { rewrite document_erase, document_insert by done.
    apply roundtrip_bytes. by rewrite length_document. }
  split; [done|]. by rewrite !lineStartsOf_spec, Hdoc.
Qed.

Lemma C1_witness :
  reachable Win32 (PT.initFromFile doc_abc 6) ∧ 2 <= PT.length (PT.initFromFile doc_abc 6)
  ∧ PT.document (PT.erase Win32 2 1 (PT.insert Win32 2 ["X"%byte] (PT.initFromFile doc_abc 6)))
    = PT.document (PT.initFromFile doc_abc 6).
Proof.
  assert (Hr : reachable Win32 (PT.initFromFile doc_abc 6))
    by (apply reach_file; simpl; lia).
  assert (Hp : 2 <= PT.length (PT.initFromFile doc_abc 6)) by (vm_compute; lia).
  split; [exact Hr|]. split; [exact Hp|].
  exact (proj1 (C1_insert_then_erase Win32 _ 2 ["X"%byte] Hr Hp)).
Defined.

(** C4: in every state reachable through [initEmpty], [initFromFile],
    [insert] and [erase], every piece has [len > 0] and [length()] is the
    sum of the piece lengths (which is also the number of bytes of the
    document). *)
Theorem C4_pieces_nonempty (port : Port) (t : PieceTable) :
  reachable port t ->
  Forall (λ p, 0 < len p) (pieces t)
  ∧ PT.length t = sum_len (pieces t)
  ∧ PT.length t = length (PT.document t).
Proof.
  intros Hr. pose proof (reachable_wf _ _ Hr) as Hwf. split_and!.
  - eapply Forall_impl; [exact Hwf|]. by intros p [? _].
  - apply length_sum.
  - by rewrite length_document.
Qed.

Lemma C4_witness :
  reachable MacOS (PT.erase MacOS 1 2 (PT.insert MacOS 3 ["X"%byte] (PT.initFromFile doc_abc 6)))
  ∧ Forall (λ p, 0 < len p)
      (pieces (PT.erase MacOS 1 2 (PT.insert MacOS 3 ["X"%byte] (PT.initFromFile doc_abc 6)))).
Proof.
  assert (Hr : reachable MacOS
            (PT.erase MacOS 1 2 (PT.insert MacOS 3 ["X"%byte] (PT.initFromFile doc_abc 6)))).
  { apply reach_erase, reach_insert, reach_file. simpl; lia. }
  split; [exact Hr|]. exact (proj1 (C4_pieces_nonempty MacOS _ Hr)).
Defined.

(** C5: after [rebuildLineStarts] the line index starts with 0, is strictly
    increasing, ends at or before the document length, and holds the
    initial 0 followed by one entry [g + 1] for each ['\n'] at offset [g]:
    one entry per newline plus one. *)
Theorem C5_line_index (port : Port) (e : Editor) :
  reachable port (pt e) ->
  let L := lineStarts (Ed.rebuildLineStarts e) in
  L !! 0 = Some 0
  ∧ increasing L
  ∧ (∀ x, last L = Some x -> x <= PT.length (pt e))
  ∧ L = 0 :: (S <$> newline_offsets (PT.document (pt e)))
  ∧ length L = S (count_newlines (PT.document (pt e))).
Proof.
  intros Hr L. pose proof (reachable_wf _ _ Hr) as Hwf.
  assert (HL : L = 0 :: scan_newlines (PT.document (pt e)) 0).
  { unfold L. simpl. by apply lineStartsOf_spec. }
  rewrite HL. split_and!.
  - done.
  - apply increasing_cons; [|apply scan_newlines_increasing].
    intros b Hb%scan_newlines_bounds. lia.
  - intros x Hx. apply last_Some_elem_of in Hx.
    apply elem_of_cons in Hx as [->|Hx%scan_newlines_bounds]; [lia|].
    rewrite <- length_document by done. lia.
  - by rewrite scan_newlines_offsets.
  - simpl. by rewrite length_scan_newlines.
Qed.

Lemma C5_witness :
  reachable Win32 (pt s2_editor)
  ∧ lineStarts (Ed.rebuildLineStarts s2_editor) = [0; 2; 4; 6].
Proof.
  assert (Hr : reachable Win32 (pt s2_editor))
    by (apply reach_file; simpl; lia).
  split; [exact Hr|].
  destruct (C5_line_index Win32 s2_editor Hr) as (_ & _ & _ & HL & _).
  rewrite HL. vm_compute. reflexivity.
Defined.

(** C6: the edit primitives are total and clamp their arguments.
    [erase(length(), k)] changes nothing, whatever [k]; [insert(length(), s)]
    appends [s]; an empty insert and a zero-length erase change nothing; a
    position past the end is treated as the end, a count past the end stops
    at the end; and the table stays well formed, so no later read leaves
    its buffer. *)
Theorem C6_total_and_clamped (port : Port) (t : PieceTable) :
  reachable port t ->
  (∀ k, PT.erase port (PT.length t) k t = PT.erase port (PT.length t) 0 t
        ∧ PT.erase port (PT.length t) k t = t)
  ∧ (∀ s, PT.document (PT.insert port (PT.length t) s t) = PT.document t ++ s)
  ∧ (∀ p, PT.insert port p [] t = t)
  ∧ (∀ p, PT.erase port p 0 t = t)
  ∧ (∀ p s, PT.length t <= p ->
        PT.document (PT.insert port p s t) = PT.document t ++ s)
  ∧ (∀ p k, PT.length t <= p ->
        PT.document (PT.erase port p k t) = PT.document t)
  ∧ (∀ p k, PT.length t <= p + k ->
        PT.document (PT.erase port p k t) = take p (PT.document t))
  ∧ (∀ p s, reachable port (PT.insert port p s t))
  ∧ (∀ p k, reachable port (PT.erase port p k t)).
Proof.
  intros Hr. pose proof (reachable_wf _ _ Hr) as Hwf.
  pose proof (length_document t Hwf) as Hlen.
  assert (Hins : ∀ p s, PT.length t <= p ->
            PT.document (PT.insert port p s t) = PT.document t ++ s).
  { intros p s Hp. rewrite document_insert by done.
    by rewrite take_ge, drop_ge, (right_id_L [] (++)) by lia. }
  assert (Hera : ∀ p k, PT.length t <= p + k ->
            PT.document (PT.erase port p k t) = take p (PT.document t)).
  { intros p k Hp. rewrite document_erase by done.
    by rewrite drop_ge, (right_id_L [] (++)) by lia. }
  assert (Hend : ∀ k, PT.erase port (PT.length t) k t = t).
  { intros k. unfold PT.erase. destruct (decide (k = 0)); [done|].
    destruct (PT.seek_erase (pieces t) (PT.length t) 0 0) as [cur idx] eqn:Hs.
    destruct (seek_erase_spec _ _ _ _ _ _ Hs) as (j & -> & Hj & -> & _ & Hnext).
    simpl. destruct (pieces t !! j) as [q|] eqn:Hq; [|done].
    specialize (Hnext q eq_refl). exfalso.
    rewrite length_sum in Hnext.
    rewrite <- (take_drop_middle _ _ _ Hq), sum_len_app, sum_len_cons in Hnext.
    rewrite take_app_length' in Hnext; [lia|].
    rewrite length_take. apply lookup_lt_Some in Hq. lia. }
  split_and!.
  - intros k. by rewrite !Hend.
  - intros s. by apply Hins.
  - done.
  - done.
  - exact Hins.
  - intros p k Hp. rewrite Hera by lia. apply take_ge. lia.
  - exact Hera.
  - intros p s. by constructor.
  - intros p k. by constructor.
Qed.

Lemma C6_witness :
  reachable Win32 (PT.initFromFile doc_abc 6)
  ∧ PT.erase Win32 (PT.length (PT.initFromFile doc_abc 6)) 5 (PT.initFromFile doc_abc 6)
    = PT.initFromFile doc_abc 6.
Proof.
  assert (Hr : reachable Win32 (PT.initFromFile doc_abc 6))
    by (apply reach_file; simpl; lia).
  split; [exact Hr|].
  exact (proj2 (proj1 (C6_total_and_clamped Win32 _ Hr) 5)).
Defined.

(** C10: [charAt] is total.  At every position it returns a byte, reading
    inside the buffer of the piece it lands in; below [length()] this is
    the byte of the document at that position, and at or past [length()]
    it is the space character. *)
Theorem C10_charAt_total (port : Port) (t : PieceTable) (p : nat) :
  reachable port t ->
  (∃ b, PT.charAt t p = Some b)
  ∧ (PT.length t <= p -> PT.charAt t p = Some SPACE)
  ∧ (p < PT.length t -> PT.charAt t p = PT.document t !! p).
Proof.
  intros Hr. pose proof (reachable_wf _ _ Hr) as Hwf.
  pose proof (length_document t Hwf) as Hlen.
  rewrite charAt_spec by done. split_and!.
  - by eexists.
  - intros Hp. by rewrite lookup_ge_None_2 by lia.
  - intros Hp. destruct (lookup_lt_is_Some_2 (PT.document t) p) as [x Hx]; [lia|].
    by rewrite Hx.
Qed.

Lemma C10_witness :
  reachable Win32 (PT.initFromFile doc_abc 6)
  ∧ PT.charAt (PT.initFromFile doc_abc 6) 6 = Some SPACE.
Proof.
  assert (Hr : reachable Win32 (PT.initFromFile doc_abc 6))
    by (apply reach_file; simpl; lia).
  split; [exact Hr|].
  apply (proj1 (proj2 (C10_charAt_total Win32 _ 6 Hr))). vm_compute. lia.
Defined.

(** ** Undo log *)

Section UndoLog.

Lemma to_int_small (n : nat) : (Z.of_nat n < 2 ^ 31)%Z -> to_int n = Z.of_nat n.
Proof.
  intros Hn. unfold to_int.
  rewrite Z.mod_small by lia.
  destruct (Z.ltb_spec (Z.of_nat n) (2 ^ 31)); lia.
Qed.

Lemma savePoint_log_step u s :
  savePoint u = (-1)%Z -> savePoint (log_step Win32 u s) = (-1)%Z.
Proof.
  intros Hsp. destruct s as [b| |]; simpl.
  - rewrite Hsp. by destruct (decide _).
  - destruct (UM.canUndo u); [|done]. unfold UM.popUndo.
    destruct (last (undoStack u)); done.
  - destruct (UM.canRedo u); [|done]. unfold UM.popRedo.
    destruct (last (redoStack u)); done.
Qed.

Lemma savePoint_log_run steps u :
  savePoint u = (-1)%Z -> savePoint (log_run Win32 u steps) = (-1)%Z.
Proof.
  revert u. induction steps as [|s steps IH]; intros u Hsp; [done|].
  apply IH. by apply savePoint_log_step.
Qed.

(** Win32 build: once [push] has found the save point above the undo
    stack, [isModified] stays true through pushes, undos and redos. *)
Lemma win_push_sentinel (b : EditBatch) (u : UndoManager) :
  redoStack (UM.push Win32 b u) = []
  ∧ ((savePoint u > to_int (length (undoStack u)))%Z ->
     ∀ steps,
       (Z.of_nat (length (undoStack (log_run Win32 (UM.push Win32 b u) steps)))
        < 2 ^ 31)%Z ->
       UM.isModified (log_run Win32 (UM.push Win32 b u) steps) = true).
Proof.
  split; [done|]. intros Hsp steps Hsmall.
  assert (Hm1 : savePoint (log_run Win32 (UM.push Win32 b u) steps) = (-1)%Z).
  { apply savePoint_log_run. simpl. by rewrite decide_True. }
  unfold UM.isModified. rewrite Hm1, to_int_small by done.
  apply bool_decide_eq_true. lia.
Qed.

End UndoLog.

(** C3, macOS port: pushing a new batch onto a log whose save point lies
    above the undo stack clears the redo stack but leaves the save point in
    place, so [isModified] answers false although the saved state can no
    longer be reached. *)
Theorem C3_mac_push_keeps_savepoint (b b' : EditBatch) :
  (savePoint (log_saved_then_undone b)
   > to_int (length (undoStack (log_saved_then_undone b))))%Z
  ∧ redoStack (UM.push MacOS b' (log_saved_then_undone b)) = []
  ∧ UM.isModified (UM.push MacOS b' (log_saved_then_undone b)) = false
  ∧ UM.isModified (UM.push Win32 b' (log_saved_then_undone b)) = true.
Proof. vm_compute. split_and!; done. Qed.

(** The same at the level of the editor, macOS port: after typing "a",
    saving, undoing and typing "b" the document is "b", the file holds "a",
    and the dirty flag is off. *)
Example mac_dirty_flag_lost :
  PT.document (pt mac_saved_text) = ["a"%byte]
  ∧ PT.document (pt mac_retyped) = ["b"%byte]
  ∧ isDirty mac_retyped = false.
Proof. vm_compute. split_and!; reflexivity. Qed.

(** ** Undo and redo *)

Section RoundTrip.

Lemma del_ins_bytes (d s : bytes) (p : nat) :
  p <= length d -> del_bytes p (length s) (ins_bytes p s d) = d.
Proof. apply roundtrip_bytes. Qed.


Lemma ins_del_bytes (d : bytes) (p n : nat) :
  ins_bytes p (take n (drop p d)) (del_bytes p n d) = d.
Proof.
  unfold ins_bytes, del_bytes.
  destruct (decide (p <= length d)) as [Hp|Hp].
  - assert (Hl : length (take p d) = p) by (rewrite length_take; lia).
    rewrite take_app_length', drop_app_length' by done.
    rewrite <- drop_drop, take_drop. apply take_drop.
  - rewrite (drop_ge d p), (drop_ge d (p + n)), (take_ge d p) by lia.
    rewrite take_nil, !(right_id_L [] (++)). simpl.
    by rewrite take_ge, drop_ge, (right_id_L [] (++)) by lia.
Qed.


Lemma recorded_text_undo d l d' :
  recorded_text d l d' -> foldl undo_bytes d' (rev l) = d.
Proof.
  induction 1 as [d|d p s l d' Hp Hrec IH|d p n l d' Hrec IH]; simpl; [done| |].
  - rewrite foldl_app, IH. simpl. unfold undo_bytes. simpl.
    by apply del_ins_bytes.
  - rewrite foldl_app, IH. simpl. unfold undo_bytes. simpl.
    apply ins_del_bytes.
Qed.

Lemma recorded_recorded_text port t l t' :
  wf t -> recorded port t l t' ->
  wf t' ∧ recorded_text (PT.document t) l (PT.document t').
Proof.
  intros Hwf Hrec. induction Hrec as [t|t p s l t' Hp Hrec IH|t p n l t' Hrec IH].
  - split; [done|constructor].
  - destruct (insert_spec port p s t Hwf) as [Hwf1 _].
    destruct (IH Hwf1) as [Hwf' Hrt]. split; [done|].
    constructor; [by rewrite length_document|].
    by rewrite document_insert in Hrt.
  - destruct (erase_spec port p n t Hwf) as [Hwf1 _].
    destruct (IH Hwf1) as [Hwf' Hrt]. split; [done|].
    rewrite getRange_spec, <- document_spec by done.
    constructor. by rewrite document_erase in Hrt.
Qed.


Lemma undo_op_document port t o :
  wf t -> Ed.erase_count port (length (text o)) = length (text o) ->
  wf (Ed.undo_op port t o)
  ∧ PT.document (Ed.undo_op port t o) = undo_bytes (PT.document t) o.
Proof.
  intros Hwf Hfit. unfold Ed.undo_op, undo_bytes.
  destruct (type o).
  - rewrite Hfit. split; [by apply erase_spec|by apply document_erase].
  - split; [by apply insert_spec|by apply document_insert].
Qed.


Lemma foldl_undo_document port l :
  counts_fit port l -> ∀ t, wf t ->
  wf (foldl (Ed.undo_op port) t l)
  ∧ PT.document (foldl (Ed.undo_op port) t l) = foldl undo_bytes (PT.document t) l.
Proof.
  induction 1 as [|o l Ho Hl IH]; intros t Hwf; simpl; [done|].
  destruct (undo_op_document port t o Hwf Ho) as [Hwf1 Hd1].
  destruct (IH _ Hwf1) as [Hwf2 Hd2]. by rewrite Hd2, Hd1.
Qed.

Lemma undo_ops_document port l t :
  counts_fit port l -> wf t ->
  wf (Ed.undo_ops port l t)
  ∧ PT.document (Ed.undo_ops port l t) = foldl undo_bytes (PT.document t) (rev l).
Proof.
  intros Hfit Hwf. unfold Ed.undo_ops. apply foldl_undo_document; [|done].
  by apply List.Forall_rev.
Qed.

End RoundTrip.

Section PerformUndoRedo.

Lemma popUndo_snoc u rest b :
  undoStack u = rest ++ [b] ->
  UM.canUndo u = true
  ∧ UM.popUndo u = Some (b, mkUM rest (redoStack u ++ [b]) (savePoint u)).
Proof.
  intros Hu. unfold UM.canUndo, UM.popUndo. rewrite Hu. split.
  - apply bool_decide_eq_true. by destruct rest.
  - by rewrite last_snoc, removelast_last.
Qed.


Lemma performUndo_top port e rest b :
  undoStack (undo e) = rest ++ [b] ->
  pt (Ed.performUndo port e) = Ed.undo_ops port (ops b) (pt e)
  ∧ undo (Ed.performUndo port e)
    = mkUM rest (redoStack (undo e) ++ [b]) (savePoint (undo e))
  ∧ cursors (Ed.performUndo port e) = beforeCursors b.
Proof.
  intros Hu. destruct (popUndo_snoc _ _ _ Hu) as [Hcan Hpop].
  unfold Ed.performUndo. by rewrite Hcan, Hpop.
Qed.


End PerformUndoRedo.



(** ** Intents record what they do

    The batches of the intents modelled above satisfy [recorded]; shown in
    general for typing or pasting at carets, and on the scenarios for the
    line moves. *)

Section Recording.

Lemma recorded_app port t l1 t1 l2 t2 :
  recorded port t l1 t1 -> recorded port t1 l2 t2 ->
  recorded port t (l1 ++ l2) t2.
Proof.
  induction 1 as [t|t p s l t' Hp Hrec IH|t p n l t' Hrec IH]; intros H2; simpl.
  - done.
  - constructor; [done|]. by apply IH.
  - constructor. by apply IH.
Qed.

Lemma wadd_le a b : wadd a b <= a + b.
Proof.
  unfold wadd, to_size_t.
  pose proof (Z.mod_le (Z.of_nat a + Z.of_nat b) (2 ^ 64) ltac:(lia) ltac:(lia)).
  lia.
Qed.

Lemma length_insert port p s t :
  wf t -> PT.length (PT.insert port p s t) = PT.length t + length s.
Proof.
  intros Hwf. destruct (insert_spec port p s t Hwf) as [Hwf' _].
  rewrite <- !length_document, document_insert by done.
  rewrite !length_app, length_take, length_drop. lia.
Qed.

(** Shifting carets after an insert of [l] bytes at [p] keeps them carets
    inside the longer document. *)
Lemma shift_carets_ok (p l n : nat) (cs : list Cursor) :
  Forall (λ c, head c = anchor c ∧ head c <= n) cs ->
  Forall (λ c, head c = anchor c ∧ head c <= n + l)
    ((λ o, mkCursor
        (if decide (p <= head o) then wadd (head o) l else head o)
        (if decide (p <= anchor o) then wadd (anchor o) l else anchor o)) <$> cs).
Proof.
  intros Hcs. apply Forall_fmap. eapply Forall_impl; [exact Hcs|].
  intros c [Heq Hle]. simpl. rewrite <- Heq.
  destruct (decide (p <= head c)); split; try done; try lia.
  pose proof (wadd_le (head c) l). lia.
Qed.

Lemma win_insert_at_recorded txt e b idx :
  carets_ok e ->
  ∃ e' l, Win.insert_at txt (e, b) idx = (e', b ++ l)
          ∧ carets_ok e' ∧ recorded Win32 (pt e) l (pt e').
Proof.
  intros [Hwf Hcs]. unfold Win.insert_at.
  destruct (cursors e !! idx) as [c|] eqn:Hc.
  - eexists _, [_]. split; [reflexivity|].
    assert (Hp : head c <= PT.length (pt e)).
    { by eapply (Forall_lookup_1 _ _ _ _ Hcs Hc). }
    split.
    + split; simpl.
      * by apply insert_spec.
      * rewrite length_insert by done. by apply shift_carets_ok.
    + simpl. constructor; [done|]. constructor.
  - exists e, []. rewrite (right_id_L [] (++)).
    split; [done|]. split; [done|constructor].
Qed.

Lemma win_insert_loop_recorded txt indices :
  ∀ e b, carets_ok e ->
  ∃ e' l, foldl (Win.insert_at txt) (e, b) indices = (e', b ++ l)
          ∧ carets_ok e' ∧ recorded Win32 (pt e) l (pt e').
Proof.
  induction indices as [|idx indices IH]; intros e b Hok; cbn [foldl].
  - exists e, []. rewrite (right_id_L [] (++)). split; [done|]. split; [done|constructor].
  - destruct (win_insert_at_recorded txt e b idx Hok) as (e1 & l1 & -> & Hok1 & Hrec1).
    destruct (IH e1 (b ++ l1) Hok1) as (e2 & l2 & -> & Hok2 & Hrec2).
    exists e2, (l1 ++ l2). rewrite (assoc_L (++)).
    split; [done|]. split; [done|]. by eapply recorded_app.
Qed.

Lemma win_erase_selection_caret e b idx :
  carets_ok e -> Win.erase_selection (e, b) idx = (e, b).
Proof.
  intros [_ Hcs]. unfold Win.erase_selection.
  destruct (cursors e !! idx) as [c|] eqn:Hc; [|done].
  destruct (Forall_lookup_1 _ _ _ _ Hcs Hc) as [Heq _].
  unfold Cur.hasSelection. by rewrite bool_decide_eq_false_2 by (by intros ?).
Qed.

Lemma win_erase_loop_carets indices e b :
  carets_ok e -> foldl Win.erase_selection (e, b) indices = (e, b).
Proof.
  intros Hok. induction indices as [|idx indices IH]; cbn [foldl]; [done|].
  by rewrite win_erase_selection_caret.
Qed.

(** Win32 build: typing or pasting [txt] at carets pushes a batch recorded
    from the table the intent found to the table it leaves. *)
Lemma win_insertAtCursors_recorded txt e :
  carets_ok e -> cursors e ≠ [] ->
  ∃ b rest,
    undoStack (undo (Win.insertAtCursors txt e)) = rest ++ [b]
    ∧ recorded Win32 (pt e) (ops b) (pt (Win.insertAtCursors txt e)).
Proof.
  intros Hok Hne. unfold Win.insertAtCursors.
  set (e0 := Win.commitPadding e).
  assert (Hpt0 : pt e0 = pt e ∧ cursors e0 = cursors e).
  { unfold e0, Win.commitPadding. by destruct (ops (pendingPadding e)). }
  destruct Hpt0 as [Hpt0 Hcs0].
  assert (Hok0 : carets_ok e0) by (unfold carets_ok; by rewrite Hpt0, Hcs0).
  destruct (cursors e0) as [|c0 cs0] eqn:Hcur; [by rewrite Hcs0 in Hcur|].
  rewrite <- Hcur. rewrite win_erase_loop_carets by done.
  destruct (win_insert_loop_recorded txt (Win.sorted_indices (cursors e0)) e0 [] Hok0)
    as (e1 & l & -> & Hok1 & Hrec).
  simpl. eexists _, _. split; [reflexivity|]. simpl. by rewrite <- Hpt0.
Qed.

Lemma mac_insert_one_recorded txt e b c :
  wf (pt e) -> head c = anchor c -> head c <= PT.length (pt e) ->
  ∃ e' l, Mac.insert_one txt (e, b) c = (e', b ++ l)
          ∧ wf (pt e') ∧ PT.length (pt e') = PT.length (pt e) + length txt
          ∧ recorded MacOS (pt e) l (pt e').
Proof.
  intros Hwf Heq Hle. unfold Mac.insert_one.
  assert (Hst : Cur.start c = head c) by (unfold Cur.start; lia).
  assert (Hl : wsub (Cur.end_ c) (Cur.start c) = 0).
  { unfold Cur.end_, Cur.start, wsub, to_size_t.
    replace (Z.of_nat (head c `max` anchor c) - Z.of_nat (head c `min` anchor c))%Z
      with 0%Z by lia. done. }
  rewrite Hl, Hst. simpl.
  eexists _, [_]. split; [reflexivity|]. simpl. split_and!.
  - by apply insert_spec.
  - by apply length_insert.
  - constructor; [done|]. constructor.
Qed.

Lemma Forall_insert_by {A} (P : A -> Prop) cmp x (l : list A) :
  P x -> Forall P l -> Forall P (insert_by cmp x l).
Proof.
  intros Hx. induction 1 as [|y l Hy Hl IH]; simpl.
  - by constructor.
  - destruct (cmp y x); by repeat constructor.
Qed.

Lemma Forall_sort_by {A} (P : A -> Prop) cmp (l : list A) :
  Forall P l -> Forall P (sort_by cmp l).
Proof.
  unfold sort_by. induction 1 as [|x l Hx Hl IH]; simpl; [done|].
  by apply Forall_insert_by.
Qed.

Lemma mac_insert_loop_recorded txt n cs :
  Forall (λ c, head c = anchor c ∧ head c <= n) cs ->
  ∀ e b, wf (pt e) -> n <= PT.length (pt e) ->
  ∃ e' l, foldl (Mac.insert_one txt) (e, b) cs = (e', b ++ l)
          ∧ recorded MacOS (pt e) l (pt e').
Proof.
  induction 1 as [|c cs [Heq Hle] Hcs IH]; intros e b Hwf Hn; cbn [foldl].
  - exists e, []. rewrite (right_id_L [] (++)). split; [done|constructor].
  - destruct (mac_insert_one_recorded txt e b c Hwf Heq ltac:(lia))
      as (e1 & l1 & -> & Hwf1 & Hlen1 & Hrec1).
    destruct (IH e1 (b ++ l1) Hwf1 ltac:(lia)) as (e2 & l2 & -> & Hrec2).
    exists e2, (l1 ++ l2). rewrite (assoc_L (++)).
    split; [done|]. by eapply recorded_app.
Qed.

(** macOS port: the same for its [insertAtCursors]. *)
Lemma mac_insertAtCursors_recorded txt e :
  carets_ok e ->
  ∃ b rest,
    undoStack (undo (Mac.insertAtCursors txt e)) = rest ++ [b]
    ∧ recorded MacOS (pt e) (ops b) (pt (Mac.insertAtCursors txt e)).
Proof.
  intros [Hwf Hcs]. unfold Mac.insertAtCursors.
  destruct (mac_insert_loop_recorded txt (PT.length (pt e))
              (sort_by (λ a b, bool_decide (Cur.start b < Cur.start a)) (cursors e))
              (Forall_sort_by _ _ _ Hcs) e [] Hwf ltac:(lia))
    as (e1 & l & -> & Hrec).
  simpl. eexists _, _. split; [reflexivity|]. done.
Qed.

End Recording.

(** The batches the line moves push in scenario S5 are recorded: in the
    Win32 build from the table the intent found, in the macOS port from the
    table after the newline it appends first. *)
Example s5_win_batch_recorded :
  ∃ b, undoStack (undo (Win.moveLines false (s5_editor 0))) = [b]
       ∧ recorded Win32 (pt (s5_editor 0)) (ops b)
           (pt (Win.moveLines false (s5_editor 0))).
Proof.
  eexists. split; [vm_compute; reflexivity|].
  simpl ops.
  apply (rec_erase Win32 (pt (s5_editor 0)) 0 3).
  apply rec_insert; [vm_compute; lia|].
  vm_compute. apply rec_nil.
Qed.

Example s5_mac_batch_recorded :
  ∃ b, undoStack (undo (Mac.moveLines false (s5_editor 0))) = [b]
       ∧ recorded MacOS (PT.insert MacOS 3 [NL] (pt (s5_editor 0))) (ops b)
           (pt (Mac.moveLines false (s5_editor 0))).
Proof.
  eexists. split; [vm_compute; reflexivity|].
  simpl ops.
  apply (rec_erase MacOS (PT.insert MacOS 3 [NL] (pt (s5_editor 0))) 0 2).
  apply rec_insert; [vm_compute; lia|].
  vm_compute. apply rec_nil.
Qed.

(** ** The plain search terminates within its fuel *)

Section SearchFuel.

Context `{RegexEngine}.

Lemma find_loop_lt fuel t len query forward matchCase wholeWord :
  ∀ cur p, cur < len ->
    Win.find_loop fuel t len query forward matchCase wholeWord cur = Some p ->
    p < len.
Proof.
  induction fuel as [|fuel IH]; intros cur p Hcur; simpl; [done|].
  match goal with |- context [if ?c then Some cur else _] => destruct c end.
  - by intros [= <-].
  - apply IH. destruct forward.
    + destruct (decide (len <= cur + 1)); lia.
    + destruct (decide (cur = 0)); lia.
Qed.

Lemma findText_plain_lt e startPos query matchCase wholeWord p :
  Win.findText e startPos query true matchCase wholeWord false = Some p ->
  p < PT.length (pt e).
Proof.
  unfold Win.findText. destruct query as [|c query]; [done|].
  destruct (decide (PT.length (pt e) = 0)) as [->|Hlen]; [done|].
  apply find_loop_lt. destruct (decide (PT.length (pt e) <= startPos)); lia.
Qed.

(** Any two amounts of fuel of at least [docLen + 1 - currentPos] rounds
    give the same matches: [S docLen] rounds from 0 are the whole loop. *)
Lemma collect_plain_fuel e :
  searchQuery e ≠ [] ->
  ∀ fuel1 fuel2 currentPos,
    PT.length (pt e) + 1 - currentPos <= fuel1 ->
    PT.length (pt e) + 1 - currentPos <= fuel2 ->
    Win.collect_plain fuel1 e (PT.length (pt e)) currentPos
    = Win.collect_plain fuel2 e (PT.length (pt e)) currentPos.
Proof.
  intros Hq.
  assert (Hqlen : 0 < length (searchQuery e)) by (destruct (searchQuery e); [done|simpl; lia]).
  assert (Hbase : ∀ fuel currentPos, PT.length (pt e) < currentPos ->
            Win.collect_plain fuel e (PT.length (pt e)) currentPos = []).
  { intros [|fuel] currentPos Hcp; simpl; [done|].
    destruct (Win.findText _ _ _ _ _ _ _) as [p|] eqn:Hf; [|done].
    apply findText_plain_lt in Hf. by rewrite decide_True by lia. }
  induction fuel1 as [|fuel1 IH]; intros fuel2 currentPos H1 H2.
  { rewrite !Hbase by lia. done. }
  destruct fuel2 as [|fuel2]; [rewrite !Hbase by lia; done|].
  simpl. destruct (Win.findText _ _ _ _ _ _ _) as [p|] eqn:Hf; [|done].
  apply findText_plain_lt in Hf.
  destruct (decide (p < currentPos)); [done|].
  destruct (decide (PT.length (pt e) < p + length (searchQuery e))); [done|].
  f_equal. apply IH; lia.
Qed.

End SearchFuel.

(** ** Scenarios *)

(** C7 (scenario S2): on "a\nb\nc\n" with collapsed cursors at 0, 2 and 4,
    [insertAtCursors("X")] works through the cursors in descending start
    order (inserting at 4, then 2, then 0), produces "Xa\nXb\nXc\n" and
    leaves the three cursors at 1, 4 and 7 -- in the Win32 build and in the
    macOS port. *)
Theorem C7_multi_caret_paste :
  PT.document (pt (Win.insertAtCursors ["X"%byte] s2_editor)) = doc_Xabc
  ∧ cursors (Win.insertAtCursors ["X"%byte] s2_editor)
    = [mkCursor 1 1; mkCursor 4 4; mkCursor 7 7]
  ∧ undoStack (undo (Win.insertAtCursors ["X"%byte] s2_editor)) = [s2_batch]
  ∧ PT.document (pt (Mac.insertAtCursors ["X"%byte] s2_editor)) = doc_Xabc
  ∧ cursors (Mac.insertAtCursors ["X"%byte] s2_editor)
    = [mkCursor 1 1; mkCursor 4 4; mkCursor 7 7]
  ∧ undoStack (undo (Mac.insertAtCursors ["X"%byte] s2_editor)) = [s2_batch].
Proof. vm_compute. split_and!; reflexivity. Qed.

(** C8 as stated fails in the Win32 build: moving line 0 of "A\nB" down
    does not give "B\nA\n". *)
Lemma C8_counterexample :
  PT.document (pt (Win.moveLines false (s5_editor 0))) ≠ doc_BA_nl.
Proof. vm_compute. discriminate. Qed.

(** C8 (scenario S5), amended: on "A\nB" with one cursor on line 0, moving
    the line down gives, in the Win32 build, "B\nA" -- the newline passes
    from the moved line to the line that takes its place and none is added
    -- and, in the macOS port, "B\nA\n" -- a newline is appended first.  In
    both the cursor ends at offset 2, on the "A" line, which is line 1. *)
Theorem C8_move_line_down_eof (p : nat) :
  p < 2 ->
  PT.document (pt (Win.moveLines false (s5_editor p))) = doc_BA
  ∧ cursors (Win.moveLines false (s5_editor p)) = [mkCursor (p + 2) (p + 2)]
  ∧ Ed.getLineIdx Win32 (Win.moveLines false (s5_editor p)) (p + 2) = 1%Z
  ∧ PT.document (pt (Mac.moveLines false (s5_editor p))) = doc_BA_nl
  ∧ cursors (Mac.moveLines false (s5_editor p)) = [mkCursor (p + 2) (p + 2)]
  ∧ Ed.getLineIdx MacOS (Mac.moveLines false (s5_editor p)) (p + 2) = 1%Z.
Proof.
  intros Hp. destruct p as [|[|p]]; [| |lia]; vm_compute; split_and!; reflexivity.
Qed.

Lemma C8_witness :
  0 < 2
  ∧ PT.document (pt (Win.moveLines false (s5_editor 0))) = doc_BA
  ∧ PT.document (pt (Mac.moveLines false (s5_editor 0))) = doc_BA_nl.
Proof.
  assert (H02 : 0 < 2) by lia.
  split; [exact H02|]. split.
  - exact (proj1 (C8_move_line_down_eof 0 H02)).
  - exact (proj1 (proj2 (proj2 (proj2 (C8_move_line_down_eof 0 H02))))).
Defined.

(** ** Find and replace *)

(** C9: when the regular-expression engine rejects the query, [findText]
    in regex mode returns no match ([npos]) and [replaceAll] in regex mode
    returns the editor as it was: document, cursors and undo log
    unchanged. *)
Theorem C9_invalid_regex `{RegexEngine} (e : Editor) :
  (∀ startPos query forward matchCase wholeWord,
     re_compile query (negb matchCase) = None ->
     Win.findText e startPos query forward matchCase wholeWord true = None)
  ∧ (searchRegex e = true ->
     re_compile (searchQuery e) (negb (searchMatchCase e)) = None ->
     Win.replaceAll e = e).
Proof.
  split.
  - intros startPos query forward matchCase wholeWord Hbad.
    unfold Win.findText. destruct query; [done|]. by rewrite Hbad.
  - intros Hre Hbad. unfold Win.replaceAll.
    destruct (searchQuery e); [done|]. by rewrite Hre, Hbad.
Qed.

Lemma C9_witness :
  searchRegex s9_editor = true
  ∧ @re_compile paren_engine (searchQuery s9_editor)
      (negb (searchMatchCase s9_editor)) = None
  ∧ @Win.findText paren_engine s9_editor 0 ["("%byte] true false false true = None
  ∧ @Win.replaceAll paren_engine s9_editor = s9_editor.
Proof.
  assert (H1 : searchRegex s9_editor = true) by reflexivity.
  assert (H2 : @re_compile paren_engine (searchQuery s9_editor)
                 (negb (searchMatchCase s9_editor)) = None)
    by (vm_compute; reflexivity).
  split_and!; [exact H1|exact H2|..].
  - exact (proj1 (@C9_invalid_regex paren_engine s9_editor) 0 ["("%byte] true
             false false H2).
  - exact (proj2 (@C9_invalid_regex paren_engine s9_editor) H1 H2).
Defined.

(** * Further properties of the code *)

(** ** Piece table *)

(** X1: [getRange(pos, count)] returns the bytes of the document from
    [pos], at most [count] of them and never past the end: exactly
    [min(count, length() - pos)] bytes, none when [pos] is at or past the
    end. *)
Theorem X1_getRange_slice (port : Port) (t : PieceTable) (p n : nat) :
  reachable port t ->
  PT.getRange t p n = take n (drop p (PT.document t))
  ∧ length (PT.getRange t p n) = min n (PT.length t - p)
  ∧ (PT.length t <= p -> PT.getRange t p n = []).
Proof.
  intros Hr. pose proof (reachable_wf _ _ Hr) as Hwf.
  pose proof (length_document t Hwf) as Hlen.
  assert (Heq : PT.getRange t p n = take n (drop p (PT.document t))).
  { by rewrite getRange_spec, document_spec. }
  rewrite Heq. split_and!; [done| |].
  - rewrite length_take, length_drop. lia.
  - intros Hp. by rewrite drop_ge, take_nil by lia.
Qed.

Lemma X1_witness :
  reachable Win32 abc_table ∧ PT.getRange abc_table 4 10 = ["c"; NL]%byte.
Proof.
  assert (Hr : reachable Win32 abc_table) by (apply reach_file; simpl; lia).
  split; [exact Hr|].
  rewrite (proj1 (X1_getRange_slice Win32 abc_table 4 10 Hr)).
  vm_compute. reflexivity.
Defined.

(** X2: [insert(pos, s)] puts [s] between the first [pos] bytes of the
    document and the rest (at the end when [pos] is past it); the length
    grows by [s.size()]. *)
Theorem X2_insert_text (port : Port) (t : PieceTable) (p : nat) (s : bytes) :
  reachable port t ->
  PT.document (PT.insert port p s t)
    = take p (PT.document t) ++ s ++ drop p (PT.document t)
  ∧ PT.length (PT.insert port p s t) = PT.length t + length s.
Proof.
  intros Hr. pose proof (reachable_wf _ _ Hr) as Hwf.
  split; [by apply document_insert|by apply length_insert].
Qed.

Lemma X2_witness :
  reachable MacOS abc_table
  ∧ PT.document (PT.insert MacOS 2 ["X"%byte] abc_table)
    = ["a"; NL; "X"; "b"; NL; "c"; NL]%byte.
Proof.
  assert (Hr : reachable MacOS abc_table) by (apply reach_file; simpl; lia).
  split; [exact Hr|].
  rewrite (proj1 (X2_insert_text MacOS abc_table 2 ["X"%byte] Hr)).
  vm_compute. reflexivity.
Defined.

(** X3: [erase(pos, count)] removes the bytes [pos, pos + count) of the
    document, stopping at the end; the length drops by
    [min(count, length() - pos)]. *)
Theorem X3_erase_text (port : Port) (t : PieceTable) (p n : nat) :
  reachable port t ->
  PT.document (PT.erase port p n t)
    = take p (PT.document t) ++ drop (p + n) (PT.document t)
  ∧ PT.length (PT.erase port p n t) = PT.length t - min n (PT.length t - p).
Proof.
  intros Hr. pose proof (reachable_wf _ _ Hr) as Hwf.
  destruct (erase_spec port p n t Hwf) as [Hwf' _].
  pose proof (document_erase port p n t Hwf) as Hd.
  split; [done|].
  rewrite <- !length_document, Hd by done.
  rewrite length_app, length_take, length_drop. lia.
Qed.

Lemma X3_witness :
  reachable Win32 abc_table
  ∧ PT.document (PT.erase Win32 1 3 abc_table) = ["a"; "c"; NL]%byte.
Proof.
  assert (Hr : reachable Win32 abc_table) by (apply reach_file; simpl; lia).
  split; [exact Hr|].
  rewrite (proj1 (X3_erase_text Win32 abc_table 1 3 Hr)).
  vm_compute. reflexivity.
Defined.

Lemma document_initFromFile (data : bytes) (size : nat) :
  size <= length data ->
  PT.document (PT.initFromFile data size) = take size data
  ∧ PT.length (PT.initFromFile data size) = size.
Proof.
  intros Hs. pose proof (wf_initFromFile data size Hs) as Hwf.
  assert (Hlen : PT.length (PT.initFromFile data size) = size).
  { unfold PT.length, PT.initFromFile. simpl.
    destruct (decide (0 < size)); simpl; lia. }
  split; [|done].
  rewrite document_spec by done. unfold PT.initFromFile. simpl.
  destruct (decide (0 < size)); simpl.
  - unfold piece_bytes, PT.buffer, slice. simpl.
    by rewrite drop_0, (right_id_L [] (++)).
  - by replace size with 0 by lia.
Qed.

(** X4: [initFromFile(data, size)] shows exactly the first [size] bytes of
    the mapping, and [initEmpty] an empty document. *)
Theorem X4_init_document (data : bytes) (size : nat) :
  size <= length data ->
  PT.document (PT.initFromFile data size) = take size data
  ∧ PT.length (PT.initFromFile data size) = size
  ∧ PT.document PT.initEmpty = []
  ∧ PT.length PT.initEmpty = 0.
Proof.
  intros Hs. destruct (document_initFromFile data size Hs) as [Hd Hl].
  split_and!; done.
Qed.

Lemma X4_witness :
  2 <= length doc_abc ∧ PT.document (PT.initFromFile doc_abc 2) = ["a"; NL]%byte.
Proof.
  assert (H2 : 2 <= length doc_abc) by (simpl; lia).
  split; [exact H2|].
  rewrite (proj1 (X4_init_document doc_abc 2 H2)). reflexivity.
Defined.

Lemma try_merge_length i ps ps' :
  PT.try_merge i ps = Some ps' -> S (length ps') = length ps.
Proof.
  unfold PT.try_merge.
  destruct (ps !! i) as [a|] eqn:Ha; [|done].
  destruct (ps !! S i) as [b|] eqn:Hb; [|done].
  destruct (_ && _); [|done]. intros [= <-].
  apply lookup_lt_Some in Hb.
  rewrite length_delete.
  - rewrite list.length_insert. lia.
  - apply lookup_lt_is_Some. rewrite list.length_insert. lia.
Qed.

Lemma coalesceAround_length idx ps :
  length (PT.coalesceAround idx ps) <= length ps.
Proof.
  unfold PT.coalesceAround. destruct ps as [|p0 ps0]; [done|].
  set (ps := p0 :: ps0).
  set (i := if decide (length ps <= idx) then length ps - 1 else idx).
  assert (H1 : ∃ ps1 i1,
    (if decide (0 < i) then
       match PT.try_merge (i - 1) ps with
       | Some ps' => (ps', i - 1)
       | None => (ps, i)
       end
     else (ps, i)) = (ps1, i1) ∧ length ps1 <= length ps).
  { destruct (decide (0 < i)); [|by eauto].
    destruct (PT.try_merge (i - 1) ps) as [ps'|] eqn:Hm; [|by eauto].
    apply try_merge_length in Hm. eexists _, _. split; [done|lia]. }
  destruct H1 as (ps1 & i1 & -> & Hle).
  destruct (decide (i1 + 1 < length ps1)); [|done].
  destruct (PT.try_merge i1 ps1) as [ps'|] eqn:Hm; [|done].
  apply try_merge_length in Hm. lia.
Qed.

(** X5: [coalesceAround] never changes the text: the bytes of the piece
    sequence are the same before and after, every piece stays non-empty and
    inside its buffer, and the number of pieces does not grow. *)
Theorem X5_coalesce_keeps_text (t : PieceTable) (idx : nat) :
  wf t ->
  bytes_of t (PT.coalesceAround idx (pieces t)) = bytes_of t (pieces t)
  ∧ Forall (piece_ok t) (PT.coalesceAround idx (pieces t))
  ∧ length (PT.coalesceAround idx (pieces t)) <= length (pieces t).
Proof.
  intros Hwf. destruct (coalesceAround_ok t (pieces t) idx Hwf) as [Hb Hok].
  split_and!; [done|done|apply coalesceAround_length].
Qed.

Lemma X5_witness :
  wf (PT.insert MacOS 1 ["Y"%byte] (PT.insert MacOS 0 ["X"%byte] PT.initEmpty))
  ∧ length (PT.coalesceAround 1
      (pieces (PT.insert MacOS 1 ["Y"%byte] (PT.insert MacOS 0 ["X"%byte] PT.initEmpty)))) <= 2.
Proof.
  assert (Hwf : wf (PT.insert MacOS 1 ["Y"%byte]
                      (PT.insert MacOS 0 ["X"%byte] PT.initEmpty))).
  { apply (reachable_wf MacOS). repeat constructor. }
  split; [exact Hwf|].
  exact (proj2 (proj2 (X5_coalesce_keeps_text _ 1 Hwf))).
Defined.

Lemma length_vec_insert {A} (i : nat) (x : A) (v : list A) :
  length (vec_insert i x v) = S (length v).
Proof.
  unfold vec_insert. rewrite length_app, length_take. simpl.
  rewrite length_drop. lia.
Qed.

Lemma length_split_at idx k p ps :
  length (PT.split_at idx k p ps) = S (length ps).
Proof. unfold PT.split_at. by rewrite length_vec_insert, list.length_insert. Qed.

Lemma length_finish port idx ps : length (PT.finish port idx ps) <= length ps.
Proof. destruct port; simpl; [apply coalesceAround_length|done]. Qed.

Lemma length_erase_run ps n : length (PT.erase_run ps n) <= length ps.
Proof.
  revert n. induction ps as [|p ps IH]; intros n; simpl; [done|].
  destruct (decide (0 < n)); [|done].
  destruct (decide (len p <= n)); simpl; [|done].
  specialize (IH (n - len p)). lia.
Qed.

(** X6: an [insert] adds at most two pieces to the table (the split halves
    and the new run) and an [erase] at most one (the split), whatever the
    arguments and in both builds. *)
Theorem X6_piece_count (port : Port) (t : PieceTable) (p n : nat) (s : bytes) :
  length (pieces (PT.insert port p s t)) <= length (pieces t) + 2
  ∧ length (pieces (PT.erase port p n t)) <= length (pieces t) + 1.
Proof.
  split.
  - unfold PT.insert. destruct (decide (s = [])); [lia|].
    destruct (PT.seek_insert (pieces t) p 0 0) as [cur idx].
    destruct (pieces t !! idx) as [q|].
    + destruct (decide (0 < p - cur ∧ p - cur < len q)); simpl.
      * etrans; [apply length_finish|].
        rewrite length_vec_insert, length_split_at. lia.
      * destruct (decide (p - cur = len q)); simpl;
          (etrans; [apply length_finish|]); rewrite length_vec_insert; lia.
    + simpl. etrans; [apply length_finish|]. rewrite length_vec_insert. lia.
  - unfold PT.erase. destruct (decide (n = 0)); [lia|].
    destruct (PT.seek_erase (pieces t) p 0 0) as [cur idx].
    destruct (pieces t !! idx) as [q|]; [|lia].
    destruct (decide (cur < p)); simpl.
    + etrans; [apply length_finish|].
      rewrite length_app.
      pose proof (length_erase_run
        (drop (S idx) (PT.split_at idx (p - cur) q (pieces t))) n) as He.
      rewrite length_drop in He. rewrite length_take.
      rewrite length_split_at in *. lia.
    + etrans; [apply length_finish|].
      rewrite length_app.
      pose proof (length_erase_run (drop idx (pieces t)) n) as He.
      rewrite length_drop in He. rewrite length_take. lia.
Qed.

Lemma coalesceAround_snoc ps a b :
  isOriginal a = false -> isOriginal b = false -> start a + len a = start b ->
  PT.coalesceAround (S (length ps)) (ps ++ [a; b])
    = ps ++ [mkPiece false (start a) (len a + len b)].
Proof.
  intros Ha Hb Hadj. unfold PT.coalesceAround.
  destruct (ps ++ [a; b]) as [|x l] eqn:E; [by destruct ps|].
  rewrite <- E. clear x l E.
  rewrite length_app. simpl length.
  destruct (decide (length ps + 2 <= S (length ps))); [lia|].
  destruct (decide (0 < S (length ps))); [|lia].
  replace (S (length ps) - 1) with (length ps) by lia.
  unfold PT.try_merge at 1.
  rewrite lookup_app_r by lia. rewrite Nat.sub_diag. simpl.
  rewrite lookup_app_r by lia.
  replace (S (length ps) - length ps) with 1 by lia. simpl.
  rewrite Ha, Hb. simpl. rewrite bool_decide_true by done.
  rewrite insert_app_r_alt by lia. rewrite Nat.sub_diag. simpl.
  set (m := mkPiece false (start a) (len a + len b)).
  change (ps ++ m :: [b]) with (ps ++ [m] ++ [b]).
  rewrite (assoc_L (++) ps [m]).
  replace (S (length ps)) with (length (ps ++ [m]))
    by (rewrite length_app; simpl; lia).
  rewrite delete_middle, (right_id_L [] (++)).
  rewrite length_app. simpl.
  destruct (decide (length ps + 1 < length ps + 1)); [lia|done].
Qed.

Lemma insert_at_end port (t : PieceTable) (p : nat) (s : bytes) :
  wf t -> PT.length t <= p -> s ≠ [] ->
  pieces (PT.insert port p s t)
    = PT.finish port (length (pieces t))
        (pieces t ++ [mkPiece false (length (addBuf t)) (length s)]).
Proof.
  intros Hwf Hp Hs. unfold PT.insert.
  destruct (decide (s = [])); [done|].
  destruct (PT.seek_insert (pieces t) p 0 0) as [cur idx] eqn:Hseek.
  destruct (seek_insert_spec _ _ _ _ _ _ Hseek) as (k & -> & Hk & -> & Hcur & Hnext).
  simpl. rewrite length_sum in Hp.
  assert (Hvi : vec_insert (length (pieces t))
                  (mkPiece false (length (addBuf t)) (length s)) (pieces t)
                = pieces t ++ [mkPiece false (length (addBuf t)) (length s)]).
  { unfold vec_insert. by rewrite take_ge, drop_ge by lia. }
  destruct (pieces t !! k) as [q|] eqn:Hq.
  - specialize (Hnext q eq_refl).
    pose proof (sum_len_take_S _ _ _ Hq) as HS.
    assert (Hlast : S k = length (pieces t)).
    { apply lookup_lt_Some in Hq as Hlt.
      destruct (decide (S k = length (pieces t))) as [|Hne]; [done|].
      destruct (lookup_lt_is_Some_2 (pieces t) (S k) ltac:(lia)) as [r Hr].
      pose proof (sum_len_take_S _ _ _ Hr) as HS2.
      assert (0 < len r).
      { eapply (Forall_lookup_1 _ _ _ _ Hwf Hr). }
      assert (sum_len (take (S (S k)) (pieces t)) <= sum_len (pieces t)).
      { rewrite <- (take_drop (S (S k)) (pieces t)) at 2. rewrite sum_len_app. lia. }
      lia. }
    assert (Htot : sum_len (take (S k) (pieces t)) = sum_len (pieces t)).
    { by rewrite Hlast, take_ge. }
    assert (Hoff : p - sum_len (take k (pieces t)) = len q) by lia.
    assert (0 < len q) by eapply (Forall_lookup_1 _ _ _ _ Hwf Hq).
    destruct (decide (0 < p - sum_len (take k (pieces t))
                      ∧ p - sum_len (take k (pieces t)) < len q)); [lia|].
    destruct (decide (p - sum_len (take k (pieces t)) = len q)); [|lia].
    simpl. by rewrite Hlast, Hvi.
  - simpl. by rewrite Hvi.
Qed.

(** X7: typing at the end of the document.  When the last piece is the run
    of the add buffer written last, the Win32 build extends that piece (the
    number of pieces stays the same), while the macOS port, which has no
    [coalesceAround], appends a new piece for every insert. *)
Theorem X7_append_coalesces (t : PieceTable) (ps : list Piece) (a : Piece)
    (p : nat) (s : bytes) :
  wf t -> pieces t = ps ++ [a] ->
  isOriginal a = false -> start a + len a = length (addBuf t) ->
  PT.length t <= p -> s ≠ [] ->
  pieces (PT.insert Win32 p s t)
    = ps ++ [mkPiece false (start a) (len a + length s)]
  ∧ pieces (PT.insert MacOS p s t)
    = ps ++ [a; mkPiece false (length (addBuf t)) (length s)].
Proof.
  intros Hwf Hps Ha Hadj Hp Hs.
  rewrite !insert_at_end by done. rewrite Hps. simpl.
  rewrite <- (assoc_L (++)). simpl. split; [|done].
  rewrite length_app. simpl.
  replace (length ps + 1) with (S (length ps)) by lia.
  by rewrite coalesceAround_snoc.
Qed.

Lemma X7_witness :
  pieces (PT.insert Win32 1 ["Y"%byte] (PT.insert Win32 0 ["X"%byte] PT.initEmpty))
    = [mkPiece false 0 2]
  ∧ pieces (PT.insert MacOS 1 ["Y"%byte] (PT.insert Win32 0 ["X"%byte] PT.initEmpty))
    = [mkPiece false 0 1; mkPiece false 1 1].
Proof.
  apply (X7_append_coalesces (PT.insert Win32 0 ["X"%byte] PT.initEmpty)
           [] (mkPiece false 0 1) 1 ["Y"%byte]).
  - apply (reachable_wf Win32). repeat constructor.
  - reflexivity.
  - reflexivity.
  - reflexivity.
  - vm_compute. lia.
  - discriminate.
Defined.

(** X8: reading one byte with [getRange(pos, 1)] gives the byte [charAt(pos)]
    returns, for every offset inside the document; at and past the end
    [getRange] gives nothing while [charAt] gives a space. *)
Theorem X8_getRange_charAt (port : Port) (t : PieceTable) (p : nat) :
  reachable port t ->
  (p < PT.length t -> PT.charAt t p = Some (byteAt t p)
                      ∧ PT.getRange t p 1 = [byteAt t p])
  ∧ (PT.length t <= p -> PT.charAt t p = Some SPACE ∧ PT.getRange t p 1 = []).
Proof.
  intros Hr. pose proof (reachable_wf _ _ Hr) as Hwf.
  pose proof (length_document t Hwf) as Hlen.
  unfold byteAt. rewrite charAt_spec, getRange_spec, <- document_spec by done.
  simpl. split; intros Hp.
  - destruct (lookup_lt_is_Some_2 (PT.document t) p ltac:(lia)) as [c Hc].
    rewrite Hc. simpl. split; [done|].
    by rewrite (drop_S _ _ _ Hc).
  - rewrite lookup_ge_None_2 by lia. simpl.
    by rewrite drop_ge by lia.
Qed.

Lemma X8_witness :
  reachable MacOS abc_table
  ∧ (2 < PT.length abc_table ->
     PT.charAt abc_table 2 = Some (byteAt abc_table 2)
     ∧ PT.getRange abc_table 2 1 = [byteAt abc_table 2]).
Proof.
  assert (Hr : reachable MacOS abc_table) by (apply reach_file; simpl; lia).
  split; [exact Hr|].
  exact (proj1 (X8_getRange_charAt MacOS abc_table 2 Hr)).
Defined.

(** ** Undo log and line lookup *)

(** X9: Win32 build.  When a batch is pushed while the save point lies above
    the undo stack (the saved state was undone away), the log stays modified
    through every later push, undo and redo: the saved state cannot be
    reached again. *)
Theorem X9_win_push_sentinel (b : EditBatch) (u : UndoManager) (steps : list LogStep) :
  (savePoint u > to_int (length (undoStack u)))%Z ->
  (Z.of_nat (length (undoStack (log_run Win32 (UM.push Win32 b u) steps))) < 2 ^ 31)%Z ->
  savePoint (log_run Win32 (UM.push Win32 b u) steps) = (-1)%Z
  ∧ UM.isModified (log_run Win32 (UM.push Win32 b u) steps) = true.
Proof.
  intros Hsp Hsmall.
  split; [|by apply win_push_sentinel].
  apply savePoint_log_run. simpl. by rewrite decide_True.
Qed.

Lemma X9_witness :
  UM.isModified
    (log_run Win32 (UM.push Win32 s2_batch (log_saved_then_undone s2_batch))
       [StepUndo; StepRedo; StepPush s2_batch; StepUndo; StepUndo]) = true.
Proof.
  apply (X9_win_push_sentinel s2_batch (log_saved_then_undone s2_batch)
           [StepUndo; StepRedo; StepPush s2_batch; StepUndo; StepUndo]).
  - vm_compute. reflexivity.
  - vm_compute. reflexivity.
Defined.

(** X10: [popUndo] moves the top batch of the undo stack onto the redo
    stack and [popRedo] moves it back: each undoes the other and neither
    touches the save point. *)
Theorem X10_pop_roundtrip (u u' : UndoManager) (b : EditBatch) :
  (UM.popUndo u = Some (b, u') ->
     UM.popRedo u' = Some (b, u) ∧ savePoint u' = savePoint u
     ∧ UM.canRedo u' = true)
  ∧ (UM.popRedo u = Some (b, u') ->
     UM.popUndo u' = Some (b, u) ∧ savePoint u' = savePoint u
     ∧ UM.canUndo u' = true).
Proof.
  destruct u as [us rs sp]. unfold UM.popUndo, UM.popRedo, UM.canUndo, UM.canRedo.
  simpl. split.
  - destruct (last us) as [x|] eqn:Hl; simpl; [|done].
    intros [= <- <-]. simpl.
    rewrite last_snoc, removelast_last. simpl.
    apply last_Some in Hl as [us' ->]. rewrite removelast_last.
    split_and!; [done|done|]. apply bool_decide_eq_true. by destruct rs.
  - destruct (last rs) as [x|] eqn:Hl; simpl; [|done].
    intros [= <- <-]. simpl.
    rewrite last_snoc, removelast_last. simpl.
    apply last_Some in Hl as [rs' ->]. rewrite removelast_last.
    split_and!; [done|done|]. apply bool_decide_eq_true. by destruct us.
Qed.

Lemma X10_witness :
  UM.popRedo (mkUM [] [s2_batch] 0) = Some (s2_batch, log_one_edit).
Proof.
  apply (proj1 (X10_pop_roundtrip log_one_edit (mkUM [] [s2_batch] 0) s2_batch)).
  reflexivity.
Defined.

Lemma to_int_succ_ne (n : nat) : to_int (S n) ≠ to_int n.
Proof.
  unfold to_int.
  pose proof (Z.div_mod (Z.of_nat (S n)) (2 ^ 32) ltac:(lia)) as H1.
  pose proof (Z.div_mod (Z.of_nat n) (2 ^ 32) ltac:(lia)) as H0.
  pose proof (Z.mod_pos_bound (Z.of_nat (S n)) (2 ^ 32) ltac:(lia)) as B1.
  pose proof (Z.mod_pos_bound (Z.of_nat n) (2 ^ 32) ltac:(lia)) as B0.
  change (2 ^ 32)%Z with 4294967296%Z in *.
  change (2 ^ 31)%Z with 2147483648%Z in *.
  destruct (Z.ltb_spec (Z.of_nat (S n) mod 4294967296) 2147483648);
    destruct (Z.ltb_spec (Z.of_nat n mod 4294967296) 2147483648); lia.
Qed.

(** X11: dirty tracking around a save, both builds.  Right after
    [markSaved] the log is not modified; one more [push] makes it modified;
    popping that batch again ([popUndo]) brings it back to not modified. *)
Theorem X11_save_point (port : Port) (u : UndoManager) (b : EditBatch) :
  UM.isModified (UM.markSaved u) = false
  ∧ UM.isModified (UM.push port b (UM.markSaved u)) = true
  ∧ ∃ u', UM.popUndo (UM.push port b (UM.markSaved u)) = Some (b, u')
          ∧ UM.isModified u' = false.
Proof.
  split_and!.
  - unfold UM.isModified, UM.markSaved. simpl.
    apply bool_decide_eq_false. by intros [].
  - unfold UM.isModified. apply bool_decide_eq_true.
    destruct port; simpl.
    + destruct (decide _); [lia|]. rewrite length_app. simpl.
      replace (length (undoStack u) + 1) with (S (length (undoStack u))) by lia.
      apply to_int_succ_ne.
    + rewrite length_app. simpl.
      replace (length (undoStack u) + 1) with (S (length (undoStack u))) by lia.
      apply to_int_succ_ne.
  - unfold UM.popUndo. simpl. rewrite last_snoc, removelast_last. simpl.
    eexists. split; [done|].
    unfold UM.isModified. simpl. apply bool_decide_eq_false. intros Hne.
    apply Hne. destruct port; simpl; [|done].
    by destruct (decide _); [lia|].
Qed.

Lemma increasing_tail a l : increasing (a :: l) -> increasing l.
Proof. intros Hinc i j x y Hij Hx Hy. apply (Hinc (S i) (S j)); [lia|done..]. Qed.

Lemma upper_bound_spec (v : list nat) (p : nat) :
  increasing v ->
  upper_bound v p <= length v
  ∧ (∀ i a, i < upper_bound v p -> v !! i = Some a -> a <= p)
  ∧ (∀ j b, upper_bound v p <= j -> v !! j = Some b -> p < b).
Proof.
  induction v as [|x v IH]; intros Hinc; simpl.
  - split_and!; [done|lia|]. intros j b _ Hb. by rewrite lookup_nil in Hb.
  - destruct (decide (p < x)) as [Hpx|Hpx].
    + split_and!; [lia|lia|]. intros j b _ Hb.
      destruct j as [|j]; simpl in Hb; [by injection Hb as <-|].
      assert (x < b); [|lia].
      apply (Hinc 0 (S j)); [lia|done..].
    + destruct (IH (increasing_tail _ _ Hinc)) as (Hle & Hlo & Hhi).
      split_and!; [lia| |].
      * intros [|i] a Hi Ha; simpl in Ha; [injection Ha as <-; lia|].
        apply (Hlo i); [lia|done].
      * intros [|j] b Hj Hb; [lia|]. simpl in Hb. apply (Hhi j); [lia|done].
Qed.

(** X12: [getLineIdx(pos)], both builds.  On a line index that starts with
    0 and is strictly increasing (what [rebuildLineStarts] leaves), with
    fewer than 2^31 lines, the result is the number [i] of the line that
    holds [pos]: a valid index with [lineStarts[i] <= pos], and every later
    line starts after [pos]. *)
Theorem X12_getLineIdx (port : Port) (e : Editor) (p : nat) :
  lineStarts e !! 0 = Some 0 ->
  increasing (lineStarts e) ->
  (Z.of_nat (length (lineStarts e)) < 2 ^ 31)%Z ->
  ∃ i a, Ed.getLineIdx port e p = Z.of_nat i
         ∧ lineStarts e !! i = Some a ∧ a <= p
         ∧ (∀ j b, i < j -> lineStarts e !! j = Some b -> p < b).
Proof.
  intros H0 Hinc Hsmall.
  destruct (upper_bound_spec (lineStarts e) p Hinc) as (Hle & Hlo & Hhi).
  set (k := upper_bound (lineStarts e) p) in *.
  assert (Hk : 0 < k).
  { destruct (decide (0 < k)) as [|Hk0]; [done|].
    pose proof (Hhi 0 0 ltac:(lia) H0). lia. }
  destruct (lookup_lt_is_Some_2 (lineStarts e) (k - 1) ltac:(lia)) as [a Ha].
  exists (k - 1), a.
  assert (Hidx : Ed.getLineIdx port e p = Z.of_nat (k - 1)).
  { unfold Ed.getLineIdx. fold k. clearbody k.
    rewrite !to_int_small by lia.
    destruct port.
    - destruct (lineStarts e) as [|x l] eqn:E; [done|].
      destruct (decide (Z.of_nat k - 1 < 0)%Z); [lia|].
      destruct (decide (Z.of_nat k - 1 >= _)%Z); lia.
    - lia. }
  split_and!; [done|done| |].
  - apply (Hlo (k - 1)); [lia|done].
  - intros j b Hj Hb. apply (Hhi j); [lia|done].
Qed.

Lemma X12_witness :
  ∃ i a, Ed.getLineIdx MacOS s2_editor 3 = Z.of_nat i
         ∧ lineStarts s2_editor !! i = Some a ∧ a <= 3
         ∧ (∀ j b, i < j -> lineStarts s2_editor !! j = Some b -> 3 < b).
Proof.
  apply (X12_getLineIdx MacOS s2_editor 3).
  - reflexivity.
  - intros i j a b Hij Ha Hb.
    assert (Hj : j < 4) by (apply lookup_lt_Some in Hb; vm_compute in Hb; lia).
    destruct j as [|[|[|[|j]]]]; [lia| | | |lia];
      destruct i as [|[|[|i]]]; try lia;
      vm_compute in Ha, Hb; injection Ha as <-; injection Hb as <-; lia.
  - vm_compute. reflexivity.
Defined.

(** ** Cursors: merging and word selection (Win32 build) *)

Ltac in_list_step :=
  repeat match goal with
  | H : _ ∈ _ |- _ =>
      progress (rewrite ?elem_of_app, ?elem_of_cons, ?elem_of_nil in H)
  end;
  rewrite ?elem_of_app, ?elem_of_cons, ?elem_of_nil;
  intuition (subst; eauto).
Ltac in_list := in_list_step; in_list_step.

Lemma elem_of_insert_by {A} (cmp : A -> A -> bool) (x y : A) (l : list A) :
  y ∈ insert_by cmp x l ↔ y = x ∨ y ∈ l.
Proof.
  induction l as [|z l IH]; simpl.
  - in_list.
  - destruct (cmp z x); rewrite !elem_of_cons; [rewrite IH|]; tauto.
Qed.

Lemma elem_of_sort_by {A} (cmp : A -> A -> bool) (y : A) (l : list A) :
  y ∈ sort_by cmp l ↔ y ∈ l.
Proof.
  unfold sort_by. induction l as [|x l IH]; simpl; [done|].
  rewrite elem_of_insert_by, elem_of_cons, IH. done.
Qed.

Lemma length_insert_by {A} (cmp : A -> A -> bool) (x : A) (l : list A) :
  length (insert_by cmp x l) = S (length l).
Proof.
  induction l as [|z l IH]; simpl; [done|].
  destruct (cmp z x); simpl; by rewrite ?IH.
Qed.

Lemma length_sort_by {A} (cmp : A -> A -> bool) (l : list A) :
  length (sort_by cmp l) = length l.
Proof.
  unfold sort_by. induction l as [|x l IH]; simpl; [done|].
  by rewrite length_insert_by, IH.
Qed.

Lemma merge_step_covers (merged : list Cursor) (curr : Cursor) :
  merged ≠ [] ->
  WinMore.merge_step merged curr ≠ []
  ∧ length (WinMore.merge_step merged curr) <= S (length merged)
  ∧ (∀ c, covered merged c -> covered (WinMore.merge_step merged curr) c)
  ∧ covered (WinMore.merge_step merged curr) curr.
Proof.
  intros Hne. unfold WinMore.merge_step.
  destruct (last merged) as [prev|] eqn:Hl.
  2:{ apply last_None in Hl. done. }
  apply last_Some in Hl as [pre ->].
  destruct (decide (Cur.start curr <= Cur.end_ prev)) as [Hov|Hno].
  - rewrite removelast_last.
    set (m := mkCursor _ _).
    assert (Hm : covers m prev ∧ covers m curr).
    { unfold covers, m, Cur.start, Cur.end_ in *.
      destruct (bool_decide (anchor prev <= head prev)); simpl; lia. }
    split_and!.
    + by destruct pre.
    + rewrite !length_app. simpl. lia.
    + intros c (x & Hx & Hc).
      apply elem_of_app in Hx as [Hx|Hx%list_elem_of_singleton].
      * exists x. split; [in_list|done].
      * subst x. exists m. split; [in_list|].
        unfold covers in *. lia.
    + exists m. split; [in_list|tauto].
  - split_and!.
    + by destruct pre.
    + rewrite !length_app. simpl. lia.
    + intros c (x & Hx & Hc). exists x. split; [in_list|done].
    + exists curr. split; [in_list|]. unfold covers. lia.
Qed.

Lemma merge_fold_covers (rest merged : list Cursor) :
  merged ≠ [] ->
  foldl WinMore.merge_step merged rest ≠ []
  ∧ length (foldl WinMore.merge_step merged rest) <= length merged + length rest
  ∧ (∀ c, covered merged c -> covered (foldl WinMore.merge_step merged rest) c)
  ∧ (∀ c, c ∈ rest -> covered (foldl WinMore.merge_step merged rest) c).
Proof.
  revert merged. induction rest as [|x rest IH]; intros merged Hne; simpl.
  - split_and!; [done|lia|done|]. by intros c ?%elem_of_nil.
  - destruct (merge_step_covers merged x Hne) as (Hne1 & Hlen1 & Hcov1 & Hx1).
    destruct (IH _ Hne1) as (Hne2 & Hlen2 & Hcov2 & Hrest2).
    split_and!; [done|lia|by auto|].
    intros c [->|Hc]%elem_of_cons; by auto.
Qed.

(** X13: [mergeCursors] never loses a selected byte and never adds a
    cursor.  Every cursor the editor had is covered by a cursor it has
    afterwards, the number of cursors does not grow, and a non-empty cursor
    list stays non-empty. *)
Theorem X13_mergeCursors_covers (e : Editor) :
  length (cursors (WinMore.mergeCursors e)) <= length (cursors e)
  ∧ (cursors e ≠ [] -> cursors (WinMore.mergeCursors e) ≠ [])
  ∧ (∀ c, c ∈ cursors e ->
       ∃ m, m ∈ cursors (WinMore.mergeCursors e) ∧ covers m c).
Proof.
  unfold WinMore.mergeCursors.
  set (cmp := λ a b : Cursor, bool_decide (head a < head b)).
  pose proof (length_sort_by cmp (cursors e)) as Hlen.
  pose proof (λ c, elem_of_sort_by cmp c (cursors e)) as Hel.
  destruct (sort_by cmp (cursors e)) as [|c0 rest] eqn:Hs.
  - split_and!; [done|done|].
    intros c Hc. apply Hel in Hc. by apply elem_of_nil in Hc.
  - simpl. destruct (merge_fold_covers rest [c0] ltac:(done))
      as (Hne & Hle & Hcov & Hrest).
    simpl in Hlen, Hle. split_and!; [lia|done|].
    intros c Hc. apply Hel in Hc.
    apply elem_of_cons in Hc as [->|Hc]; [|by apply Hrest].
    apply Hcov. exists c0. split; [in_list|]. unfold covers. lia.
Qed.

(** ** Carets *)

Lemma increasing_nil : increasing [].
Proof. intros i j a b _ Hi. by rewrite lookup_nil in Hi. Qed.

Lemma increasing_snoc (l : list nat) (x : nat) :
  increasing l -> (∀ y, y ∈ l -> y < x) -> increasing (l ++ [x]).
Proof.
  intros Hinc Hlt i j a b Hij Ha Hb.
  assert (Hj : j < length (l ++ [x])) by by eapply lookup_lt_Some.
  rewrite length_app in Hj. simpl in Hj.
  rewrite lookup_app_l in Ha by lia.
  destruct (decide (j < length l)) as [Hjl|Hjl].
  - rewrite lookup_app_l in Hb by lia. by eapply (Hinc i j).
  - rewrite lookup_app_r in Hb by lia.
    replace (j - length l) with 0 in Hb by lia. injection Hb as <-.
    apply Hlt. by eapply list_elem_of_lookup_2.
Qed.

Lemma insert_by_sorted (x : Cursor) (l : list Cursor) :
  heads_sorted l ->
  heads_sorted (insert_by (λ a b, bool_decide (head a < head b)) x l).
Proof.
  induction l as [|y l IH]; simpl.
  - done.
  - intros [Hy Hl]. case_bool_decide as Hyx; simpl.
    + split; [|by apply IH].
      apply Forall_insert_by; [lia|done].
    + split; [|done].
      constructor; [lia|]. eapply Forall_impl; [exact Hy|]. simpl. lia.
Qed.

Lemma sort_by_sorted (l : list Cursor) :
  heads_sorted (sort_by (λ a b, bool_decide (head a < head b)) l).
Proof.
  unfold sort_by. induction l as [|x l IH]; simpl; [done|].
  by apply insert_by_sorted.
Qed.

Lemma merge_step_caret (acc : list Cursor) (prev x : Cursor) :
  head prev = anchor prev -> head x = anchor x -> head prev <= head x ->
  WinMore.merge_step (acc ++ [prev]) x
    = if decide (head x = head prev) then acc ++ [prev] else acc ++ [prev] ++ [x].
Proof.
  intros Hp Hx Hle. unfold WinMore.merge_step.
  rewrite last_snoc, removelast_last.
  unfold Cur.start, Cur.end_. rewrite <- Hp, <- Hx, !Nat.min_id, !Nat.max_id.
  destruct (decide (head x <= head prev)) as [Hov|Hno].
  - rewrite decide_True by lia. rewrite bool_decide_true by done.
    replace (head x) with (head prev) by lia.
    rewrite Nat.min_id, Nat.max_id.
    do 2 f_equal. destruct prev; simpl in *; by subst.
  - rewrite decide_False by lia. by rewrite <- (assoc_L (++)).
Qed.

Lemma merge_fold_carets (rest acc : list Cursor) (prev : Cursor) :
  all_carets (acc ++ [prev]) -> all_carets rest ->
  increasing (head <$> acc) ->
  (∀ c, c ∈ acc -> head c < head prev) ->
  heads_sorted (prev :: rest) ->
  all_carets (foldl WinMore.merge_step (acc ++ [prev]) rest)
  ∧ increasing (head <$> foldl WinMore.merge_step (acc ++ [prev]) rest)
  ∧ (∀ c, c ∈ foldl WinMore.merge_step (acc ++ [prev]) rest
          ↔ c ∈ acc ++ [prev] ∨ c ∈ rest).
Proof.
  revert acc prev.
  induction rest as [|x rest IH]; intros acc prev Hacc Hrest Hinc Hlt Hs;
    cbn [foldl].
  - split_and!; [done| |in_list].
    rewrite fmap_app. apply increasing_snoc; [done|].
    intros y (c & -> & Hc)%list_elem_of_fmap. by apply Hlt.
  - apply Forall_cons in Hrest as [Hx Hrest].
    apply Forall_app in Hacc as Hacc2. destruct Hacc2 as [Hacc1 Hprev].
    apply Forall_inv in Hprev.
    destruct Hs as [Hall Hsx].
    apply Forall_cons in Hall as [Hpx Hall].
    rewrite merge_step_caret by done.
    destruct (decide (head x = head prev)) as [Heq|Hne].
    + (* the same caret again *)
      assert (Hxp : x = prev).
      { destruct x, prev; simpl in *; congruence. }
      subst x.
      destruct (IH acc prev Hacc Hrest Hinc Hlt) as (H1 & H2 & H3).
      { split; [done|]. by destruct Hsx. }
      split_and!; [done|done|].
      intros c. rewrite H3. in_list.
    + rewrite (assoc_L (++)).
      destruct (IH (acc ++ [prev]) x) as (H1 & H2 & H3).
      * apply Forall_app. split; [done|by apply Forall_singleton].
      * done.
      * rewrite fmap_app. apply increasing_snoc; [done|].
        intros y (c & -> & Hc)%list_elem_of_fmap. by apply Hlt.
      * intros c [Hc|Hc%list_elem_of_singleton]%elem_of_app.
        -- specialize (Hlt c Hc). lia.
        -- subst c. lia.
      * done.
      * split_and!; [done|done|].
        intros c. rewrite H3. in_list.
Qed.

(** X14: [mergeCursors] on carets.  When no cursor has a selection, the
    merged list holds exactly the carets the editor had, each position
    once, in strictly increasing order. *)
Theorem X14_mergeCursors_carets (e : Editor) :
  all_carets (cursors e) ->
  all_carets (cursors (WinMore.mergeCursors e))
  ∧ increasing (head <$> cursors (WinMore.mergeCursors e))
  ∧ (∀ c, c ∈ cursors (WinMore.mergeCursors e) ↔ c ∈ cursors e).
Proof.
  intros Hc. unfold WinMore.mergeCursors.
  set (cmp := λ a b : Cursor, bool_decide (head a < head b)).
  pose proof (λ c, elem_of_sort_by cmp c (cursors e)) as Hel.
  pose proof (sort_by_sorted (cursors e)) as Hs. fold cmp in Hs.
  pose proof (Forall_sort_by _ cmp _ Hc) as Hcs.
  destruct (sort_by cmp (cursors e)) as [|c0 rest] eqn:Hsort.
  - split_and!; [done| |].
    + destruct (cursors e) as [|x l] eqn:E; [|exfalso].
      * apply increasing_nil.
      * apply (elem_of_nil x), Hel. by left.
    + done.
  - simpl. apply Forall_cons in Hcs as [Hc0 Hrest].
    destruct (merge_fold_carets rest [] c0) as (H1 & H2 & H3).
    + by apply Forall_singleton.
    + done.
    + apply increasing_nil.
    + by intros c ?%elem_of_nil.
    + done.
    + simpl in *. split_and!; [done|done|].
      intros c. rewrite H3, <- Hel. in_list.
Qed.

Lemma X14_witness :
  all_carets [mkCursor 4 4; mkCursor 2 2; mkCursor 4 4]
  ∧ cursors (WinMore.mergeCursors
               (with_cursors s2_editor [mkCursor 4 4; mkCursor 2 2; mkCursor 4 4]))
    = [mkCursor 2 2; mkCursor 4 4]
  ∧ increasing (head <$> cursors (WinMore.mergeCursors
               (with_cursors s2_editor [mkCursor 4 4; mkCursor 2 2; mkCursor 4 4]))).
Proof.
  assert (Hc : all_carets [mkCursor 4 4; mkCursor 2 2; mkCursor 4 4]).
  { by repeat constructor. }
  split_and!; [exact Hc|reflexivity|].
  exact (proj1 (proj2 (X14_mergeCursors_carets
    (with_cursors s2_editor [mkCursor 4 4; mkCursor 2 2; mkCursor 4 4]) Hc))).
Defined.

Lemma X13_witness :
  cursors (WinMore.mergeCursors
             (with_cursors s2_editor [mkCursor 5 2; mkCursor 1 3])) ≠ []
  ∧ ∃ m, m ∈ cursors (WinMore.mergeCursors
                        (with_cursors s2_editor [mkCursor 5 2; mkCursor 1 3]))
         ∧ covers m (mkCursor 5 2).
Proof.
  pose proof (X13_mergeCursors_covers
                (with_cursors s2_editor [mkCursor 5 2; mkCursor 1 3]))
    as (_ & Hne & Hcov).
  split.
  - apply Hne. discriminate.
  - apply Hcov. simpl. by left.
Defined.

(** ** Word selection *)

Lemma word_start_spec (t : PieceTable) (ty : bool) (s : nat) :
  WinMore.word_start t ty s <= s
  ∧ (∀ i, WinMore.word_start t ty s <= i < s ->
          WinMore.word_break ty (byteAt t i) = false)
  ∧ (∀ r, WinMore.word_start t ty s = S r ->
          WinMore.word_break ty (byteAt t r) = true).
Proof.
  induction s as [|s IH]; simpl.
  - split_and!; [done|lia|done].
  - destruct (WinMore.word_break ty (byteAt t s)) eqn:Hb.
    + split_and!; [done|lia|]. by intros r [= <-].
    + destruct IH as (Hle & Hin & Hmax). split_and!; [lia| |done].
      intros i Hi. destruct (decide (i = s)) as [->|]; [done|].
      apply Hin. lia.
Qed.

Lemma word_end_spec (t : PieceTable) (ty : bool) (len : nat) :
  ∀ fuel e, len - e <= fuel -> e <= len ->
  e <= WinMore.word_end fuel t ty len e <= len
  ∧ (∀ i, e <= i < WinMore.word_end fuel t ty len e ->
          WinMore.word_break ty (byteAt t i) = false)
  ∧ (WinMore.word_end fuel t ty len e < len ->
       WinMore.word_break ty (byteAt t (WinMore.word_end fuel t ty len e)) = true).
Proof.
  induction fuel as [|fuel IH]; intros e Hf He; simpl.
  - split_and!; lia.
  - destruct (decide (e < len)) as [Hlt|Hge]; [|split_and!; lia].
    destruct (WinMore.word_break ty (byteAt t e)) eqn:Hb.
    + split_and!; try lia; done.
    + destruct (IH (S e) ltac:(lia) ltac:(lia)) as (Hle & Hin & Hmax).
      split_and!; try lia; try done.
      intros i Hi. destruct (decide (i = e)) as [->|]; [done|].
      apply Hin. lia.
Qed.

(** X15: [selectWordAt(pos)], Win32 build.  Past the end it leaves a
    caret at [pos]; on a newline it selects that newline; otherwise it
    selects the run around [pos] of bytes that are of the class of the byte
    at [pos] (word or non-word) and are not newlines: the run contains
    [pos], ends inside the document, and cannot be extended on either
    side. *)
Theorem X15_selectWordAt (e : Editor) (p : nat) :
  (PT.length (pt e) <= p ->
     cursors (WinMore.selectWordAt p e) = [mkCursor p p])
  ∧ (p < PT.length (pt e) -> byteAt (pt e) p = NL ->
     cursors (WinMore.selectWordAt p e) = [mkCursor (p + 1) p])
  ∧ (p < PT.length (pt e) -> byteAt (pt e) p ≠ NL ->
     ∃ s n, cursors (WinMore.selectWordAt p e) = [mkCursor n s]
       ∧ s <= p < n ∧ n <= PT.length (pt e)
       ∧ (∀ i, s <= i < n ->
            Win.isWordChar (byteAt (pt e) i) = Win.isWordChar (byteAt (pt e) p)
            ∧ byteAt (pt e) i ≠ NL)
       ∧ (∀ r, s = S r ->
            Win.isWordChar (byteAt (pt e) r) ≠ Win.isWordChar (byteAt (pt e) p)
            ∨ byteAt (pt e) r = NL)
       ∧ (n < PT.length (pt e) ->
            Win.isWordChar (byteAt (pt e) n) ≠ Win.isWordChar (byteAt (pt e) p)
            ∨ byteAt (pt e) n = NL)).
Proof.
  assert (Hbreak : ∀ ty c, WinMore.word_break ty c = false ->
            Win.isWordChar c = ty ∧ c ≠ NL).
  { intros ty c. unfold WinMore.word_break.
    case_bool_decide; destruct (Win.isWordChar c), ty; simpl; try done. }
  assert (Hstop : ∀ ty c, WinMore.word_break ty c = true ->
            Win.isWordChar c ≠ ty ∨ c = NL).
  { intros ty c. unfold WinMore.word_break.
    case_bool_decide; [by right|].
    destruct (Win.isWordChar c), ty; simpl; try done; by left. }
  unfold WinMore.selectWordAt. split_and!.
  - intros Hp. by rewrite decide_True by done.
  - intros Hp Hnl. rewrite decide_False by lia. by rewrite decide_True by done.
  - intros Hp Hnl. rewrite decide_False by lia. rewrite decide_False by done.
    set (ty := Win.isWordChar (byteAt (pt e) p)).
    set (len := PT.length (pt e)) in *.
    destruct (word_start_spec (pt e) ty p) as (Hsle & Hsin & Hsmax).
    destruct (word_end_spec (pt e) ty len (len - p) p ltac:(lia) ltac:(lia))
      as (Hele & Hein & Hemax).
    set (s := WinMore.word_start (pt e) ty p) in *.
    set (n := WinMore.word_end (len - p) (pt e) ty len p) in *.
    assert (Hpn : p < n).
    { destruct (decide (p < n)) as [|Hnp]; [done|].
      assert (n = p) by lia.
      assert (Hb : WinMore.word_break ty (byteAt (pt e) n) = true)
        by (apply Hemax; lia).
      replace n with p in Hb by done.
      unfold WinMore.word_break, ty in Hb.
      rewrite Bool.eqb_reflx, bool_decide_false in Hb by done. done. }
    exists s, n. simpl. split_and!; [done|lia|lia|lia| | |].
    + intros i Hi. apply Hbreak.
      destruct (decide (i < p)); [apply Hsin|apply Hein]; lia.
    + intros r Hr. by apply Hstop, Hsmax.
    + intros Hn. by apply Hstop, Hemax.
Qed.

Lemma X15_witness :
  3 < PT.length (pt words_editor) ∧ byteAt (pt words_editor) 3 ≠ NL
  ∧ cursors (WinMore.selectWordAt 3 words_editor) = [mkCursor 5 3]
  ∧ ∃ s n, cursors (WinMore.selectWordAt 3 words_editor) = [mkCursor n s]
           ∧ s <= 3 < n.
Proof.
  assert (H1 : 3 < PT.length (pt words_editor)) by (vm_compute; lia).
  assert (H2 : byteAt (pt words_editor) 3 ≠ NL) by (vm_compute; discriminate).
  split_and!; [exact H1|exact H2|reflexivity|].
  destruct (proj2 (proj2 (X15_selectWordAt words_editor 3)) H1 H2)
    as (s & n & Hc & Hs & _).
  exists s, n. split; [exact Hc|exact Hs].
Defined.

(** ** Edit intents of the Win32 build *)

Lemma wsub_exact (a b : nat) :
  b <= a -> (Z.of_nat a < 2 ^ 64)%Z -> wsub a b = a - b.
Proof.
  intros Hle Ha. unfold wsub, to_size_t.
  rewrite Z.mod_small by lia. lia.
Qed.

Lemma wadd_exact (a b : nat) :
  (Z.of_nat (a + b) < 2 ^ 64)%Z -> wadd a b = a + b.
Proof.
  intros Ha. unfold wadd, to_size_t.
  rewrite Z.mod_small by lia. lia.
Qed.

Lemma byteAt_document (t : PieceTable) (p : nat) (c : byte) :
  wf t -> PT.document t !! p = Some c -> byteAt t p = c.
Proof. intros Hwf Hc. unfold byteAt. by rewrite charAt_spec, Hc. Qed.

(** Undoing a recorded list of operations gives back the text it was
    recorded from. *)
Lemma undo_recorded_document port t0 l t :
  wf t0 -> recorded port t0 l t -> counts_fit port l ->
  PT.document (Ed.undo_ops port l t) = PT.document t0.
Proof.
  intros Hwf Hrec Hfit.
  destruct (recorded_recorded_text _ _ _ _ Hwf Hrec) as [Hwf' Hrt].
  destruct (undo_ops_document port l t Hfit Hwf') as [_ ->].
  by apply recorded_text_undo.
Qed.

Lemma counts_fit_win l : counts_fit Win32 l.
Proof. unfold counts_fit. by apply Forall_forall. Qed.

Section WinSearch.

Context `{RegexEngine}.

Lemma win_match_at_sound (t : PieceTable) (mc : bool) (q : bytes) :
  wf t -> ∀ p,
  Win.match_at t (PT.length t) mc q p = true ->
  (q ≠ [] -> p + length q <= PT.length t)
  ∧ same_text mc (take (length q) (drop p (PT.document t))) q.
Proof.
  intros Hwf. pose proof (length_document t Hwf) as Hlen.
  induction q as [|c2 q IH]; intros p; simpl.
  - intros _. split; [done|]. rewrite take_0. by destruct mc.
  - destruct (decide (PT.length t <= p)) as [|Hp]; [done|].
    destruct (lookup_lt_is_Some_2 (PT.document t) p ltac:(lia)) as [d Hd].
    rewrite (byteAt_document t p d Hwf Hd), (drop_S _ _ _ Hd).
    assert (Hstep : Win.match_at t (PT.length t) mc q (S p) = true ->
              (p + S (length q) <= PT.length t)
              ∧ same_text mc (take (length q) (drop (S p) (PT.document t))) q).
    { intros Hm. destruct (IH _ Hm) as [Hb Hs]. split; [|done].
      destruct q; [simpl; lia|]. specialize (Hb ltac:(done)). simpl in *. lia. }
    destruct mc; simpl.
    + destruct (decide (d = c2)) as [->|]; [|done].
      intros Hm. destruct (Hstep Hm) as [Hb Hs]. split; [done|].
      unfold same_text in *. by rewrite Hs.
    + destruct (decide (Win.toLower d = Win.toLower c2)) as [Heq|]; [|done].
      intros Hm. destruct (Hstep Hm) as [Hb Hs]. split; [done|].
      unfold same_text in *. simpl. simpl in Hs. by f_equal.
Qed.

Lemma win_find_loop_match fuel t len query forward matchCase wholeWord :
  ∀ cur p,
    Win.find_loop fuel t len query forward matchCase wholeWord cur = Some p ->
    Win.match_at t len matchCase query p = true.
Proof.
  induction fuel as [|fuel IH]; intros cur p; simpl; [done|].
  destruct (Win.match_at t len matchCase query cur) eqn:Hm; simpl.
  - match goal with |- context [if ?c then Some cur else _] => destruct c end.
    + by intros [= <-].
    + apply IH.
  - apply IH.
Qed.

(** X16: the plain search of [findText] (Win32 build) only reports real
    occurrences.  Whatever the start position, the direction and the
    whole-word flag, a position it returns is one where the whole query
    fits inside the document and matches the text byte for byte, or up to
    the case of ASCII letters when the search ignores case. *)
Theorem X16_win_findText_sound (e : Editor) (startPos : nat) (query : bytes)
    (forward matchCase wholeWord : bool) (p : nat) :
  reachable Win32 (pt e) ->
  Win.findText e startPos query forward matchCase wholeWord false = Some p ->
  p + length query <= PT.length (pt e)
  ∧ same_text matchCase
      (take (length query) (drop p (PT.document (pt e)))) query.
Proof.
  intros Hr. pose proof (reachable_wf _ _ Hr) as Hwf.
  unfold Win.findText. destruct query as [|c query]; [done|].
  intros Hf%win_find_loop_match.
  destruct (win_match_at_sound (pt e) matchCase (c :: query) Hwf p Hf) as [Hb Hs].
  split; [by apply Hb|done].
Qed.

End WinSearch.

Lemma X16_witness :
  Win.findText (H := paren_engine) s2_editor 1 ["b"%byte; NL] true true false false
    = Some 2
  ∧ same_text true (take 2 (drop 2 (PT.document (pt s2_editor)))) ["b"%byte; NL].
Proof.
  assert (Hr : reachable Win32 (pt s2_editor)) by (apply reach_file; simpl; lia).
  assert (Hf : Win.findText (H := paren_engine) s2_editor 1 ["b"%byte; NL]
                 true true false false = Some 2) by reflexivity.
  split; [exact Hf|].
  exact (proj2 (X16_win_findText_sound (H := paren_engine) s2_editor 1
                  ["b"%byte; NL] true true false 2 Hr Hf)).
Defined.

(** *** Drag and drop *)

Lemma drag_backward_bytes (A M T C : bytes) :
  ins_bytes (length A) T
    (del_bytes (length A + length M) (length T) (A ++ M ++ T ++ C))
  = A ++ T ++ M ++ C.
Proof.
  unfold ins_bytes, del_bytes.
  rewrite (assoc_L (++) A M), (assoc_L (++) (A ++ M) T).
  rewrite <- (length_app A M), <- (length_app (A ++ M) T).
  rewrite drop_app_length.
  rewrite <- (assoc_L (++) (A ++ M) T), take_app_length.
  rewrite <- !(assoc_L (++)).
  by rewrite take_app_length, drop_app_length.
Qed.

Lemma drag_forward_bytes (A T M C : bytes) :
  ins_bytes (length A + length T + length M - length T) T
    (del_bytes (length A) (length T) (A ++ T ++ M ++ C))
  = A ++ M ++ T ++ C.
Proof.
  unfold ins_bytes, del_bytes.
  rewrite take_app_length.
  rewrite (assoc_L (++) A T), <- (length_app A T), drop_app_length.
  replace (length (A ++ T) + length M - length T) with (length (A ++ M))
    by (rewrite !length_app; lia).
  rewrite (assoc_L (++) A M), take_app_length, drop_app_length.
  by rewrite <- !(assoc_L (++)).
Qed.

Lemma drag_general (e : Editor) (src srcEnd dest : nat) :
  wf (pt e) -> src <= srcEnd -> srcEnd <= PT.length (pt e) ->
  dest <= PT.length (pt e) -> (Z.of_nat (PT.length (pt e)) < 2 ^ 64)%Z ->
  ¬ (src <= dest ∧ dest <= srcEnd) ->
  let n := srcEnd - src in
  let ip := if decide (src < dest) then dest - n else dest in
  let e' := WinMore.performDragMove src srcEnd dest e in
  PT.document (pt e')
    = ins_bytes ip (take n (drop src (PT.document (pt e))))
        (del_bytes src n (PT.document (pt e)))
  ∧ cursors e' = [mkCursor (ip + n) ip]
  ∧ lineStarts e' = lineStartsOf (pt e')
  ∧ PT.document (pt (Ed.performUndo Win32 e')) = PT.document (pt e)
  ∧ cursors (Ed.performUndo Win32 e') = cursors e.
Proof.
  intros Hwf Hse Hend Hdest Hsmall Hout n ip e'.
  pose proof (length_document (pt e) Hwf) as Hlen.
  assert (Htxt : PT.getRange (pt e) src (wsub srcEnd src)
                 = take n (drop src (PT.document (pt e)))).
  { rewrite wsub_exact by lia. by rewrite getRange_spec, <- document_spec. }
  assert (Hn : length (take n (drop src (PT.document (pt e)))) = n).
  { rewrite length_take, length_drop. lia. }
  destruct (erase_spec Win32 src n (pt e) Hwf) as [Hwf1 _].
  pose proof (document_erase Win32 src n (pt e) Hwf) as Hd1.
  assert (Hlen1 : PT.length (PT.erase Win32 src n (pt e)) = PT.length (pt e) - n).
  { rewrite <- !length_document, Hd1 by done.
    rewrite length_app, length_take, length_drop. lia. }
  assert (Hip : (if decide (src < dest) then wsub dest n else dest) = ip).
  { unfold ip. destruct (decide (src < dest)); [|done].
    apply wsub_exact; lia. }
  assert (Hipn : wadd ip n = ip + n).
  { apply wadd_exact. unfold ip. destruct (decide (src < dest)); lia. }
  assert (He' : pt e' = PT.insert Win32 ip (take n (drop src (PT.document (pt e))))
                          (PT.erase Win32 src n (pt e))
                ∧ cursors e' = [mkCursor (ip + n) ip]
                ∧ lineStarts e' = lineStartsOf (pt e')
                ∧ undo e' = UM.push Win32
                    (mkBatch [mkOp Erase src (take n (drop src (PT.document (pt e))));
                              mkOp Insert ip (take n (drop src (PT.document (pt e))))]
                       (cursors e) [mkCursor (ip + n) ip]) (undo e)).
  { unfold e', WinMore.performDragMove.
    rewrite decide_False by done. rewrite Htxt, Hn, Hip, Hipn. done. }
  destruct He' as (Hpt & Hcs & Hls & Hun).
  split_and!; [|done|done| |].
  - rewrite Hpt. by rewrite document_insert, Hd1.
  - destruct (performUndo_top Win32 e' (undoStack (undo e)) _
                ltac:(by rewrite Hun)) as (Hpt' & _ & _).
    rewrite Hpt'. apply undo_recorded_document; [done| |apply counts_fit_win].
    cbn [ops]. rewrite <- Htxt at 1. rewrite Hpt. constructor.
    rewrite wsub_exact by lia. fold n.
    constructor; [|constructor].
    rewrite Hlen1. unfold ip. destruct (decide (src < dest)); lia.
  - destruct (performUndo_top Win32 e' (undoStack (undo e)) _
                ltac:(by rewrite Hun)) as (_ & _ & Hc').
    by rewrite Hc'.
Qed.

(** X17: [performDragMove] (Win32 build).  Dropping inside the dragged
    range does nothing.  Otherwise the dragged bytes [T] leave their place
    and land at the drop position, the bytes [M] they jump over and the rest
    of the text ([A], [C]) keep their order, the moved bytes end up
    selected, the line index is rebuilt, and one [performUndo] gives back
    the text and the cursors from before the drag. *)
Theorem X17_drag_move (e : Editor) (A T M C : bytes) :
  reachable Win32 (pt e) ->
  (Z.of_nat (PT.length (pt e)) < 2 ^ 64)%Z ->
  M ≠ [] ->
  (∀ src srcEnd dest, src <= dest ∧ dest <= srcEnd ->
     WinMore.performDragMove src srcEnd dest e = e)
  ∧ (PT.document (pt e) = A ++ M ++ T ++ C ->
     let e' := WinMore.performDragMove (length A + length M)
                 (length A + length M + length T) (length A) e in
     PT.document (pt e') = A ++ T ++ M ++ C
     ∧ cursors e' = [mkCursor (length A + length T) (length A)]
     ∧ lineStarts e' = lineStartsOf (pt e')
     ∧ PT.document (pt (Ed.performUndo Win32 e')) = A ++ M ++ T ++ C
     ∧ cursors (Ed.performUndo Win32 e') = cursors e)
  ∧ (PT.document (pt e) = A ++ T ++ M ++ C ->
     let e' := WinMore.performDragMove (length A) (length A + length T)
                 (length A + length T + length M) e in
     PT.document (pt e') = A ++ M ++ T ++ C
     ∧ cursors e' = [mkCursor (length A + length M + length T) (length A + length M)]
     ∧ lineStarts e' = lineStartsOf (pt e')
     ∧ PT.document (pt (Ed.performUndo Win32 e')) = A ++ T ++ M ++ C
     ∧ cursors (Ed.performUndo Win32 e') = cursors e).
Proof.
  intros Hr Hsmall HM. pose proof (reachable_wf _ _ Hr) as Hwf.
  pose proof (length_document (pt e) Hwf) as Hlen.
  assert (HMl : 0 < length M) by (destruct M; [done|simpl; lia]).
  split_and!.
  - intros src srcEnd dest Hin. unfold WinMore.performDragMove.
    by rewrite decide_True by done.
  - intros HD e'. rewrite HD, !length_app in Hlen.
    destruct (drag_general e (length A + length M)
                (length A + length M + length T) (length A))
      as (Hd & Hc & Hl & Hu & Hcu); try done; try lia.
    fold e' in Hd, Hc, Hl, Hu, Hcu.
    replace (length A + length M + length T - (length A + length M))
      with (length T) in * by lia.
    rewrite decide_False in * by lia.
    split_and!; [|done|done|by rewrite Hu|done].
    rewrite Hd, HD.
    replace (take (length T) (drop (length A + length M) (A ++ M ++ T ++ C)))
      with T.
    + apply drag_backward_bytes.
    + rewrite (assoc_L (++) A M), <- (length_app A M), drop_app_length.
      by rewrite take_app_length.
  - intros HD e'. rewrite HD, !length_app in Hlen.
    destruct (drag_general e (length A) (length A + length T)
                (length A + length T + length M))
      as (Hd & Hc & Hl & Hu & Hcu); try done; try lia.
    fold e' in Hd, Hc, Hl, Hu, Hcu.
    replace (length A + length T - length A) with (length T) in * by lia.
    rewrite decide_True in * by lia.
    split_and!; [| |done|by rewrite Hu|done].
    + rewrite Hd, HD.
      replace (take (length T) (drop (length A) (A ++ T ++ M ++ C))) with T.
      * apply drag_forward_bytes.
      * by rewrite drop_app_length, take_app_length.
    + rewrite Hc. do 2 f_equal; lia.
Qed.

Lemma X17_witness :
  PT.document (pt (WinMore.performDragMove 4 6 0 s2_editor))
    = ["c"; NL; "a"; NL; "b"; NL]%byte
  ∧ cursors (WinMore.performDragMove 4 6 0 s2_editor) = [mkCursor 2 0].
Proof.
  assert (Hr : reachable Win32 (pt s2_editor)) by (apply reach_file; simpl; lia).
  assert (Hs : (Z.of_nat (PT.length (pt s2_editor)) < 2 ^ 64)%Z)
    by (vm_compute; reflexivity).
  assert (HM : ["a"; NL; "b"; NL]%byte ≠ []) by discriminate.
  destruct (X17_drag_move s2_editor [] ["c"; NL]%byte ["a"; NL; "b"; NL]%byte []
              Hr Hs HM) as (_ & Hback & _).
  destruct (Hback eq_refl) as (Hd & Hc & _).
  split; [exact Hd|exact Hc].
Defined.

(** *** Pending padding *)

Lemma rollback_fold (l : list EditOp) :
  all_inserts l -> ∀ e,
  pt (foldl WinMore.rollback_op e l) = foldl (Ed.undo_op Win32) (pt e) l
  ∧ undo (foldl WinMore.rollback_op e l) = undo e.
Proof.
  induction 1 as [|o l Ho Hl IH]; intros e; cbn [foldl]; [done|].
  destruct (IH (WinMore.rollback_op e o)) as [-> ->].
  unfold WinMore.rollback_op, Ed.undo_op. by rewrite Ho.
Qed.

(** X18: [rollbackPadding] (Win32 build) takes the padding back out.  When
    the pending operations are the inserts that led from a table [t0] to the
    current one (padding is only ever inserted), the text is again the text
    of [t0], the pending batch is empty, the undo log is untouched and the
    line index is the one of the restored text. *)
Theorem X18_rollbackPadding (e : Editor) (t0 : PieceTable) :
  reachable Win32 t0 ->
  recorded Win32 t0 (ops (pendingPadding e)) (pt e) ->
  all_inserts (ops (pendingPadding e)) ->
  ops (pendingPadding e) ≠ [] ->
  PT.document (pt (WinMore.rollbackPadding e)) = PT.document t0
  ∧ pendingPadding (WinMore.rollbackPadding e) = mkBatch [] [] []
  ∧ undo (WinMore.rollbackPadding e) = undo e
  ∧ lineStarts (WinMore.rollbackPadding e) = lineStartsOf t0.
Proof.
  intros Hr Hrec Hins Hne. pose proof (reachable_wf _ _ Hr) as Hwf.
  unfold WinMore.rollbackPadding.
  destruct (ops (pendingPadding e)) as [|o l] eqn:Hops; [done|].
  rewrite <- Hops in *. clear o l Hops.
  destruct (rollback_fold (rev (ops (pendingPadding e)))
              ltac:(by apply List.Forall_rev) e) as [Hpt Hun].
  assert (Hdoc : PT.document (pt (foldl WinMore.rollback_op e
                                    (rev (ops (pendingPadding e)))))
                 = PT.document t0).
  { rewrite Hpt. apply (undo_recorded_document Win32 t0); [done..|].
    apply counts_fit_win. }
  assert (Hwf' : wf (pt (foldl WinMore.rollback_op e (rev (ops (pendingPadding e)))))).
  { rewrite Hpt.
    destruct (recorded_recorded_text _ _ _ _ Hwf Hrec) as [Hwfe _].
    apply (undo_ops_document Win32 _ _ (counts_fit_win _) Hwfe). }
  split_and!; [done|done|done|].
  simpl. by rewrite !lineStartsOf_spec, Hdoc.
Qed.

Lemma X18_witness :
  PT.document (pt padded_editor) = ["a"; SPACE; SPACE; NL; "b"; NL; "c"; NL]%byte
  ∧ PT.document (pt (WinMore.rollbackPadding padded_editor)) = doc_abc.
Proof.
  split; [reflexivity|].
  apply (X18_rollbackPadding padded_editor (pt s2_editor)).
  - apply reach_file. simpl. lia.
  - apply (rec_insert Win32 (pt s2_editor) 1 [SPACE; SPACE] []).
    + vm_compute. lia.
    + apply rec_nil.
  - repeat constructor.
  - discriminate.
Defined.

(** *** Escapes of the replacement text *)

Lemma UnescapeString_cons (c d : byte) (rest : bytes) :
  UnescapeString (c :: d :: rest)
  = if decide (c = "\"%byte) then
      (if decide (d = "n"%byte) then [NL]
       else if decide (d = "r"%byte) then [CR]
       else if decide (d = "t"%byte) then [x09]
       else if decide (d = "\"%byte) then ["\"%byte]
       else [c; d]) ++ UnescapeString rest
    else c :: UnescapeString (d :: rest).
Proof. reflexivity. Qed.

Lemma UnescapeString_props (n : nat) :
  ∀ s, length s <= n ->
  length (UnescapeString s) <= length s
  ∧ ("\"%byte ∉ s -> UnescapeString s = s).
Proof.
  induction n as [|n IH]; intros s Hn.
  - destruct s; [done|simpl in Hn; lia].
  - destruct s as [|c [|d rest]]; [done|done|].
    rewrite UnescapeString_cons. simpl in Hn.
    destruct (IH rest ltac:(lia)) as [Hl1 He1].
    destruct (IH (d :: rest) ltac:(simpl; lia)) as [Hl2 He2].
    destruct (decide (c = "\"%byte)) as [->|Hc].
    + split.
      * rewrite length_app.
        repeat (destruct (decide _); [simpl; lia|]). simpl. lia.
      * intros Hnin. exfalso. apply Hnin. by left.
    + split.
      * simpl in *. lia.
      * intros Hnin. f_equal. apply He2.
        intros Hin. apply Hnin. by right.
Qed.

(** X19: [UnescapeString] never makes the text longer, and a text without
    a backslash comes back unchanged. *)
Theorem X19_UnescapeString (s : bytes) :
  length (UnescapeString s) <= length s
  ∧ ("\"%byte ∉ s -> UnescapeString s = s).
Proof. by apply (UnescapeString_props (length s)). Qed.

Lemma X19_witness :
  UnescapeString ["a"; "\"; "n"; "\"; "q"; "\"]%byte = ["a"; NL; "\"; "q"; "\"]%byte
  ∧ UnescapeString ["a"; "n"]%byte = ["a"; "n"]%byte.
Proof.
  split; [reflexivity|].
  apply (proj2 (X19_UnescapeString ["a"; "n"]%byte)).
  intros Hin. repeat (apply elem_of_cons in Hin as [Hin|Hin]; [discriminate|]).
  by apply elem_of_nil in Hin.
Defined.

(** *** Typing at carets *)

Lemma win_insert_at_length txt e b idx :
  carets_ok e -> idx < length (cursors e) ->
  PT.length (pt (Win.insert_at txt (e, b) idx).1) = PT.length (pt e) + length txt
  ∧ length (cursors (Win.insert_at txt (e, b) idx).1) = length (cursors e)
  ∧ undo (Win.insert_at txt (e, b) idx).1 = undo e.
Proof.
  intros [Hwf Hcs] Hidx. unfold Win.insert_at.
  destruct (lookup_lt_is_Some_2 (cursors e) idx Hidx) as [c ->]. simpl.
  rewrite length_insert by done. by rewrite length_fmap.
Qed.

Lemma win_insert_loop_length txt indices :
  ∀ e b, carets_ok e -> Forall (λ i, i < length (cursors e)) indices ->
  PT.length (pt (foldl (Win.insert_at txt) (e, b) indices).1)
    = PT.length (pt e) + length indices * length txt
  ∧ undo (foldl (Win.insert_at txt) (e, b) indices).1 = undo e.
Proof.
  induction indices as [|idx indices IH]; intros e b Hok Hall; cbn [foldl].
  - simpl. split; [lia|done].
  - apply Forall_cons in Hall as [Hidx Hall].
    destruct (win_insert_at_recorded txt e b idx Hok) as (e1 & l1 & Heq & Hok1 & _).
    destruct (win_insert_at_length txt e b idx Hok Hidx) as (Hl1 & Hc1 & Hu1).
    rewrite Heq in *. simpl in Hl1, Hc1, Hu1.
    destruct (IH e1 (b ++ l1) Hok1) as [Hl2 Hu2].
    { by rewrite Hc1. }
    rewrite Hl2, Hu2, Hl1, Hu1. simpl. split; [lia|done].
Qed.

Lemma sorted_indices_props (cs : list Cursor) :
  length (Win.sorted_indices cs) = length cs
  ∧ Forall (λ i, i < length cs) (Win.sorted_indices cs).
Proof.
  unfold Win.sorted_indices. split.
  - by rewrite length_sort_by, length_seq.
  - apply Forall_sort_by, Forall_forall. intros i Hi%elem_of_seq. lia.
Qed.

Lemma win_insertAtCursors_carets (txt : bytes) (e : Editor) :
  carets_ok e -> cursors e ≠ [] ->
  let e' := Win.insertAtCursors txt e in
  PT.length (pt e') = PT.length (pt e) + length (cursors e) * length txt
  ∧ (∃ b, undoStack (undo e') = undoStack (undo (Win.commitPadding e)) ++ [b]
          ∧ beforeCursors b = cursors e ∧ afterCursors b = cursors e')
  ∧ redoStack (undo e') = []
  ∧ lineStarts e' = lineStartsOf (pt e')
  ∧ PT.document (pt (Ed.performUndo Win32 e')) = PT.document (pt e)
  ∧ cursors (Ed.performUndo Win32 e') = cursors e.
Proof.
  intros Hok Hne e'.
  set (e0 := Win.commitPadding e).
  assert (Hpt0 : pt e0 = pt e ∧ cursors e0 = cursors e).
  { unfold e0, Win.commitPadding. by destruct (ops (pendingPadding e)). }
  destruct Hpt0 as [Hpt0 Hcs0].
  assert (Hok0 : carets_ok e0) by (unfold carets_ok; by rewrite Hpt0, Hcs0).
  destruct (sorted_indices_props (cursors e0)) as [Hlen Hall].
  destruct (win_insert_loop_recorded txt (Win.sorted_indices (cursors e0)) e0 [] Hok0)
    as (e1 & l & Hfold & Hok1 & Hrec).
  destruct (win_insert_loop_length txt (Win.sorted_indices (cursors e0)) e0 []
              Hok0 Hall) as [Hl1 Hu1].
  rewrite Hfold in Hl1, Hu1. simpl in Hl1, Hu1.
  assert (He' : e' = Ed.updateDirtyFlag (Ed.rebuildLineStarts
            (with_undo e1 (UM.push Win32 (mkBatch l (cursors e0) (cursors e1))
                             (undo e1))))).
  { unfold e', Win.insertAtCursors. fold e0.
    destruct (cursors e0) as [|c0 cs0] eqn:Hcur; [by rewrite Hcs0 in Hcur|].
    rewrite <- Hcur in *. rewrite win_erase_loop_carets by done.
    by rewrite Hfold. }
  assert (Hun : undoStack (undo e') = undoStack (undo e0) ++ [mkBatch l (cursors e0) (cursors e1)]).
  { rewrite He'. simpl. by rewrite Hu1. }
  destruct (performUndo_top Win32 e' _ _ Hun) as (Hpt' & _ & Hc').
  split_and!.
  - rewrite He'. simpl. rewrite Hl1, Hlen, Hpt0, Hcs0. done.
  - eexists. split; [exact Hun|]. rewrite He'. simpl. by rewrite Hcs0.
  - by rewrite He'.
  - by rewrite He'.
  - rewrite Hpt'. simpl.
    apply (undo_recorded_document Win32 (pt e)).
    + by destruct Hok.
    + rewrite He'. simpl. by rewrite <- Hpt0.
    + apply counts_fit_win.
  - rewrite Hc'. simpl. done.
Qed.

(** X20: typing or pasting at carets (Win32 [insertAtCursors]).  When every
    cursor is a caret inside the document, the text grows by the pasted
    bytes once per caret, exactly one batch is pushed on top of the log the
    pending padding was committed to, the redo stack is emptied, and one
    [performUndo] gives back the text and the cursors from before. *)
Theorem X20_win_insertAtCursors (txt : bytes) (e : Editor) :
  carets_ok e -> cursors e ≠ [] ->
  let e' := Win.insertAtCursors txt e in
  PT.length (pt e') = PT.length (pt e) + length (cursors e) * length txt
  ∧ (∃ b, undoStack (undo e') = undoStack (undo (Win.commitPadding e)) ++ [b]
          ∧ beforeCursors b = cursors e ∧ afterCursors b = cursors e')
  ∧ redoStack (undo e') = []
  ∧ lineStarts e' = lineStartsOf (pt e')
  ∧ PT.document (pt (Ed.performUndo Win32 e')) = PT.document (pt e)
  ∧ cursors (Ed.performUndo Win32 e') = cursors e.
Proof. apply win_insertAtCursors_carets. Qed.

Lemma X20_witness :
  PT.length (pt (Win.insertAtCursors ["X"; "Y"]%byte s2_editor)) = 6 + 3 * 2
  ∧ PT.document (pt (Ed.performUndo Win32 (Win.insertAtCursors ["X"; "Y"]%byte s2_editor)))
    = PT.document (pt s2_editor).
Proof.
  assert (Hok : carets_ok s2_editor).
  { split.
    - apply (reachable_wf Win32). apply reach_file. simpl. lia.
    - repeat constructor; vm_compute; lia. }
  assert (Hne : cursors s2_editor ≠ []) by discriminate.
  destruct (X20_win_insertAtCursors ["X"; "Y"]%byte s2_editor Hok Hne)
    as (Hl & _ & _ & _ & Hd & _).
  split; [exact Hl|exact Hd].
Defined.

Lemma win_insertAtCursors_single (txt : bytes) (e : Editor) (p : nat) :
  cursors e = [mkCursor p p] ->
  (Z.of_nat (p + length txt) < 2 ^ 64)%Z ->
  pt (Win.insertAtCursors txt e) = PT.insert Win32 p txt (pt e)
  ∧ cursors (Win.insertAtCursors txt e)
    = [mkCursor (p + length txt) (p + length txt)].
Proof.
  intros Hcs Hsmall.
  set (e0 := Win.commitPadding e).
  assert (Hpt0 : pt e0 = pt e ∧ cursors e0 = [mkCursor p p]).
  { unfold e0, Win.commitPadding. rewrite <- Hcs.
    by destruct (ops (pendingPadding e)). }
  destruct Hpt0 as [Hpt0 Hcs0].
  unfold Win.insertAtCursors. fold e0. rewrite Hcs0.
  change (Win.sorted_indices [mkCursor p p]) with [0].
  cbn [foldl]. unfold Win.erase_selection. rewrite Hcs0.
  cbn [lookup list_lookup]. unfold Cur.hasSelection. cbn [head anchor].
  rewrite bool_decide_false by (by intros []).
  unfold Win.insert_at. rewrite Hcs0. cbn [lookup list_lookup].
  unfold Ed.updateDirtyFlag, Ed.rebuildLineStarts.
  cbn [pt cursors with_pt with_cursors with_undo with_isDirty with_lineStarts].
  rewrite Hcs0. cbn [head anchor fmap list_fmap].
  rewrite decide_True by done. rewrite wadd_exact by done.
  by rewrite Hpt0.
Qed.

(** X21: [doInsert(pos, s)] (Win32 build) for a position inside the
    document: [s] stands at [pos] in the text, the only cursor is a caret
    right after it, and [performUndo] gives back the old text with the caret
    at [pos]. *)
Theorem X21_doInsert (e : Editor) (p : nat) (s : bytes) :
  reachable Win32 (pt e) -> p <= PT.length (pt e) ->
  (Z.of_nat (p + length s) < 2 ^ 64)%Z ->
  let e' := WinMore.doInsert p s e in
  PT.document (pt e')
    = take p (PT.document (pt e)) ++ s ++ drop p (PT.document (pt e))
  ∧ cursors e' = [mkCursor (p + length s) (p + length s)]
  ∧ PT.document (pt (Ed.performUndo Win32 e')) = PT.document (pt e)
  ∧ cursors (Ed.performUndo Win32 e') = [mkCursor p p].
Proof.
  intros Hr Hp Hsmall e'. pose proof (reachable_wf _ _ Hr) as Hwf.
  set (e1 := with_cursors e [mkCursor p p]).
  assert (Hok : carets_ok e1).
  { split; [done|]. by repeat constructor. }
  destruct (win_insertAtCursors_single s e1 p eq_refl Hsmall) as (Hpt & Hcs).
  destruct (win_insertAtCursors_carets s e1 Hok ltac:(done))
    as (_ & _ & _ & _ & Hd & Hc).
  split_and!; [|done|done|done].
  unfold e', WinMore.doInsert. fold e1. rewrite Hpt.
  by apply document_insert.
Qed.

Lemma X21_witness :
  PT.document (pt (WinMore.doInsert 2 ["X"%byte] s2_editor))
    = ["a"; NL; "X"; "b"; NL; "c"; NL]%byte
  ∧ cursors (WinMore.doInsert 2 ["X"%byte] s2_editor) = [mkCursor 3 3]
  ∧ cursors (Ed.performUndo Win32 (WinMore.doInsert 2 ["X"%byte] s2_editor))
    = [mkCursor 2 2].
Proof.
  assert (Hr : reachable Win32 (pt s2_editor)) by (apply reach_file; simpl; lia).
  assert (Hp : 2 <= PT.length (pt s2_editor)) by (vm_compute; lia).
  assert (Hs : (Z.of_nat (2 + length ["X"%byte]) < 2 ^ 64)%Z)
    by (vm_compute; reflexivity).
  destruct (X21_doInsert s2_editor 2 ["X"%byte] Hr Hp Hs) as (Hd & Hc & _ & Hu).
  split_and!; [|exact Hc|exact Hu].
  rewrite Hd. reflexivity.
Defined.

(** X30: [commitPadding] (Win32 build) hands the pending padding to the
    undo log as one batch: the text and the cursors stay as they are, the
    redo stack is emptied, nothing is left pending (a second commit or a
    rollback changes nothing), and one [performUndo] takes the padding out
    again, giving the text it was added to and the cursors saved with it. *)
Theorem X30_commitPadding (e : Editor) (t0 : PieceTable) :
  reachable Win32 t0 ->
  recorded Win32 t0 (ops (pendingPadding e)) (pt e) ->
  ops (pendingPadding e) ≠ [] ->
  let e' := Win.commitPadding e in
  pt e' = pt e ∧ cursors e' = cursors e
  ∧ undoStack (undo e') = undoStack (undo e) ++ [pendingPadding e]
  ∧ redoStack (undo e') = []
  ∧ Win.commitPadding e' = e' ∧ WinMore.rollbackPadding e' = e'
  ∧ PT.document (pt (Ed.performUndo Win32 e')) = PT.document t0
  ∧ cursors (Ed.performUndo Win32 e') = beforeCursors (pendingPadding e).
Proof.
  intros Hr Hrec Hne e'. pose proof (reachable_wf _ _ Hr) as Hwf.
  assert (He' : e' = with_pendingPadding
                       (with_undo e (UM.push Win32 (pendingPadding e) (undo e)))
                       (mkBatch [] [] [])).
  { unfold e', Win.commitPadding. by destruct (ops (pendingPadding e)). }
  assert (Hun : undoStack (undo e') = undoStack (undo e) ++ [pendingPadding e]).
  { by rewrite He'. }
  destruct (performUndo_top Win32 e' _ _ Hun) as (Hpt' & _ & Hc').
  split_and!; try (by rewrite He').
  - rewrite Hpt'. apply (undo_recorded_document Win32 t0); [done| |].
    + by rewrite He'.
    + apply counts_fit_win.
  - done.
Qed.

Lemma X30_witness :
  undoStack (undo (Win.commitPadding padded_editor)) = [pendingPadding padded_editor]
  ∧ PT.document (pt (Ed.performUndo Win32 (Win.commitPadding padded_editor)))
    = doc_abc.
Proof.
  assert (Hr : reachable Win32 (pt s2_editor)) by (apply reach_file; simpl; lia).
  assert (Hrec : recorded Win32 (pt s2_editor) (ops (pendingPadding padded_editor))
                   (pt padded_editor)).
  { apply (rec_insert Win32 (pt s2_editor) 1 [SPACE; SPACE] []).
    - vm_compute. lia.
    - apply rec_nil. }
  assert (Hne : ops (pendingPadding padded_editor) ≠ []) by discriminate.
  destruct (X30_commitPadding padded_editor (pt s2_editor) Hr Hrec Hne)
    as (_ & _ & Hu & _ & _ & _ & Hd & _).
  split; [exact Hu|exact Hd].
Defined.

(** ** Selected lines *)

Lemma insert_by_sorted_le (x : Z) (l : list Z) :
  sorted_le l -> sorted_le (insert_by (λ a b, bool_decide (a < b)%Z) x l).
Proof.
  induction l as [|y l IH]; simpl; [done|].
  intros [Hy Hl]. case_bool_decide as Hyx; simpl.
  - split; [|by apply IH]. apply Forall_insert_by; [lia|done].
  - split; [|done]. constructor; [lia|].
    eapply Forall_impl; [exact Hy|]. simpl. lia.
Qed.

Lemma sort_by_sorted_le (l : list Z) :
  sorted_le (sort_by (λ a b, bool_decide (a < b)%Z) l).
Proof.
  unfold sort_by. induction l as [|x l IH]; simpl; [done|].
  by apply insert_by_sorted_le.
Qed.

Lemma unique_cons (x : Z) (l : list Z) :
  unique (x :: l)
  = match l with
    | y :: _ => if decide (x = y) then unique l else x :: unique l
    | [] => [x]
    end.
Proof. by destruct l. Qed.

Lemma unique_ascending (l : list Z) :
  sorted_le l -> ascending (unique l) ∧ (∀ x, x ∈ unique l ↔ x ∈ l).
Proof.
  induction l as [|x l IH]; [done|].
  intros [Hx Hl]. destruct (IH Hl) as [Ha He]. rewrite unique_cons.
  destruct l as [|y l'].
  - split; [by repeat constructor|done].
  - destruct (decide (x = y)) as [->|Hne].
    + split; [done|]. intros z. rewrite He, !elem_of_cons. tauto.
    + split.
      * split; [|done]. apply Forall_forall. intros z Hz%He.
        apply Forall_cons in Hx as [Hxy Hx]. destruct Hl as [Hy _].
        apply elem_of_cons in Hz as [->|Hz]; [lia|].
        pose proof (proj1 (Forall_forall _ _) Hy z Hz). simpl in *. lia.
      * intros z. rewrite (elem_of_cons (unique _)), He, !elem_of_cons. tauto.
Qed.

(** X22: the list of selected lines ([getSelectedLineIndices] in the Win32
    build, [getUniqueLineIndices] in the macOS port) is strictly ascending,
    so it holds no line twice, and it holds the line of every caret. *)
Theorem X22_selected_lines (e : Editor) :
  ascending (Win.getSelectedLineIndices e)
  ∧ ascending (Mac.getUniqueLineIndices e)
  ∧ (∀ c, c ∈ cursors e -> head c = anchor c ->
       Ed.getLineIdx Win32 e (head c) ∈ Win.getSelectedLineIndices e
       ∧ Ed.getLineIdx MacOS e (head c) ∈ Mac.getUniqueLineIndices e).
Proof.
  unfold Win.getSelectedLineIndices, Mac.getUniqueLineIndices.
  split_and!.
  - apply unique_ascending, sort_by_sorted_le.
  - apply unique_ascending, sort_by_sorted_le.
  - intros c Hc Heq. split.
    + apply unique_ascending; [apply sort_by_sorted_le|].
      apply elem_of_sort_by, list_elem_of_bind. exists c. split; [|done].
      assert (Hs : Cur.start c = head c) by (unfold Cur.start; lia).
      assert (He : Cur.end_ c = head c) by (unfold Cur.end_; lia).
      unfold Cur.hasSelection. rewrite bool_decide_false by (by intros []).
      rewrite Hs, He. set (L := Ed.getLineIdx Win32 e (head c)).
      cbn [andb]. apply elem_of_seqZ. lia.
    + apply unique_ascending; [apply sort_by_sorted_le|].
      apply elem_of_sort_by, list_elem_of_bind. exists c. split; [|done].
      unfold Cur.hasSelection. rewrite bool_decide_false by (by intros []).
      apply list_elem_of_singleton. done.
Qed.

Lemma X22_witness :
  Win.getSelectedLineIndices
    (with_cursors s2_editor [mkCursor 4 4; mkCursor 0 0; mkCursor 5 5]) = [0; 2]%Z
  ∧ Ed.getLineIdx MacOS
      (with_cursors s2_editor [mkCursor 4 4; mkCursor 0 0; mkCursor 5 5]) 5
    ∈ Mac.getUniqueLineIndices
        (with_cursors s2_editor [mkCursor 4 4; mkCursor 0 0; mkCursor 5 5]).
Proof.
  split; [reflexivity|].
  apply (proj2 (proj2 (X22_selected_lines
    (with_cursors s2_editor [mkCursor 4 4; mkCursor 0 0; mkCursor 5 5])))
    (mkCursor 5 5)).
  - simpl. right. right. left.
  - reflexivity.
Defined.

Lemma expand_groups_cons (g : Z * Z) (gs : list (Z * Z)) :
  expand_groups (g :: gs) = seqZ g.1 (g.2 - g.1 + 1) ++ expand_groups gs.
Proof. reflexivity. Qed.

Lemma group_lines_expand (l : list Z) :
  ∀ start_ prev, (start_ <= prev)%Z ->
  expand_groups (Mac.group_lines start_ prev l)
    = seqZ start_ (prev - start_ + 1) ++ l
  ∧ Forall (λ g, (g.1 <= g.2)%Z) (Mac.group_lines start_ prev l).
Proof.
  induction l as [|x l IH]; intros start_ prev Hle; cbn [Mac.group_lines].
  - rewrite expand_groups_cons. split; [done|]. by repeat constructor.
  - destruct (decide (x ≠ prev + 1)%Z) as [Hx|Hx].
    + destruct (IH x x ltac:(lia)) as [He Hf].
      rewrite expand_groups_cons, He. cbn [fst snd]. split.
      * f_equal. replace (x - x + 1)%Z with 1%Z by lia. done.
      * by constructor.
    + assert (x = prev + 1)%Z as -> by lia.
      destruct (IH start_ (prev + 1)%Z ltac:(lia)) as [He Hf].
      rewrite He. split; [|done].
      replace (prev + 1 - start_ + 1)%Z with ((prev - start_ + 1) + 1)%Z by lia.
      rewrite seqZ_app by lia. rewrite <- (assoc_L (++)).
      replace (start_ + (prev - start_ + 1))%Z with (prev + 1)%Z by lia.
      done.
Qed.

(** X23: the groups of consecutive lines the macOS [moveLines] works on
    cover exactly the selected lines: written out again, the groups give
    back the list they were built from, in order, and every group runs from
    a first line to a last line that is not before it. *)
Theorem X23_group_lines (front : Z) (rest : list Z) :
  expand_groups (Mac.group_lines front front rest) = front :: rest
  ∧ Forall (λ g, (g.1 <= g.2)%Z) (Mac.group_lines front front rest).
Proof.
  destruct (group_lines_expand rest front front ltac:(lia)) as [He Hf].
  split; [|done]. rewrite He.
  by replace (front - front + 1)%Z with 1%Z by lia.
Qed.

(** ** The macOS port: caret movement, forward delete, search, opening *)

Lemma seq_len_bounds (c : byte) : 1 <= MacMore.seq_len c <= 4.
Proof.
  unfold MacMore.seq_len.
  repeat (match goal with |- context [if ?b then _ else _] => destruct b end);
    lia.
Qed.

Lemma skip_continuation_spec (t : PieceTable) (p : nat) :
  MacMore.skip_continuation t p <= p
  ∧ (MacMore.skip_continuation t p = 0
     ∨ MacMore.band (byteAt t (MacMore.skip_continuation t p)) 192 ≠ 128%N).
Proof.
  induction p as [|p IH]; simpl; [split; [done|by left]|].
  destruct (N.eqb_spec (MacMore.band (byteAt t (S p)) 192) 128) as [He|Hne].
  - destruct IH as [Hle Hor]. split; [lia|done].
  - split; [done|by right].
Qed.

(** X24: [moveCaretVisual] (macOS port).  Forward, a caret inside the
    document moves on by one to four bytes and never past the end, and a
    caret at or past the end lands on the end.  Backward, a caret that is
    not at 0 moves to a smaller offset, and the offset it stops at is 0 or
    a byte that is not a UTF-8 continuation byte. *)
Theorem X24_moveCaretVisual (t : PieceTable) (p : nat) :
  (p < PT.length t ->
     p < MacMore.moveCaretVisual t p true
     ∧ MacMore.moveCaretVisual t p true <= PT.length t
     ∧ MacMore.moveCaretVisual t p true <= p + 4)
  ∧ (PT.length t <= p -> MacMore.moveCaretVisual t p true = PT.length t)
  ∧ (0 < p -> MacMore.moveCaretVisual t p false < p)
  ∧ MacMore.moveCaretVisual t 0 false = 0
  ∧ (MacMore.moveCaretVisual t p false = 0
     ∨ MacMore.band (byteAt t (MacMore.moveCaretVisual t p false)) 192 ≠ 128%N).
Proof.
  unfold MacMore.moveCaretVisual. split_and!.
  - intros Hp. rewrite decide_False by lia.
    pose proof (seq_len_bounds (byteAt t p)) as Hsl.
    destruct (decide (byteAt t p = CR)); [|lia].
    destruct (decide (p + 1 < PT.length t)); [|lia].
    destruct (decide (byteAt t (p + 1) = NL)); lia.
  - intros Hp. by rewrite decide_True by done.
  - intros Hp. destruct p as [|p]; [lia|].
    destruct (skip_continuation_spec t p) as [Hle _].
    destruct (MacMore.skip_continuation t p) as [|q]; [lia|].
    destruct (decide (byteAt t q = CR)); [|lia].
    destruct (decide (byteAt t (S q) = NL)); lia.
  - done.
  - destruct p as [|p]; [by left|].
    destruct (skip_continuation_spec t p) as [_ Hor].
    destruct (MacMore.skip_continuation t p) as [|q]; [by left|].
    destruct Hor as [|Hor]; [done|].
    destruct (decide (byteAt t q = CR)) as [Hcr|]; [|by right].
    destruct (decide (byteAt t (S q) = NL)); [|by right].
    right. rewrite Hcr. by vm_compute.
Qed.

(** X25: [moveCaretVisual] steps over a CR LF pair as one character, in
    both directions. *)
Theorem X25_moveCaretVisual_crlf (t : PieceTable) (p : nat) :
  p + 1 < PT.length t -> byteAt t p = CR -> byteAt t (p + 1) = NL ->
  MacMore.moveCaretVisual t p true = p + 2
  ∧ MacMore.moveCaretVisual t (p + 2) false = p.
Proof.
  intros Hp Hcr Hnl. unfold MacMore.moveCaretVisual. split.
  - rewrite decide_False by lia. rewrite decide_True by done.
    rewrite decide_True by done. rewrite decide_True by done. lia.
  - replace (p + 2) with (S (S p)) by lia.
    replace (p + 1) with (S p) in Hnl by lia.
    cbn [MacMore.skip_continuation]. rewrite Hnl.
    change (MacMore.band NL 192 =? 128)%N with false. cbv iota.
    rewrite decide_True by done. by rewrite decide_True by done.
Qed.

Lemma X25_witness :
  MacMore.moveCaretVisual crlf_table 1 true = 3
  ∧ MacMore.moveCaretVisual crlf_table 3 false = 1.
Proof.
  apply (X25_moveCaretVisual_crlf crlf_table 1).
  - vm_compute. lia.
  - reflexivity.
  - reflexivity.
Defined.

Lemma X24_witness :
  0 < MacMore.moveCaretVisual crlf_table 0 true
  ∧ MacMore.moveCaretVisual crlf_table 4 false < 4.
Proof.
  destruct (X24_moveCaretVisual crlf_table 0) as (Hf & _).
  destruct (X24_moveCaretVisual crlf_table 4) as (_ & _ & Hb & _).
  split.
  - apply Hf. vm_compute. lia.
  - apply Hb. lia.
Defined.

(** *** Forward delete *)





Lemma counts_fit_small port (l : list EditOp) :
  Forall (λ o, (Z.of_nat (length (text o)) < 2 ^ 31)%Z) l -> counts_fit port l.
Proof.
  intros Hl. unfold counts_fit. eapply Forall_impl; [exact Hl|].
  intros o Ho. simpl in Ho. destruct port; simpl; [done|].
  rewrite to_int_small by done. unfold to_size_t.
  rewrite Z.mod_small by lia. lia.
Qed.

(** X27: forward delete with one caret inside the text (macOS port).  The
    bytes from the caret up to where [moveCaretVisual] would move it are
    removed, the caret stays where it was, and [performUndo] gives the text
    back. *)
Theorem X27_deleteForward_caret (e : Editor) (p : nat) :
  reachable MacOS (pt e) -> cursors e = [mkCursor p p] ->
  p < PT.length (pt e) -> (Z.of_nat (PT.length (pt e)) < 2 ^ 64)%Z ->
  let e' := MacMore.deleteForwardAtCursors e in
  PT.document (pt e')
    = take p (PT.document (pt e))
      ++ drop (MacMore.moveCaretVisual (pt e) p true) (PT.document (pt e))
  ∧ cursors e' = [mkCursor p p]
  ∧ lineStarts e' = lineStartsOf (pt e')
  ∧ PT.document (pt (Ed.performUndo MacOS e')) = PT.document (pt e)
  ∧ cursors (Ed.performUndo MacOS e') = [mkCursor p p].
Proof.
  intros Hr Hcs Hp Hsmall e'. pose proof (reachable_wf _ _ Hr) as Hwf.
  pose proof (length_document (pt e) Hwf) as Hlen.
  set (nx := MacMore.moveCaretVisual (pt e) p true).
  assert (Hnx : p < nx ∧ nx <= PT.length (pt e) ∧ nx <= p + 4).
  { unfold nx, MacMore.moveCaretVisual. rewrite decide_False by lia.
    pose proof (seq_len_bounds (byteAt (pt e) p)) as Hsl.
    destruct (decide (byteAt (pt e) p = CR)); [|lia].
    destruct (decide (p + 1 < PT.length (pt e))); [|lia].
    destruct (decide (byteAt (pt e) (p + 1) = NL)); lia. }
  set (n := nx - p).
  set (txt := PT.getRange (pt e) p n).
  assert (He' : e' = Ed.updateDirtyFlag (Ed.rebuildLineStarts
            (with_undo
               (with_cursors (with_pt e (PT.erase MacOS p n (pt e))) [mkCursor p p])
               (UM.push MacOS (mkBatch [mkOp Erase p txt] [mkCursor p p] [mkCursor p p])
                  (undo e))))).
  { unfold e', MacMore.deleteForwardAtCursors. rewrite Hcs.
    change (Win.sorted_indices [mkCursor p p]) with [0].
    cbn [foldl]. unfold MacMore.delete_forward_one. rewrite Hcs.
    cbn [lookup list_lookup]. unfold Cur.hasSelection. cbn [head anchor].
    rewrite bool_decide_false by (by intros []).
    assert (Hst : Cur.start (mkCursor p p) = p) by (unfold Cur.start; simpl; lia).
    rewrite Hst. fold nx. rewrite wsub_exact by lia. fold n.
    rewrite decide_True by (unfold n; lia).
    cbn [fmap list_fmap head anchor].
    rewrite decide_False by (pose proof (wadd_exact p n ltac:(unfold n; lia)); lia).
    rewrite decide_False by lia.
    cbn [insert list_insert]. done. }
  assert (Hun : undoStack (undo e')
                = undoStack (undo e)
                  ++ [mkBatch [mkOp Erase p txt] [mkCursor p p] [mkCursor p p]]).
  { by rewrite He'. }
  destruct (performUndo_top MacOS e' _ _ Hun) as (Hpt' & _ & Hc').
  assert (Hd : PT.document (PT.erase MacOS p n (pt e))
               = take p (PT.document (pt e)) ++ drop nx (PT.document (pt e))).
  { rewrite document_erase by done. do 2 f_equal. unfold n. lia. }
  split_and!.
  - by rewrite He'.
  - by rewrite He'.
  - by rewrite He'.
  - rewrite Hpt'. cbn [ops].
    apply (undo_recorded_document MacOS (pt e)); [done| |].
    + rewrite He'. simpl. unfold txt. constructor. constructor.
    + apply counts_fit_small. repeat constructor. simpl.
      unfold txt. rewrite getRange_spec by done.
      rewrite length_take. unfold n. lia.
  - by rewrite Hc'.
Qed.

Lemma X27_witness :
  PT.document (pt (MacMore.deleteForwardAtCursors
                     (with_cursors (Ed.init crlf_table) [mkCursor 1 1])))
  = ["a"; "b"]%byte.
Proof.
  assert (Hr : reachable MacOS (pt (with_cursors (Ed.init crlf_table) [mkCursor 1 1]))).
  { apply reach_file. simpl. lia. }
  rewrite (proj1 (X27_deleteForward_caret
                    (with_cursors (Ed.init crlf_table) [mkCursor 1 1]) 1 Hr
                    eq_refl ltac:(vm_compute; lia) ltac:(vm_compute; reflexivity))).
  reflexivity.
Defined.

(** *** Search *)

Lemma occurs_at_bound (d q : bytes) (p : nat) :
  q ≠ [] -> occurs_at d q p -> p + length q <= length d.
Proof.
  unfold occurs_at. intros Hq Ho.
  assert (Hl : length (take (length q) (drop p d)) = length q) by by rewrite Ho.
  rewrite length_take, length_drop in Hl.
  assert (0 < length q) by (destruct q; [done|simpl; lia]). lia.
Qed.

Lemma mac_match_at_iff (t : PieceTable) (q : bytes) :
  wf t -> ∀ cur,
  MacMore.match_at t (PT.length t) q cur = true
  ↔ (q = [] ∨ cur + length q <= PT.length t)
    ∧ occurs_at (PT.document t) q cur.
Proof.
  intros Hwf. pose proof (length_document t Hwf) as Hlen. unfold occurs_at.
  induction q as [|c q IH]; intros cur; simpl.
  - rewrite take_0. split; [by intros _; split; [left|]|done].
  - destruct (decide (PT.length t <= cur)) as [Hge|Hlt].
    + split; [done|]. intros [[|]]; [done|lia].
    + destruct (lookup_lt_is_Some_2 (PT.document t) cur ltac:(lia)) as [d Hd].
      rewrite (byteAt_document t cur d Hwf Hd), (drop_S _ _ _ Hd). simpl.
      destruct (decide (d = c)) as [->|Hne].
      * rewrite IH. split.
        -- intros [Hb Ho]. split; [right|by rewrite Ho].
           destruct Hb as [->|]; simpl; lia.
        -- intros [Hb [= Ho]]. split; [|done].
           destruct Hb as [|Hb]; [done|]. right. lia.
      * split; [done|]. intros [_ [= ]]. done.
Qed.

Lemma mac_match_at_occurs (t : PieceTable) (q : bytes) (cur : nat) :
  wf t -> q ≠ [] ->
  MacMore.match_at t (PT.length t) q cur = true ↔ occurs_at (PT.document t) q cur.
Proof.
  intros Hwf Hq. rewrite mac_match_at_iff by done. split; [by intros []|].
  intros Ho. split; [|done]. right.
  rewrite <- length_document by done. by apply occurs_at_bound.
Qed.

(** A scan that does not wrap: [fuel] positions from [cur]. *)
Lemma mac_scan (t : PieceTable) (len : nat) (q : bytes) :
  ∀ fuel cur, cur + fuel <= len ->
  match MacMore.find_loop fuel t len q true cur with
  | Some p => cur <= p < cur + fuel
              ∧ MacMore.match_at t len q p = true
              ∧ ∀ k, cur <= k < p -> MacMore.match_at t len q k = false
  | None => ∀ k, cur <= k < cur + fuel -> MacMore.match_at t len q k = false
  end.
Proof.
  induction fuel as [|fuel IH]; intros cur Hfit; simpl; [lia|].
  destruct (MacMore.match_at t len q cur) eqn:Hm.
  - split_and!; [lia|lia|done|lia].
  - destruct fuel as [|fuel].
    + simpl. intros k Hk. by replace k with cur by lia.
    + rewrite decide_False by lia.
      specialize (IH (cur + 1) ltac:(lia)).
      destruct (MacMore.find_loop (S fuel) t len q true (cur + 1)) as [p|].
      * destruct IH as (Hp & Hmp & Hbefore). split_and!; [lia|lia|done|].
        intros k Hk. destruct (decide (k = cur)) as [->|]; [done|].
        apply Hbefore. lia.
      * intros k Hk. destruct (decide (k = cur)) as [->|]; [done|].
        apply IH. lia.
Qed.

(** The forward loop from [cur] first runs to the end of the text, then
    starts again at 0. *)
Lemma mac_find_loop_wrap (t : PieceTable) (len : nat) (q : bytes) (b : nat) :
  ∀ a cur, 0 < a -> cur + a = len ->
  MacMore.find_loop (a + b) t len q true cur
  = match MacMore.find_loop a t len q true cur with
    | Some p => Some p
    | None => MacMore.find_loop b t len q true 0
    end.
Proof.
  induction a as [|a IH]; intros cur Ha Hfit; [lia|]. simpl.
  destruct (MacMore.match_at t len q cur); [done|].
  destruct a as [|a].
  - simpl. by rewrite decide_True by lia.
  - rewrite decide_False by lia. apply IH; lia.
Qed.

(** X28: [findText] of the macOS port.  A position it returns, in either
    direction, is an occurrence of the query.  Searching forward from a
    start inside the text it finds the nearest occurrence at or after the
    start, or else, wrapping around, the first occurrence of the text; it
    answers "not found" only when the query occurs nowhere. *)
Theorem X28_mac_findText (e : Editor) (startPos : nat) (query : bytes) :
  reachable MacOS (pt e) ->
  let occ := occurs_at (PT.document (pt e)) query in
  (∀ forward p, MacMore.findText e startPos query forward = Some p ->
     occ p ∧ p + length query <= PT.length (pt e))
  ∧ (query ≠ [] -> startPos < PT.length (pt e) ->
     match MacMore.findText e startPos query true with
     | Some p =>
         (startPos <= p ∧ ∀ k, startPos <= k < p -> ¬ occ k)
         ∨ (p < startPos ∧ (∀ k, startPos <= k -> ¬ occ k)
            ∧ ∀ k, k < p -> ¬ occ k)
     | None => ∀ k, ¬ occ k
     end).
Proof.
  intros Hr occ. pose proof (reachable_wf _ _ Hr) as Hwf.
  pose proof (length_document (pt e) Hwf) as Hlen.
  set (len := PT.length (pt e)) in *.
  assert (Hsound : ∀ fuel forward cur p,
            MacMore.find_loop fuel (pt e) len query forward cur = Some p ->
            MacMore.match_at (pt e) len query p = true).
  { induction fuel as [|fuel IH]; intros forward cur p; simpl; [done|].
    destruct (MacMore.match_at (pt e) len query cur) eqn:Hm.
    - by intros [= <-].
    - apply IH. }
  assert (Hft : query ≠ [] -> ∀ forward,
            MacMore.findText e startPos query forward
            = MacMore.find_loop len (pt e) len query forward startPos).
  { intros Hne forward. unfold MacMore.findText. by destruct query. }
  split.
  - intros forward p.
    destruct (decide (query = [])) as [->|Hne]; [done|].
    rewrite Hft by done. intros Hf%Hsound.
    apply mac_match_at_occurs in Hf; [|done..].
    split; [done|]. unfold len. rewrite <- length_document by done.
    by apply occurs_at_bound.
  - intros Hne Hstart.
    assert (Hno : ∀ k, MacMore.match_at (pt e) len query k = false -> ¬ occ k).
    { intros k Hk Ho. apply mac_match_at_occurs in Ho; [|done..].
      fold len in Ho. congruence. }
    assert (Hpast : ∀ k, len <= k -> ¬ occ k).
    { intros k Hk Ho. apply occurs_at_bound in Ho; [|done].
      destruct query; [done|]. simpl in Ho. lia. }
    rewrite Hft by done.
    replace (MacMore.find_loop len (pt e) len query true startPos)
      with (MacMore.find_loop ((len - startPos) + startPos) (pt e) len query
              true startPos) by (f_equal; lia).
    rewrite mac_find_loop_wrap by lia.
    pose proof (mac_scan (pt e) len query (len - startPos) startPos
                  ltac:(lia)) as H1.
    destruct (MacMore.find_loop (len - startPos) (pt e) len query true startPos)
      as [p|].
    + destruct H1 as (Hp & _ & Hbefore). left. split; [lia|].
      intros k Hk. by apply Hno, Hbefore.
    + pose proof (mac_scan (pt e) len query startPos 0 ltac:(lia)) as H2.
      assert (Hafter : ∀ k, startPos <= k -> ¬ occ k).
      { intros k Hk. destruct (decide (k < len)); [|apply Hpast; lia].
        apply Hno, H1. lia. }
      destruct (MacMore.find_loop startPos (pt e) len query true 0) as [p|].
      * destruct H2 as (Hp & _ & Hbefore). right. split_and!; [lia|done|].
        intros k Hk. apply Hno, Hbefore. lia.
      * intros k. destruct (decide (k < startPos)); [|apply Hafter; lia].
        apply Hno, H2. lia.
Qed.

Lemma X28_witness :
  MacMore.findText s2_editor 3 [NL] true = Some 3
  ∧ MacMore.findText s2_editor 4 ["b"%byte] true = Some 2
  ∧ occurs_at (PT.document (pt s2_editor)) ["b"%byte] 2.
Proof.
  assert (Hr : reachable MacOS (pt s2_editor)) by (apply reach_file; simpl; lia).
  split_and!; [reflexivity|reflexivity|].
  apply (proj1 (X28_mac_findText s2_editor 4 ["b"%byte] Hr) true 2).
  reflexivity.
Defined.

(** *** Opening a file *)




